(** * sonar-tools: the issue engine of [sonarqube/issues.py]

    A shallow embedding of the issue abstraction of sonar-tools
    (matching, changelog normalisation, timeline building, changelog
    replication, the adaptive search windower and the CSV projection),
    followed by the properties established about it.

    Conventions
    - a Python value that may be [None] is an [option];
    - a JSON object with optional members (a changelog diff) is a
      [gmap string string]; [d[k]] on a missing member raises [KeyError];
    - [Issue] objects are mutable and shared by reference: they live in a
      heap [gmap loc Issue] and functions receive locations;
    - exceptions do not roll the state back: a computation returns an
      [outcome] together with the state reached. *)

From Stdlib Require Import ZArith PrimFloat Uint63 String Ascii List Lia.
From stdpp Require Import gmap strings list sorting pretty.

Set Warnings "-inexact-float,-clear-no-such-hyp".
Local Open Scope Z_scope.

(** ** Python values *)

(** Exceptions raised by the modelled code. [Dangling] is not a Python
    exception: it marks the dereference of a location outside the heap,
    which no Python program can perform. *)
Inductive exn :=
| KeyError (k : string)
| AttributeError (attr : string)
| TypeError
| ValueError
| Dangling.

Inductive outcome (A : Type) :=
| Ok (a : A)
| Raise (e : exn).
Arguments Ok {A} a.
Arguments Raise {A} e.

#[global] Instance outcome_ret : MRet outcome := fun A a => Ok a.
#[global] Instance outcome_bind : MBind outcome := fun A B f m =>
  match m with
  | Ok a => f a
  | Raise e => Raise e
  end.

(** Python numbers: [int] and [float] are distinct types which compare by
    value; arithmetic between an [int] and a [float] converts the [int]. *)
Inductive pynum :=
| PInt (z : Z)
| PFloat (f : float).

(** [float(z)], for the integers of a machine word. *)
Definition float_of_int (z : Z) : float :=
  if 0 <=? z then PrimFloat.of_uint63 (Uint63.of_Z z)
  else PrimFloat.opp (PrimFloat.of_uint63 (Uint63.of_Z (- z))).

Definition to_float (n : pynum) : float :=
  match n with
  | PInt z => float_of_int z
  | PFloat f => f
  end.

(** [a - b] *)
Definition num_sub (a b : pynum) : pynum :=
  match a, b with
  | PInt x, PInt y => PInt (x - y)
  | _, _ => PFloat (PrimFloat.sub (to_float a) (to_float b))
  end.

(** [a == b] *)
Definition num_eqb (a b : pynum) : bool :=
  match a, b with
  | PInt x, PInt y => x =? y
  | _, _ => PrimFloat.eqb (to_float a) (to_float b)
  end.

(** [a <= b] *)
Definition num_leb (a b : pynum) : bool :=
  match a, b with
  | PInt x, PInt y => x <=? y
  | _, _ => PrimFloat.leb (to_float a) (to_float b)
  end.

(** ** Data model *)

(** A normalised event, the dictionary [{'event': .., 'value': ..}]. *)
Record diff_event := DiffEvent {
  ev_event : string;
  ev_value : option string
}.

(** A timeline entry, the dictionary [{'date': .., 'event': .., 'value': ..}]. *)
Record entry := Entry {
  date : string;
  event : string;
  value : option string
}.

#[global] Instance entry_eq_dec : EqDecision entry.
Proof. solve_decision. Defined.

(** One diff of a changelog record: a JSON object whose members
    ['key'], ['oldValue'], ['newValue'] may each be missing. *)
Abbreviation diff := (gmap string string).

(** One record of the answer of [issues/changelog]. *)
Record raw_log := RawLog {
  creationDate : string;
  diffs : list diff
}.

(** One element of the ['comments'] member of an issue record. *)
Record raw_comment := RawComment {
  createdAt : string;
  markdown : string
}.

(** The issue record kept in [self.json]. The methods of [Issue] read
    its member ['comments'] only: [json_comments] is that member, [None]
    when the record has none. *)
Record json_record := JsonRecord {
  json_comments : option (list raw_comment)
}.

(** The attributes of an [Issue] object. [json] is [self.json]: [None]
    on an object that was built and not fed, the issue record after
    [__feed__]. [env] is the URL answered by [self.env.get_url()]. *)
Record Issue := mkIssue {
  key : string;
  env : string;
  url : option string;
  json : option json_record;
  severity : option string;
  type : string;
  status : string;
  rule : string;
  project : string;
  changelog : option (list entry);
  comments : option (list entry);
  line : option Z;
  component : string;
  message : option string;
  debt : option string;
  creation_date : string;
  modification_date : string;
  hash : option string
}.

(** ** Diff normaliser *)

(** [d[k]] *)
Definition dict_get (d : diff) (k : string) : outcome string :=
  match d !! k with
  | Some v => Ok v
  | None => Raise (KeyError k)
  end.

(** [k in d] *)
Definition dict_in (k : string) (d : diff) : bool :=
  bool_decide (is_Some (d !! k)).

Definition resolution_diff_to_changelog (newval : string) : diff_event :=
  if (newval =? "FALSE-POSITIVE")%string then DiffEvent "transition" (Some "falsepositive")
  else if (newval =? "WONTFIX")%string then DiffEvent "transition" (Some "wontfix")
  else if (newval =? "FIXED")%string then DiffEvent "fixed" None
  else DiffEvent "unknown" None.

Definition reopen_diff_to_changelog (oldval : string) : diff_event :=
  if (oldval =? "CONFIRMED")%string then DiffEvent "transition" (Some "unconfirm")
  else DiffEvent "transition" (Some "reopen").

(** The test is [d['newValue'] in d]: the new value itself is looked up
    among the members of the diff. *)
Definition assignee_diff_to_changelog (d : diff) : outcome diff_event :=
  newval ← dict_get d "newValue";
  if dict_in newval d
  then (v ← dict_get d "newValue"; Ok (DiffEvent "assign" (Some v)))
  else Ok (DiffEvent "unassign" None).

(** ['{0} -> {1}'.format(a, b)] *)
Definition format_arrow (a b : string) : string := a +:+ " -> " +:+ b.

Definition get_event_from_diff (diff : diff) : outcome (option diff_event) :=
  dkey ← dict_get diff "key";
  dnewval ← dict_get diff "newValue";
  let event : option diff_event := None in
  let event :=
    if (dkey =? "severity")%string || (dkey =? "type")%string || (dkey =? "tags")%string
    then Some (DiffEvent dkey (Some dnewval)) else event in
  let event :=
    if (dkey =? "resolution")%string && dict_in "newValue" diff
    then Some (resolution_diff_to_changelog dnewval) else event in
  let event :=
    if (dkey =? "status")%string && dict_in "newValue" diff && (dnewval =? "CONFIRMED")%string
    then Some (DiffEvent "transition" (Some "confirm")) else event in
  event ←
    (if (dkey =? "status")%string && dict_in "newValue" diff && (dnewval =? "REOPENED")%string
     then (oldval ← dict_get diff "oldValue"; Ok (Some (reopen_diff_to_changelog oldval)))
     else Ok event);
  event ←
    (if (dkey =? "status")%string && dict_in "newValue" diff && (dnewval =? "OPEN")%string
     then (oldval ← dict_get diff "oldValue";
           Ok (if (oldval =? "CLOSED")%string
               then Some (DiffEvent "transition" (Some "reopen")) else event))
     else Ok event);
  event ←
    (if (dkey =? "assignee")%string
     then (e ← assignee_diff_to_changelog diff; Ok (Some e))
     else Ok event);
  event ←
    (if (dkey =? "from_short_branch")%string
     then (oldval ← dict_get diff "oldValue";
           Ok (Some (DiffEvent "merge" (Some (format_arrow oldval dnewval)))))
     else Ok event);
  event ←
    (if (dkey =? "effort")%string
     then (oldval ← dict_get diff "oldValue";
           Ok (Some (DiffEvent "effort" (Some (format_arrow oldval dnewval)))))
     else Ok event);
  Ok event.

Fixpoint diff_to_changelog (diffs : list diff) : outcome diff_event :=
  match diffs with
  | d :: rest =>
      event ← get_event_from_diff d;
      match event with
      | Some e => Ok e
      | None => diff_to_changelog rest
      end
  | [] => Ok (DiffEvent "unknown" None)
  end.

(** The keys the normaliser has a rule for. *)
Definition recognized_keys : list string :=
  ["severity"; "type"; "tags"; "resolution"; "status"; "assignee";
   "from_short_branch"; "effort"].

(** No diff of the set carries a recognised key. *)
Definition no_recognized_key (diffs : list diff) : Prop :=
  Forall (λ d : diff, ∀ k, d !! "key" = Some k → k ∉ recognized_keys) diffs.

(** ** Issue matcher *)

(** [Issue.match]: 0 when rule or hash differ, otherwise 1 minus 0.1 for
    each of component, message and debt that differs. *)
Definition Issue_match (self another_issue : Issue) : pynum :=
  if bool_decide (rule self ≠ rule another_issue)
     || bool_decide (hash self ≠ hash another_issue)
  then PInt 0
  else
    let match_level := PInt 1 in
    let match_level :=
      if bool_decide (component self ≠ component another_issue)
      then num_sub match_level (PFloat 0.1) else match_level in
    let match_level :=
      if bool_decide (message self ≠ message another_issue)
      then num_sub match_level (PFloat 0.1) else match_level in
    let match_level :=
      if bool_decide (debt self ≠ debt another_issue)
      then num_sub match_level (PFloat 0.1) else match_level in
    match_level.

(** The two issues of the matching scenario: same rule and hash,
    different component, message and debt. *)
Definition scenario_issue (k comp msg dbt : string) : Issue :=
  {| key := k; env := "http://sq"; url := None; json := Some (JsonRecord None);
     severity := Some "MAJOR"; type := "BUG"; status := "OPEN";
     rule := "S1234"; project := "p"; changelog := None; comments := None;
     line := None; component := comp; message := Some msg;
     debt := Some dbt; creation_date := "2020-01-01T00:00:00+0000";
     modification_date := "2020-01-01T00:00:00+0000"; hash := Some "abc" |}.

Definition issue_A : Issue := scenario_issue "A" "f1" "m" "10min".
Definition issue_B : Issue := scenario_issue "B" "f2" "m2" "5min".

(** ** The store of issue objects and the server *)

Definition loc := nat.

(** A state-changing call [self.post(api, params)]. *)
Record request := Post {
  api : string;
  params : list (string * option string)
}.

(** The state a computation runs in: the [Issue] objects, by location,
    and the state-changing calls sent to the server so far. *)
Record world := World {
  heap : gmap loc Issue;
  posts : list request
}.

(** Computations that read and update the world and may raise; the world
    reached when an exception is raised is kept. *)
Definition M (A : Type) : Type := world → outcome A * world.

Definition ret {A} (a : A) : M A := λ w, (Ok a, w).

Definition bind {A B} (m : M A) (f : A → M B) : M B := λ w,
  match m w with
  | (Ok a, w') => f a w'
  | (Raise e, w') => (Raise e, w')
  end.

Definition raise {A} (e : exn) : M A := λ w, (Raise e, w).

Definition lift {A} (o : outcome A) : M A := λ w, (o, w).

Notation "x <- m ; k" := (bind m (λ x, k))
  (at level 20, m at level 100, k at level 200, only parsing).

Definition deref (l : loc) : M Issue := λ w,
  match heap w !! l with
  | Some i => (Ok i, w)
  | None => (Raise Dangling, w)
  end.

Definition store (l : loc) (i : Issue) : M unit := λ w,
  (Ok tt, {| heap := <[l := i]> (heap w); posts := posts w |}).

Definition post (a : string) (ps : list (string * option string)) : M unit := λ w,
  (Ok tt, {| heap := heap w; posts := posts w ++ [Post a ps] |}).

(** [for x in l: body(x)] *)
Fixpoint for_each {A} (l : list A) (body : A → M unit) : M unit :=
  match l with
  | [] => ret tt
  | x :: rest => _ <- body x; for_each rest body
  end.

(** A list-valued attribute used where a list is required ([len],
    [for]): [None] is a [TypeError]. *)
Definition as_list {A} (o : option (list A)) : M (list A) :=
  match o with
  | Some l => ret l
  | None => raise TypeError
  end.

Definition set_url (v : option string) (i : Issue) : Issue :=
  {| key := key i; env := env i; url := v; json := json i;
     severity := severity i; type := type i; status := status i;
     rule := rule i; project := project i; changelog := changelog i;
     comments := comments i; line := line i; component := component i;
     message := message i; debt := debt i; creation_date := creation_date i;
     modification_date := modification_date i; hash := hash i |}.

Definition set_changelog (v : option (list entry)) (i : Issue) : Issue :=
  {| key := key i; env := env i; url := url i; json := json i;
     severity := severity i; type := type i; status := status i;
     rule := rule i; project := project i; changelog := v;
     comments := comments i; line := line i; component := component i;
     message := message i; debt := debt i; creation_date := creation_date i;
     modification_date := modification_date i; hash := hash i |}.

Definition set_comments (v : option (list entry)) (i : Issue) : Issue :=
  {| key := key i; env := env i; url := url i; json := json i;
     severity := severity i; type := type i; status := status i;
     rule := rule i; project := project i; changelog := changelog i;
     comments := v; line := line i; component := component i;
     message := message i; debt := debt i; creation_date := creation_date i;
     modification_date := modification_date i; hash := hash i |}.

(** [self.changelog.append(e)]; [None] has no [append]. *)
Definition changelog_append (self : loc) (e : entry) : M unit :=
  i <- deref self;
  match changelog i with
  | Some cl => store self (set_changelog (Some (cl ++ [e])) i)
  | None => raise (AttributeError "append")
  end.

(** [self.comments.append(e)] *)
Definition comments_append (self : loc) (e : entry) : M unit :=
  i <- deref self;
  match comments i with
  | Some cm => store self (set_comments (Some (cm ++ [e])) i)
  | None => raise (AttributeError "append")
  end.

(** What [get_all_events] returns: the list of events, or the dictionary
    of events by date. *)
Inductive timeline :=
| Events (l : list entry)
| ByDate (d : gmap string entry).

(** [bydate = {}; for e in events: bydate[e['date']] = e] *)
Definition by_date (events : list entry) : gmap string entry :=
  foldl (λ (bydate : gmap string entry) e, <[date e := e]> bydate) ∅ events.

(** [not events] *)
Definition timeline_empty (t : timeline) : bool :=
  match t with
  | Events l => bool_decide (l = [])
  | ByDate d => bool_decide (d = ∅)
  end.

(** Python 3 dictionaries and lists have no [iterkeys] method (it went
    away with Python 2): looking the attribute up raises. *)
Definition timeline_iterkeys (t : timeline) : outcome (list string) :=
  Raise (AttributeError "iterkeys").

(** [sorted(keys)], by the order of Python on strings. *)
Definition sorted (keys : list string) : list string := merge_sort String.le keys.

(** [events[d]] *)
Definition timeline_get (t : timeline) (d : string) : outcome entry :=
  match t with
  | ByDate m =>
      match m !! d with
      | Some e => Ok e
      | None => Raise (KeyError d)
      end
  | Events _ => Raise TypeError
  end.

(** [s.replace(a, b)] for one-character [a] and [b] *)
Fixpoint replace_char (a b : ascii) (s : string) : string :=
  match s with
  | EmptyString => EmptyString
  | String c rest =>
      String (if Ascii.eqb c a then b else c) (replace_char a b rest)
  end.

(** ** Event predicates *)

Definition is_event_a_comment (e : entry) : bool := (event e =? "comment")%string.

Definition is_event_an_assignment (e : entry) : bool := (event e =? "assign")%string.

Definition is_event_a_resolve_as_fp (e : entry) : bool :=
  (event e =? "transition")%string && bool_decide (value e = Some "falsepositive").

Definition is_event_a_resolve_as_wf (e : entry) : bool :=
  (event e =? "transition")%string && bool_decide (value e = Some "wontfix").

Definition is_event_a_resolve_as_reviewed (e : entry) : bool := false.

Definition is_event_a_severity_change (e : entry) : bool := (event e =? "severity")%string.

Definition is_event_a_reopen (e : entry) : bool :=
  (event e =? "transition")%string && bool_decide (value e = Some "reopen").

Definition is_event_a_type_change (e : entry) : bool := (event e =? "type")%string.

Definition is_event_a_tag_change (e : entry) : bool := (event e =? "tags")%string.

Definition get_log_new_severity (e : entry) : option string := value e.

Definition get_log_new_type (e : entry) : option string := value e.

(** ** Issue methods, sibling search and changelog replication *)

Section Engine.

(** The answer of the server to [issues/changelog] for an issue key (the
    ['changelog'] member of the JSON answer); it may depend on the
    state-changing calls the server has received. *)
Variable changelog_api : list request → string → list raw_log.

(** [self.get('issues/changelog', {'issue': self.key, ..})] *)
Definition fetch_changelog (k : string) : M (list raw_log) := λ w,
  (Ok (changelog_api (posts w) k), w).

Definition Issue_get_url (self : loc) : M string :=
  i <- deref self;
  match url i with
  | None =>
      let u := env i +:+ "/project/issues?id=" +:+ component i +:+ "&issues=" +:+ key i in
      _ <- store self (set_url (Some u) i);
      ret u
  | Some u => ret u
  end.

(** The cache [self.changelog] is reset to the empty list before the
    records are normalised one by one and appended to it. The method
    returns the attribute itself: callers hold the cached list. *)
Definition Issue_get_changelog (self : loc) (force_api : bool) : M (option (list entry)) :=
  i <- deref self;
  _ <- (if force_api || bool_decide (changelog i = None)
        then
          data <- fetch_changelog (key i);
          _ <- store self (set_changelog (Some []) i);
          for_each data (λ l,
            d <- lift (diff_to_changelog (diffs l));
            changelog_append self
              {| date := creationDate l; event := ev_event d; value := ev_value d |})
        else ret tt);
  i <- deref self;
  ret (changelog i).

(** Both the logging call and the [return] evaluate [self.get_changelog()]. *)
Definition Issue_has_changelog (self : loc) : M bool :=
  cl <- Issue_get_changelog self false;
  _ <- as_list cl;
  cl <- Issue_get_changelog self false;
  l <- as_list cl;
  ret (bool_decide (0 < length l)%nat).

(** ['comments' not in self.json] is a [TypeError] when [self.json] is
    [None]. *)
Definition Issue_get_comments (self : loc) : M (option (list entry)) :=
  i <- deref self;
  _ <- match json i with
       | None => raise TypeError
       | Some record =>
           match json_comments record with
           | None => store self (set_comments (Some []) i)
           | Some cs =>
               if bool_decide (comments i = None)
               then
                 _ <- store self (set_comments (Some []) i);
                 for_each cs (λ c,
                   comments_append self
                     {| date := createdAt c; event := "comment";
                        value := Some (markdown c) |})
               else ret tt
           end
       end;
  i <- deref self;
  ret (comments i).

(** [events] is the cached changelog list itself, so each
    [events.append(c)] appends to [self.changelog]. *)
Definition Issue_get_all_events (self : loc) (is_sorted : bool) : M timeline :=
  events <- Issue_get_changelog self false;
  _ <- as_list events;
  comments <- Issue_get_comments self;
  comments <- as_list comments;
  _ <- for_each comments (λ c, changelog_append self c);
  i <- deref self;
  events <- as_list (changelog i);
  if negb is_sorted then ret (Events events)
  else ret (ByDate (by_date events)).

Definition Issue_has_comments (self : loc) : M bool :=
  comments <- Issue_get_comments self;
  l <- as_list comments;
  ret (bool_decide (0 < length l)%nat).

Definition Issue_has_changelog_or_comments (self : loc) : M bool :=
  hc <- Issue_has_changelog self;
  if hc then ret true else Issue_has_comments self.

Definition Issue_add_comment (self : loc) (comment : option string) : M unit :=
  i <- deref self;
  post "issues/add_comment" [("issue", Some (key i)); ("text", comment)].

Definition Issue_set_severity (self : loc) (sev : option string) : M unit :=
  i <- deref self;
  post "issues/set_severity" [("issue", Some (key i)); ("severity", sev)].

Definition Issue_assign (self : loc) (assignee : option string) : M unit :=
  i <- deref self;
  post "issues/assign" [("issue", Some (key i)); ("assignee", assignee)].

Definition Issue_set_tags (self : loc) (tags : option string) : M unit :=
  i <- deref self;
  post "issues/set_tags" [("issue", Some (key i)); ("tags", tags)].

Definition Issue_set_type (self : loc) (new_type : option string) : M unit :=
  i <- deref self;
  post "issues/set_type" [("issue", Some (key i)); ("type", new_type)].

Definition Issue_do_transition (self : loc) (transition : string) : M unit :=
  i <- deref self;
  post "issues/do_transition" [("issue", Some (key i)); ("transition", Some transition)].

Definition Issue_reopen (self : loc) : M unit := Issue_do_transition self "reopen".

Definition Issue_mark_as_false_positive (self : loc) : M unit :=
  Issue_do_transition self "falsepositive".

Definition Issue_mark_as_wont_fix (self : loc) : M unit :=
  Issue_do_transition self "wontfix".

Definition is_vulnerability (i : Issue) : bool := (type i =? "VULNERABILITY")%string.

Definition is_hotspot (i : Issue) : bool := (type i =? "SECURITY_HOTSPOT")%string.

Definition Issue_mark_as_reviewed (self : loc) : M unit :=
  i <- deref self;
  if is_hotspot i then Issue_do_transition self "resolveasreviewed"
  else if is_vulnerability i then
    _ <- Issue_do_transition self "wontfix";
    Issue_add_comment self
      (Some "Vulnerability marked as won't fix to replace hotspot 'reviewed' status")
  else ret tt.

Definition same_general_attributes (a b : Issue) : bool :=
  bool_decide (rule a = rule b) && bool_decide (hash a = hash b)
  && bool_decide (message a = message b).

(** The attribute tests of [identical_to], before the two [get_url]
    calls made for the log line. *)
Definition identical_to_check (a b : Issue) (ignore_component : bool) : bool :=
  if negb (same_general_attributes a b)
     || (bool_decide (component a ≠ component b) && negb ignore_component)
  then false
  else if negb (is_hotspot a) && negb (is_hotspot b) && bool_decide (debt a ≠ debt b)
  then false
  else true.

Definition Issue_identical_to (self another_issue : loc) (ignore_component : bool) : M bool :=
  a <- deref self;
  b <- deref another_issue;
  if identical_to_check a b ignore_component
  then
    _ <- Issue_get_url self;
    _ <- Issue_get_url another_issue;
    ret true
  else ret false.

(** The body of the loop of [search_siblings], on the list built so far. *)
Definition search_siblings_step (an_issue : loc) (only_new_issues check_component : bool)
    (siblings : list loc) (issue : loc) : M (list loc) :=
  ident <- Issue_identical_to issue an_issue (negb check_component);
  if negb ident then ret siblings
  else
    keep <- (if negb only_new_issues then ret true
             else if only_new_issues
                  then (hc <- Issue_has_changelog issue; ret (negb hc))
                  else ret false);
    if keep : bool
    then (_ <- Issue_get_url issue; ret (siblings ++ [issue]))
    else ret siblings.

Fixpoint search_siblings_loop (an_issue : loc) (only_new_issues check_component : bool)
    (siblings : list loc) (issue_list : list loc) : M (list loc) :=
  match issue_list with
  | [] => ret siblings
  | issue :: rest =>
      siblings <- search_siblings_step an_issue only_new_issues check_component siblings issue;
      search_siblings_loop an_issue only_new_issues check_component siblings rest
  end.

Definition search_siblings (an_issue : loc) (issue_list : list loc)
    (only_new_issues check_component : bool) : M (list loc) :=
  search_siblings_loop an_issue only_new_issues check_component [] issue_list.

(** The dispatch of one event of the timeline on the target. *)
Definition apply_event (target_issue : loc) (e : entry) : M unit :=
  if is_event_a_severity_change e then Issue_set_severity target_issue (get_log_new_severity e)
  else if is_event_a_type_change e then Issue_set_type target_issue (get_log_new_type e)
  else if is_event_a_reopen e then Issue_reopen target_issue
  else if is_event_a_resolve_as_fp e then Issue_mark_as_false_positive target_issue
  else if is_event_a_resolve_as_wf e then Issue_mark_as_wont_fix target_issue
  else if is_event_a_resolve_as_reviewed e then Issue_mark_as_reviewed target_issue
  else if is_event_an_assignment e then Issue_assign target_issue (value e)
  else if is_event_a_tag_change e then
    match value e with
    | Some v => Issue_set_tags target_issue (Some (replace_char " " "," v))
    | None => raise (AttributeError "replace")
    end
  else if is_event_a_comment e then Issue_add_comment target_issue (value e)
  else ret tt.

(** [for d in keys: event = events[d]; ...] *)
Definition replay (target_issue : loc) (events : timeline) (keys : list string) : M unit :=
  for_each keys (λ d,
    e <- lift (timeline_get events d);
    apply_event target_issue e).

Definition apply_changelog (target_issue source_issue : loc) : M unit :=
  hc <- Issue_has_changelog target_issue;
  if hc then ret tt
  else
    events <- Issue_get_all_events source_issue true;
    if timeline_empty events then ret tt
    else
      u <- Issue_get_url source_issue;
      _ <- Issue_add_comment target_issue
             (Some ("Synchronized from [this original issue](" +:+ u +:+ ")"));
      keys <- lift (timeline_iterkeys events);
      replay target_issue events (sorted keys).

End Engine.

(** ** Adaptive search windower *)

Definition MAX_ISSUE_SEARCH : Z := 10000.

(** [re.split(sep, s)] for a one-character separator. *)
Fixpoint re_split (sep : ascii) (s : string) : list string :=
  match s with
  | EmptyString => [EmptyString]
  | String c rest =>
      if Ascii.eqb c sep then EmptyString :: re_split sep rest
      else match re_split sep rest with
           | x :: xs => String c x :: xs
           | [] => [String c EmptyString]
           end
  end.

(** What one pass through the body of the inner loop of
    [search_project_issues] leaves: a thinner slice to retry with, or the
    issues gathered so far, the next window start and the keyword
    arguments. The natural number counts the searches made. *)
Inductive slice_step (Iss : Type) :=
| Retry (current_slice : Z) (kwargs : gmap string string) (clock : nat)
| Sliced (issues : list Iss) (window_start : Z) (kwargs : gmap string string) (clock : nat).
Arguments Retry {Iss}.
Arguments Sliced {Iss}.

Section Windower.

(** The issue objects built by [search]. *)
Context {Iss : Type}.

(** A [datetime] is counted in seconds, so that [timedelta(days=n)] is
    [n * 86400] and the [.days] of a difference is its floor quotient by
    86400. The functions below are the calls that leave the module:
    [util.format_date], [datetime.strptime] with the format of the
    server, and the searches, which are taken to return. The answer of
    [search_all_issues] may change from one call to the next: it depends
    on the number of searches made before. *)
Variable format_date : Z → string.
Variable strptime : string → outcome Z.
Variable get_oldest_issue : gmap string string → option string.
Variable get_newest_issue : gmap string string → option string.
Variable get_number_of_issues : gmap string string → Z.
Variable search_all_issues : nat → gmap string string → list Iss.

Definition seconds_per_day : Z := 86400.

(** [timedelta(days=n)] *)
Definition timedelta_days (n : Z) : Z := n * seconds_per_day.

(** [(a - b).days] *)
Definition days_between (a b : Z) : Z := (a - b) / seconds_per_day.

(** The inner loop of [search_project_daily_issues], over the types. *)
Fixpoint daily_types (types : list string) (kw : gmap string string)
    (issues : list Iss) (clock : nat) : gmap string string * list Iss * nat :=
  match types with
  | [] => (kw, issues, clock)
  | issue_type :: rest =>
      let kw := <["types" := issue_type]> kw in
      let issues := issues ++ search_all_issues clock kw in
      daily_types rest kw issues (S clock)
  end.

(** The outer loop of [search_project_daily_issues], over the severities. *)
Fixpoint daily_severities (severities types : list string) (kw : gmap string string)
    (issues : list Iss) (clock : nat) : gmap string string * list Iss * nat :=
  match severities with
  | [] => (kw, issues, clock)
  | severity :: rest =>
      let kw := <["severities" := severity]> kw in
      let '(kw, issues, clock) := daily_types types kw issues clock in
      daily_severities rest types kw issues clock
  end.

(** The default severities and types are Python sets, whose iteration
    order is not fixed by the language; they are taken here in the order
    in which they are written. Which searches are made, and how many,
    does not depend on that order; the order of the default searches
    does. *)
Definition search_project_daily_issues (key day : string) (kwargs : gmap string string)
    (clock : nat) : list Iss * nat :=
  let kw := kwargs in
  let kw := <["componentKeys" := key]> kw in
  let severities :=
    match kwargs !! "severities" with
    | None => ["INFO"; "MINOR"; "MAJOR"; "CRITICAL"; "BLOCKER"]
    | Some s => re_split "," s
    end in
  let types :=
    match kwargs !! "types" with
    | None => ["CODE_SMELL"; "VULNERABILITY"; "BUG"; "SECURITY_HOTSPOT"]
    | Some s => re_split "," s
    end in
  let kw := <["createdAfter" := day]> kw in
  let kw := <["createdBefore" := day]> kw in
  let '(_, issues, clock) := daily_severities severities types kw [] clock in
  (issues, clock).

(** The body of [while not sliced_enough]. *)
Definition slice_body (key : string) (kwargs : gmap string string) (issues : list Iss)
    (window_start current_slice : Z) (clock : nat) : slice_step Iss :=
  let window_size := timedelta_days current_slice in
  let kwargs := <["createdAfter" := format_date window_start]> kwargs in
  let window_stop := window_start + window_size in
  let kwargs := <["createdBefore" := format_date window_stop]> kwargs in
  let found_issues := search_all_issues clock kwargs in
  let clock := S clock in
  if Z.of_nat (length found_issues) <? MAX_ISSUE_SEARCH then
    Sliced (issues ++ found_issues) (window_stop + timedelta_days 1) kwargs clock
  else if current_slice =? 0 then
    let '(found_issues, clock) :=
      search_project_daily_issues key (format_date window_start) kwargs clock in
    Sliced (issues ++ found_issues) (window_stop + timedelta_days 1) kwargs clock
  else
    Retry (current_slice / 2) kwargs clock.

(** [while not sliced_enough: ...]; [None] when the fuel runs out. *)
Fixpoint slice_loop (fuel : nat) (key : string) (kwargs : gmap string string)
    (issues : list Iss) (window_start current_slice : Z) (clock : nat)
    : option (list Iss * Z * gmap string string * nat) :=
  match fuel with
  | O => None
  | S fuel =>
      match slice_body key kwargs issues window_start current_slice clock with
      | Sliced issues window_start kwargs clock => Some (issues, window_start, kwargs, clock)
      | Retry current_slice kwargs clock =>
          slice_loop fuel key kwargs issues window_start current_slice clock
      end
  end.

(** [while window_start <= enddate: ...]; [None] when the fuel runs out.
    The inner loop is given the fuel [inner]. *)
Fixpoint window_loop (fuel inner : nat) (key : string) (kwargs : gmap string string)
    (issues : list Iss) (window_start enddate days_slice : Z) (clock : nat)
    : option (list Iss * nat) :=
  match fuel with
  | O => None
  | S fuel =>
      if window_start <=? enddate then
        match slice_loop inner key kwargs issues window_start days_slice clock with
        | Some (issues, window_start, kwargs, clock) =>
            window_loop fuel inner key kwargs issues window_start enddate days_slice clock
        | None => None
        end
      else Some (issues, clock)
  end.

(** The width of the first window. *)
Definition initial_days_slice (startdate enddate nbr_issues : Z) : Z :=
  let days_slice := Z.abs (days_between enddate startdate) + 1 in
  if MAX_ISSUE_SEARCH <? nbr_issues
  then (MAX_ISSUE_SEARCH * days_slice) / (nbr_issues * 4)
  else days_slice.

(** [search_project_issues]; [None] when the fuel runs out, otherwise the
    outcome of the call and the number of searches made. [strptime] of
    the [None] answered by [get_newest_issue] is a [TypeError]. *)
Definition search_project_issues (fuel inner : nat) (key : string)
    (kwargs : gmap string string) (clock : nat) : option (outcome (list Iss) * nat) :=
  let kwargs := <["componentKeys" := key]> kwargs in
  match get_oldest_issue kwargs with
  | None => Some (Ok [], clock)
  | Some oldest =>
      match strptime oldest with
      | Raise e => Some (Raise e, clock)
      | Ok startdate =>
          match get_newest_issue kwargs with
          | None => Some (Raise TypeError, clock)
          | Some newest =>
              match strptime newest with
              | Raise e => Some (Raise e, clock)
              | Ok enddate =>
                  let nbr_issues := get_number_of_issues kwargs in
                  let days_slice := initial_days_slice startdate enddate nbr_issues in
                  match window_loop fuel inner key kwargs [] startdate enddate
                          days_slice clock with
                  | Some (issues, clock) => Some (Ok issues, clock)
                  | None => None
                  end
              end
          end
      end
  end.

End Windower.

(** An issue object that was fed: [self.json] is not [None]. *)
Definition fed (i : Issue) : Prop := is_Some (json i).

(** The list [get_comments] answers on an issue object that was fed: the
    cached list when there is one, otherwise the comments of the issue
    record turned into events (none when the record has no ['comments']
    member). On an object that was not fed [get_comments] raises, and
    the list is given empty. *)
Definition comment_events (i : Issue) : list entry :=
  match json i with
  | None => []
  | Some record =>
      match json_comments record with
      | None => []
      | Some cs =>
          match comments i with
          | Some cm => cm
          | None =>
              (λ c, {| date := createdAt c; event := "comment";
                       value := Some (markdown c) |})
                <$> cs
          end
      end
  end.

(** ** CSV projection *)

(** [\d] on the characters of a debt string. The server writes a debt
    with the ASCII digits, and these are the digits recognised here;
    the decimal digits of other scripts, which [\d] and [int] accept as
    well, are not. *)
Definition is_digit (c : ascii) : bool :=
  (48 <=? nat_of_ascii c)%nat && (nat_of_ascii c <=? 57)%nat.

(** A match of [(\d+)lit] at the start of [s]: the digits are taken
    greedily, one is given back at a time when what follows is not [lit].
    The result is group 1. *)
Fixpoint match_digits_then (lit s : string) : option string :=
  match s with
  | EmptyString => None
  | String c rest =>
      if is_digit c then
        match match_digits_then lit rest with
        | Some g => Some (String c g)
        | None => if String.prefix lit rest then Some (String c EmptyString) else None
        end
      else None
  end.

(** [re.search(r'(\d+)lit', s)]: the leftmost match; the result is group 1. *)
Fixpoint re_search_digits (lit s : string) : option string :=
  match match_digits_then lit s with
  | Some g => Some g
  | None =>
      match s with
      | EmptyString => None
      | String _ rest => re_search_digits lit rest
      end
  end.

Fixpoint int_of_digits (acc : Z) (s : string) : Z :=
  match s with
  | EmptyString => acc
  | String c rest => int_of_digits (10 * acc + (Z.of_nat (nat_of_ascii c) - 48)) rest
  end.

(** [int(m.group(1)) if m else 0] *)
Definition group_int (m : option string) : Z :=
  match m with
  | Some g => int_of_digits 0 g
  | None => 0
  end.

(** The debt in minutes computed at the head of [to_csv]. *)
Definition debt_minutes (debt : option string) : Z :=
  match debt with
  | None => 0
  | Some d =>
      let kdays := group_int (re_search_digits "kd" d) in
      let days := group_int (re_search_digits "d" d) in
      let hours := group_int (re_search_digits "h" d) in
      let minutes := group_int (re_search_digits "min" d) in
      ((kdays * 1000 + days) * 24 + hours) * 60 + minutes
  end.

Definition newline : ascii := ascii_of_nat 10.
Definition dquote : ascii := ascii_of_nat 34.

(** [sep.join(l)] *)
Fixpoint join (sep : string) (l : list string) : string :=
  match l with
  | [] => EmptyString
  | [x] => x
  | x :: rest => x +:+ sep +:+ join sep rest
  end.

(** The part of a line before the first [ch] (the whole line without [ch]). *)
Fixpoint before_first (ch : ascii) (s : string) : string :=
  match s with
  | EmptyString => EmptyString
  | String c rest => if Ascii.eqb c ch then EmptyString else String c (before_first ch rest)
  end.

(** The part of a line after the last [ch], if [ch] occurs. *)
Fixpoint after_last (ch : ascii) (s : string) : option string :=
  match s with
  | EmptyString => None
  | String c rest =>
      match after_last ch rest with
      | Some r => Some r
      | None => if Ascii.eqb c ch then Some rest else None
      end
  end.

(** [re.sub] of the pattern made of [ch] followed by [.*], by the empty
    string: [.] stops at a newline, so each line is cut at its first [ch]. *)
Definition re_sub_from (ch : ascii) (s : string) : string :=
  join (String newline EmptyString) (before_first ch <$> re_split newline s).

(** [re.sub] of the pattern made of [.*] followed by [ch], by the empty
    string: each line loses what comes up to its last [ch]. *)
Definition re_sub_upto (ch : ascii) (s : string) : string :=
  join (String newline EmptyString)
       ((λ l, default l (after_last ch l)) <$> re_split newline s).

(** [re.sub] of a double quote by two double quotes. *)
Fixpoint double_quotes (s : string) : string :=
  match s with
  | EmptyString => EmptyString
  | String c rest =>
      if Ascii.eqb c dquote then String dquote (String dquote (double_quotes rest))
      else String c (double_quotes rest)
  end.

(** [str(x)] for an attribute that may be [None]. *)
Definition str_opt (o : option string) : string := default "None" o.

(** The list that [to_csv] joins. [get_name] stands for
    [projects.get_name], which is outside the module; [re.sub] on a
    message that is [None] is a [TypeError]. *)
Definition to_csv_fields (get_name : string → string → string) (self : Issue)
    : outcome (list string) :=
  let debt := debt_minutes (debt self) in
  let cdate := re_sub_from "T" (creation_date self) in
  let ctime := re_sub_upto "T" (creation_date self) in
  let ctime := re_sub_from "+" ctime in
  let mdate := re_sub_from "T" (modification_date self) in
  let mtime := re_sub_upto "T" (modification_date self) in
  let mtime := re_sub_from "+" mtime in
  match message self with
  | None => Raise TypeError
  | Some message =>
      let msg := double_quotes message in
      let line := match line self with None => "-" | Some n => pretty n end in
      Ok [key self; rule self; type self; str_opt (severity self); status self;
          cdate; ctime; mdate; mtime; project self;
          get_name (project self) (env self); component self; line;
          pretty debt; String dquote msg +:+ String dquote EmptyString]
  end.

Definition Issue_to_csv (get_name : string → string → string) (self : Issue)
    : outcome string :=
  fields ← to_csv_fields get_name self;
  Ok (join ";" fields).

(** A debt string [<N>kd<N>d<N>h<N>min] in which each component may be
    missing. *)
Definition debt_part (digits : option string) (unit : string) : string :=
  match digits with
  | Some ds => ds +:+ unit
  | None => EmptyString
  end.

Definition debt_string (kd d h m : option string) : string :=
  debt_part kd "kd" +:+ debt_part d "d" +:+ debt_part h "h" +:+ debt_part m "min".

Fixpoint all_digits (s : string) : bool :=
  match s with
  | EmptyString => true
  | String c rest => is_digit c && all_digits rest
  end.

(** A component that is present is a non-empty string of digits. *)
Definition decimal_opt (o : option string) : Prop :=
  match o with
  | Some ds => ds ≠ EmptyString ∧ all_digits ds = true
  | None => True
  end.

(** ** Vocabulary of the properties *)

(** The score reached after three subtractions of 0.1 from 1 in binary64
    arithmetic; it is the successor of the double nearest to 0.7. *)
Definition score_three_mismatches : float := 0x1.6666666666667p-1%float.

(** [m] only leads from a world to worlds related to it by [R], whether
    it returns or raises. *)
Definition preserves (R : world → world → Prop) {A} (m : M A) : Prop :=
  ∀ w r w', m w = (r, w') → R w w'.

(** No state-changing call was sent between [w] and [w']. *)
Definition same_posts (w w' : world) : Prop := posts w' = posts w.

(** Only the issue object at [self] may differ between [w] and [w']. *)
Definition writes_only (self : loc) (w w' : world) : Prop :=
  ∀ l, l ≠ self → heap w' !! l = heap w !! l.

(** Every changelog cached in [w] is still cached, unchanged, in [w']. *)
Definition cache_kept (w w' : world) : Prop :=
  ∀ l i cl, heap w !! l = Some i → changelog i = Some cl →
            ∃ i', heap w' !! l = Some i' ∧ changelog i' = Some cl.

(** The issue object at [l] has an empty cached changelog. *)
Definition cached_empty (w : world) (l : loc) : Prop :=
  ∃ i, heap w !! l = Some i ∧ changelog i = Some [].

(** The issue objects of [w] are still in the store in [w']. *)
Definition dom_kept (w w' : world) : Prop :=
  ∀ l, is_Some (heap w !! l) → is_Some (heap w' !! l).

(** One record of the server turned into a timeline entry, as the loop
    of [get_changelog] does, and the whole answer of the server. *)
Definition normalise (l : raw_log) : outcome entry :=
  d ← diff_to_changelog (diffs l);
  Ok {| date := creationDate l; event := ev_event d; value := ev_value d |}.

Fixpoint normalise_all (data : list raw_log) : outcome (list entry) :=
  match data with
  | [] => Ok []
  | l :: rest =>
      e ← normalise l;
      es ← normalise_all rest;
      Ok (e :: es)
  end.

(** Every answer of the server can be normalised: no record makes
    [diff_to_changelog] raise. *)
Definition well_formed_server (srv : list request → string → list raw_log) : Prop :=
  ∀ ps k, ∃ es, normalise_all (srv ps k) = Ok es.

(** The requests [apply_event] sends for an event, on a target of key [k]. *)
Definition event_requests (k : string) (e : entry) : list request :=
  if is_event_a_severity_change e
  then [Post "issues/set_severity" [("issue", Some k); ("severity", value e)]]
  else if is_event_a_type_change e
  then [Post "issues/set_type" [("issue", Some k); ("type", value e)]]
  else if is_event_a_reopen e
  then [Post "issues/do_transition" [("issue", Some k); ("transition", Some "reopen")]]
  else if is_event_a_resolve_as_fp e
  then [Post "issues/do_transition" [("issue", Some k); ("transition", Some "falsepositive")]]
  else if is_event_a_resolve_as_wf e
  then [Post "issues/do_transition" [("issue", Some k); ("transition", Some "wontfix")]]
  else if is_event_an_assignment e
  then [Post "issues/assign" [("issue", Some k); ("assignee", value e)]]
  else if is_event_a_tag_change e
  then [Post "issues/set_tags" [("issue", Some k); ("tags", replace_char " " "," <$> value e)]]
  else if is_event_a_comment e
  then [Post "issues/add_comment" [("issue", Some k); ("text", value e)]]
  else [].

(** The requests the loop of [apply_changelog] sends when it goes through
    the dates [keys] of the timeline [m]. *)
Definition replay_requests (k : string) (m : gmap string entry) (keys : list string)
    : list request :=
  keys ≫= (λ d, match m !! d with
                | Some e => event_requests k e
                | None => []
                end).

(** ** Sample data *)

Definition mk_diff (l : list (string * string)) : diff := list_to_map l.

(** An assignment to john, and the removal of john as assignee (the
    server leaves ['newValue'] out when the new value is empty). *)
Definition diff_assign_john : diff := mk_diff [("key", "assignee"); ("newValue", "john")].
Definition diff_unassign_john : diff := mk_diff [("key", "assignee"); ("oldValue", "john")].

(** An assignment to a user whose login is the word [key]. *)
Definition diff_assign_key : diff := mk_diff [("key", "assignee"); ("newValue", "key")].

(** Diffs on fields the normaliser has no rule for: a file renamed, and
    a line number removed (no new value). *)
Definition diff_file_moved : diff :=
  mk_diff [("key", "file"); ("oldValue", "a.c"); ("newValue", "b.c")].
Definition diff_line_removed : diff := mk_diff [("key", "line"); ("oldValue", "12")].

(** A server on which issue [S] has one changelog record (a severity
    change), issue [U] has one record on a field without rule, issue [D]
    has two records of the same date, and every other issue has none. *)
Definition sample_server (_ : list request) (k : string) : list raw_log :=
  if (k =? "S")%string
  then [RawLog "2020-01-02T10:00:00+0000"
          [mk_diff [("key", "severity"); ("oldValue", "MINOR"); ("newValue", "MAJOR")]]]
  else if (k =? "U")%string
  then [RawLog "2020-03-01T08:00:00+0000" [diff_file_moved]]
  else if (k =? "D")%string
  then [RawLog "2020-04-01T12:00:00+0000"
          [mk_diff [("key", "severity"); ("oldValue", "MAJOR"); ("newValue", "CRITICAL")]];
        RawLog "2020-04-01T12:00:00+0000"
          [mk_diff [("key", "type"); ("oldValue", "BUG"); ("newValue", "VULNERABILITY")]]]
  else [].

(** Four issues with the same attributes: [S] and [U] have a changelog
    on the server, [T] has neither changelog nor comment, [C] has one
    comment and no changelog. *)
Definition issue_S : Issue := scenario_issue "S" "f1" "m" "10min".
Definition issue_U : Issue := scenario_issue "U" "f1" "m" "10min".
Definition issue_T : Issue := scenario_issue "T" "f1" "m" "10min".
Definition issue_C : Issue :=
  {| key := "C"; env := "http://sq"; url := None;
     json := Some (JsonRecord (Some [RawComment "2020-02-01T09:00:00+0000" "please fix"]));
     severity := Some "MAJOR"; type := "BUG"; status := "OPEN";
     rule := "S1234"; project := "p"; changelog := None; comments := None;
     line := Some 12; component := "f1"; message := Some "m";
     debt := Some "10min"; creation_date := "2020-01-01T00:00:00+0000";
     modification_date := "2020-01-01T00:00:00+0000"; hash := Some "abc" |}.

(** [D] has two changelog records and one comment, all of the same date. *)
Definition issue_D : Issue :=
  {| key := "D"; env := "http://sq"; url := None;
     json := Some (JsonRecord (Some [RawComment "2020-04-01T12:00:00+0000" "escalated"]));
     severity := Some "CRITICAL"; type := "VULNERABILITY"; status := "OPEN";
     rule := "S1234"; project := "p"; changelog := None; comments := None;
     line := Some 7; component := "f1"; message := Some "m";
     debt := Some "10min"; creation_date := "2020-01-01T00:00:00+0000";
     modification_date := "2020-04-01T12:00:00+0000"; hash := Some "abc" |}.

Definition loc_S : loc := 1%nat.
Definition loc_T : loc := 2%nat.
Definition loc_C : loc := 3%nat.
Definition loc_U : loc := 4%nat.
Definition loc_D : loc := 5%nat.

Definition sample_world : world :=
  {| heap := <[loc_S := issue_S]> (<[loc_T := issue_T]> (<[loc_C := issue_C]>
               (<[loc_U := issue_U]> (<[loc_D := issue_D]> ∅))));
     posts := [] |}.

(** The sample store after [get_all_events] has been called on [C]: the
    comment of [C] sits in its cached changelog. *)
Definition commented_world : world :=
  (Issue_get_all_events sample_server loc_C true sample_world).2.

(** A search server for the windower: a project whose issues were
    created between second 0 and the eighth day, and which answers a
    saturated page set (10000 issues) to the first two searches and one
    issue to every later search. *)
Definition sample_format_date (d : Z) : string := pretty d.

Definition sample_strptime (s : string) : outcome Z :=
  if (s =? "oldest")%string then Ok 0
  else if (s =? "newest")%string then Ok (8 * 86400)
  else Raise ValueError.

Definition sample_search (clock : nat) (_ : gmap string string) : list nat :=
  if (clock <? 2)%nat then replicate (Z.to_nat MAX_ISSUE_SEARCH) clock else [clock].



(** The issue of the CSV scenario: a debt of 1 kiloday, 2 days, 3 hours
    and 4 minutes, and no line number. *)
Definition issue_csv : Issue :=
  {| key := "K"; env := "http://sq"; url := None; json := Some (JsonRecord None);
     severity := Some "MAJOR"; type := "BUG"; status := "OPEN";
     rule := "S1234"; project := "p"; changelog := None; comments := None;
     line := None; component := "f1"; message := Some "say hi";
     debt := Some "1kd2d3h4min"; creation_date := "2020-01-01T10:20:30+0100";
     modification_date := "2020-02-03T04:05:06+0000"; hash := Some "abc" |}.

(** * Further parts of [sonarqube/issues.py] *)

(** ** Kinds of normalised events *)

(** The kinds of event the normaliser can answer. *)
Definition event_kinds : list string :=
  ["severity"; "type"; "tags"; "transition"; "fixed"; "unknown"; "assign";
   "unassign"; "merge"; "effort"].

(** The kinds that carry no value. *)
Definition valueless_kinds : list string := ["fixed"; "unknown"; "unassign"].

(** A diff that carries the three members the normaliser may read. *)
Definition complete_diff (d : diff) : Prop :=
  is_Some (d !! "key") ∧ is_Some (d !! "newValue") ∧ is_Some (d !! "oldValue").

(** ** Events that the replay passes over *)

(** The kinds of event for which [apply_event] has no branch. *)
Definition unreplayed_kinds : list string :=
  ["fixed"; "unassign"; "merge"; "effort"; "unknown"].

(** The transitions that [apply_event] replays. *)
Definition replayed_transitions : list (option string) :=
  [Some "reopen"; Some "falsepositive"; Some "wontfix"].

(** ** Marks of the changelog *)

(** [log['diffs']] on an element of the cached changelog: the elements
    are the dictionaries built by [get_changelog] and [get_comments],
    whose members are ['date'], ['event'] and ['value'] only. *)
Definition entry_diffs (log : entry) : outcome (list diff) :=
  Raise (KeyError "diffs").

(** [for status in statuses: if diff["newValue"] == status: return True] *)
Fixpoint status_among (d : diff) (statuses : list string) : outcome bool :=
  match statuses with
  | [] => Ok false
  | status :: rest =>
      newval ← dict_get d "newValue";
      if (newval =? status)%string then Ok true else status_among d rest
  end.

(** The loop over the diffs of one record; [true] stands for the
    [return True]. *)
Fixpoint marked_in_diffs (ds : list diff) (statuses : list string) : outcome bool :=
  match ds with
  | [] => Ok false
  | d :: rest =>
      k ← dict_get d "key";
      if negb (k =? "resolution")%string then marked_in_diffs rest statuses
      else
        found ← status_among d statuses;
        if found : bool then Ok true else marked_in_diffs rest statuses
  end.

(** The loop over the records of the changelog. *)
Fixpoint marked_in_logs (logs : list entry) (statuses : list string) : outcome bool :=
  match logs with
  | [] => Ok false
  | log :: rest =>
      ds ← entry_diffs log;
      found ← marked_in_diffs ds statuses;
      if found : bool then Ok true else marked_in_logs rest statuses
  end.

Section Marks.

Variable changelog_api : list request → string → list raw_log.

Definition Issue_has_been_marked_as_statuses (self : loc) (statuses : list string) : M bool :=
  cl <- Issue_get_changelog changelog_api self false;
  logs <- as_list cl;
  lift (marked_in_logs logs statuses).

Definition Issue_has_been_marked_as_wont_fix (self : loc) : M bool :=
  Issue_has_been_marked_as_statuses self ["WONTFIX"].

Definition Issue_has_been_marked_as_false_positive (self : loc) : M bool :=
  Issue_has_been_marked_as_statuses self ["FALSE-POSITIVE"].

Definition Issue_identical_to_except_comp (self another_issue : loc) : M bool :=
  Issue_identical_to self another_issue true.

End Marks.

(** ** Attributes and caches *)

(** An issue object without its caches (URL, changelog, comments): what
    the server said of the issue. *)
Definition attributes (i : Issue) : Issue :=
  set_url None (set_changelog None (set_comments None i)).

(** Between [w] and [w'] the store holds the same objects with the same
    attributes; only caches may differ. *)
Definition attrs_kept (w w' : world) : Prop :=
  ∀ l, attributes <$> heap w !! l = attributes <$> heap w' !! l.

(** The issue at [l] is identical to the issue at [an_issue], as
    [identical_to] tests it on the attributes. *)
Definition is_sibling (w : world) (an_issue : loc) (check_component : bool) (l : loc) : bool :=
  match heap w !! l, heap w !! an_issue with
  | Some i, Some t => identical_to_check i t (negb check_component)
  | _, _ => false
  end.

(** ** Timestamps of the CSV projection *)

(** None of the characters [chars] occurs in [s]. *)
Fixpoint free_of (chars : list ascii) (s : string) : bool :=
  match s with
  | EmptyString => true
  | String c rest => negb (existsb (Ascii.eqb c) chars) && free_of chars rest
  end.

(** An issue created west of Greenwich, whose modification date is a
    bare date. *)
Definition issue_csv_west : Issue :=
  {| key := "W"; env := "http://sq"; url := None; json := Some (JsonRecord None);
     severity := Some "MAJOR"; type := "BUG"; status := "OPEN";
     rule := "S1234"; project := "p"; changelog := None; comments := None;
     line := Some 7; component := "f1"; message := Some "say hi";
     debt := None; creation_date := "2020-01-01T10:20:30-0500";
     modification_date := "2020-02-03"; hash := Some "abc" |}.

(** ** Searches of a day *)

(** The keyword arguments of the searches of [search_project_daily_issues]
    before a severity and a type are chosen. *)
Definition daily_base (key day : string) (kwargs : gmap string string)
    : gmap string string :=
  <["createdBefore" := day]> (<["createdAfter" := day]> (<["componentKeys" := key]> kwargs)).

(** The search for one severity and one type. *)
Definition daily_query (base : gmap string string) (severity issue_type : string)
    : gmap string string :=
  <["types" := issue_type]> (<["severities" := severity]> base).

(** One search for each severity and each type, the types changing
    faster. *)
Definition daily_queries (base : gmap string string) (severities types : list string)
    : list (gmap string string) :=
  severity ← severities; daily_query base severity <$> types.

(** The issues found by a list of searches made one after the other from
    the time [clock]. *)
Fixpoint run_queries {Iss : Type} (search_all_issues : nat → gmap string string → list Iss)
    (queries : list (gmap string string)) (clock : nat) : list Iss :=
  match queries with
  | [] => []
  | q :: rest => search_all_issues clock q ++ run_queries search_all_issues rest (S clock)
  end.

(** ** Search parameters *)

(** A value of a keyword argument: [None], a string or an integer. *)
Inductive pyval :=
| VNone
| VStr (s : string)
| VInt (z : Z).

#[global] Instance pyval_eq_dec : EqDecision pyval.
Proof. solve_decision. Defined.

Definition OPTIONS_ISSUES_SEARCH : list string :=
  ["additionalFields"; "asc"; "assigned"; "assignees"; "authors"; "componentKeys";
   "createdAfter"; "createdAt"; "createdBefore"; "createdInLast"; "directories";
   "facetMode"; "facets"; "fileUuids";
   "issues"; "languages"; "onComponentOnly"; "p"; "ps"; "resolutions"; "resolved";
   "rules"; "s"; "severities"; "sinceLeakPeriod"; "statuses"; "tags"; "types"].

(** The body of the loop of [get_issues_search_params]. *)
Definition search_param_step (key : string) (v : pyval) (outparams : gmap string pyval)
    : gmap string pyval :=
  if negb (bool_decide (v = VNone)) && bool_decide (key ∈ OPTIONS_ISSUES_SEARCH)
  then <[key := v]> outparams
  else outparams.

(** The keys of a dictionary are distinct and each pass writes its own
    key, so the order of the passes does not matter; they are made in the
    order of the keys in the map. *)
Definition get_issues_search_params (params : gmap string pyval) : gmap string pyval :=
  map_fold search_param_step {["additionalFields" := VStr "comments"]} params.

(** ** Search *)

(** An issue record of [issues/search]: each member may be missing. *)
Record json_issue := JsonIssue {
  j_key : option string;
  j_type : option string;
  j_severity : option string;
  j_author : option string;
  j_status : option string;
  j_line : option Z;
  j_rule : option string;
  j_project : option string;
  j_creationDate : option string;
  j_updateDate : option string;
  j_component : option string;
  j_hash : option string;
  j_message : option string;
  j_debt : option string;
  j_comments : option (list raw_comment)
}.

(** The member ['paging'] of an answer of [issues/search]. *)
Record paging := Paging {
  paging_total : Z;
  paging_pageIndex : Z;
  paging_pageSize : Z
}.

(** An answer of [issues/search], with its members ['paging'] and
    ['issues']. *)
Record search_answer := SearchAnswer {
  answer_paging : paging;
  answer_issues : list json_issue
}.

(** The dictionary [dict(page=.., pages=.., total=.., issues=..)]. *)
Record search_result := SearchResult {
  res_page : Z;
  res_pages : Z;
  res_total : Z;
  res_issues : list Issue
}.

(** What a search can raise: a division by a page size of zero, or what
    the reading of an issue record raises. *)
Inductive search_exn :=
| ZeroDivisionError
| Raised (e : exn).

Inductive attempt (A : Type) :=
| Returns (a : A)
| Fails (e : search_exn).
Arguments Returns {A} a.
Arguments Fails {A} e.

(** [jsondata[k]] on an issue record. *)
Definition member {A} (k : string) (o : option A) : outcome A :=
  match o with
  | Some v => Ok v
  | None => Raise (KeyError k)
  end.

(** [Issue(key, sqenv)]: the constructor sets every attribute to [None].
    The attributes that the record [Issue] types as strings are written
    by every [__feed__] that returns, so the value they are given here is
    never read. *)
Definition Issue_init (key sqenv : string) : Issue :=
  {| key := key; env := sqenv; url := None; json := None;
     severity := None; type := EmptyString; status := EmptyString;
     rule := EmptyString; project := EmptyString; changelog := None;
     comments := None; line := None; component := EmptyString; message := None;
     debt := None; creation_date := EmptyString; modification_date := EmptyString;
     hash := None |}.

(** [self.__feed__(jsondata)]: the object as it is when [__feed__]
    returns. The key, the URL and the cached comments are not written;
    the severity is written unless the issue is a security hotspot. The
    members read into attributes that the record [Issue] does not carry
    (['key'] for [self.id], and ['author']) are still looked up. When
    [__feed__] raises, the object is left half written; [search] then
    drops it, and the model keeps the exception only. *)
Definition Issue___feed__ (self : Issue) (jsondata : json_issue) : outcome Issue :=
  _ ← member "key" (j_key jsondata);
  t ← member "type" (j_type jsondata);
  sev ← (if negb (t =? "SECURITY_HOTSPOT")%string
         then s ← member "severity" (j_severity jsondata); Ok (Some s)
         else Ok (severity self));
  _ ← member "author" (j_author jsondata);
  st ← member "status" (j_status jsondata);
  r ← member "rule" (j_rule jsondata);
  p ← member "project" (j_project jsondata);
  cd ← member "creationDate" (j_creationDate jsondata);
  ud ← member "updateDate" (j_updateDate jsondata);
  comp ← member "component" (j_component jsondata);
  Ok {| key := key self; env := env self; url := url self;
        json := Some (JsonRecord (j_comments jsondata));
        severity := sev; type := t; status := st; rule := r; project := p;
        changelog := None; comments := comments self; line := j_line jsondata;
        component := comp; message := j_message jsondata; debt := j_debt jsondata;
        creation_date := cd; modification_date := ud; hash := j_hash jsondata |}.

(** The body of the loop of [search]:
    [issue = Issue(key = json_issue['key'], sqenv = sqenv)] and
    [issue.__feed__(json_issue)]. *)
Definition search_issue (sqenv : string) (json_issue : json_issue) : outcome Issue :=
  k ← member "key" (j_key json_issue);
  Issue___feed__ (Issue_init k sqenv) json_issue.

(** The loop of [search] over the issue records. *)
Fixpoint feed_all (sqenv : string) (records : list json_issue) (all_issues : list Issue)
    : outcome (list Issue) :=
  match records with
  | [] => Ok all_issues
  | json_issue :: rest =>
      issue ← search_issue sqenv json_issue;
      feed_all sqenv rest (all_issues ++ [issue])
  end.

(** [a // b] on integers. *)
Definition floordiv (a b : Z) : attempt Z :=
  if b =? 0 then Fails ZeroDivisionError else Returns (a / b).

Section Search.

(** The server: the answer it gives to the parameters of a search may
    depend on the number of searches made before. *)
Variable issues_search : nat → gmap string pyval → search_answer.
Variable sqenv : string.

Definition search (clock : nat) (kwargs : gmap string pyval) : attempt search_result :=
  let params := get_issues_search_params kwargs in
  let data := issues_search clock params in
  let nbr_issues := paging_total (answer_paging data) in
  let page := paging_pageIndex (answer_paging data) in
  match floordiv (paging_total (answer_paging data) - 1)
                 (paging_pageSize (answer_paging data)) with
  | Fails e => Fails e
  | Returns q =>
      let nbr_pages := q + 1 in
      match feed_all sqenv (answer_issues data) [] with
      | Raise e => Fails (Raised e)
      | Ok all_issues =>
          Returns {| res_page := page; res_pages := nbr_pages; res_total := nbr_issues;
                     res_issues := all_issues |}
      end
  end.

(** The loop of [search_all_issues]; [None] when the fuel runs out,
    otherwise the outcome and the number of searches made. *)
Fixpoint search_all_issues_loop (fuel : nat) (kwargs : gmap string pyval)
    (page nbr_pages : Z) (issues : list Issue) (clock : nat)
    : option (attempt (list Issue) * nat) :=
  match fuel with
  | O => None
  | S fuel =>
      if (page <=? nbr_pages) && (page <=? 20) then
        let kwargs := <["p" := VInt page]> kwargs in
        match search clock kwargs with
        | Fails e => Some (Fails e, S clock)
        | Returns returned_data =>
            let issues := issues ++ res_issues returned_data in
            let page := res_page returned_data in
            let nbr_pages := res_pages returned_data in
            let page := page + 1 in
            let kwargs := <["p" := VInt page]> kwargs in
            search_all_issues_loop fuel kwargs page nbr_pages issues (S clock)
        end
      else Some (Returns issues, clock)
  end.

Definition search_all_issues (fuel : nat) (kwargs : gmap string pyval) (clock : nat)
    : option (attempt (list Issue) * nat) :=
  let kwargs := <["ps" := VInt 500]> kwargs in
  let page := 1 in
  let nbr_pages := 1 in
  let issues := [] in
  search_all_issues_loop fuel kwargs page nbr_pages issues clock.

End Search.

(** An issue record with the members that [__feed__] reads without a
    guard. *)
Definition loadable (j : json_issue) : bool :=
  bool_decide (is_Some (j_key j)) && bool_decide (is_Some (j_type j))
  && (bool_decide (j_type j = Some "SECURITY_HOTSPOT") || bool_decide (is_Some (j_severity j)))
  && bool_decide (is_Some (j_author j)) && bool_decide (is_Some (j_status j))
  && bool_decide (is_Some (j_rule j)) && bool_decide (is_Some (j_project j))
  && bool_decide (is_Some (j_creationDate j)) && bool_decide (is_Some (j_updateDate j))
  && bool_decide (is_Some (j_component j)).

(** The members whose absence makes [__feed__] raise. *)
Definition required_members : list string :=
  ["key"; "type"; "severity"; "author"; "status"; "rule"; "project"; "creationDate";
   "updateDate"; "component"].

Definition to_csv_header : string :=
  "# id;rule;type;severity;status;creation date;creation time;modification date;"
  +:+ "modification time;project key;project name;file;line;debt(min);message".

(** ** A sample project on the search server *)

Definition sample_record (k : string) : json_issue :=
  {| j_key := Some k; j_type := Some "BUG"; j_severity := Some "MAJOR";
     j_author := Some "ann"; j_status := Some "OPEN"; j_line := Some 3;
     j_rule := Some "S1"; j_project := Some "proj";
     j_creationDate := Some "2020-01-01T10:20:30+0100";
     j_updateDate := Some "2020-02-03T04:05:06+0000"; j_component := Some "f1";
     j_hash := Some "h"; j_message := Some "m"; j_debt := Some "5min";
     j_comments := None |}.

(** A hotspot record: no severity, and no message either. *)
Definition sample_hotspot : json_issue :=
  {| j_key := Some "H"; j_type := Some "SECURITY_HOTSPOT"; j_severity := None;
     j_author := Some "ann"; j_status := Some "TO_REVIEW"; j_line := None;
     j_rule := Some "S2"; j_project := Some "proj";
     j_creationDate := Some "2020-01-01T10:20:30+0100";
     j_updateDate := Some "2020-02-03T04:05:06+0000"; j_component := Some "f1";
     j_hash := None; j_message := None; j_debt := None; j_comments := None |}.

(** A record without author. *)
Definition sample_anonymous : json_issue :=
  {| j_key := Some "N"; j_type := Some "BUG"; j_severity := Some "MAJOR";
     j_author := None; j_status := Some "OPEN"; j_line := Some 3;
     j_rule := Some "S1"; j_project := Some "proj";
     j_creationDate := Some "2020-01-01T10:20:30+0100";
     j_updateDate := Some "2020-02-03T04:05:06+0000"; j_component := Some "f1";
     j_hash := Some "h"; j_message := Some "m"; j_debt := Some "5min";
     j_comments := None |}.

(** A server with a project of [total] issues, numbered from 1, which
    answers the page asked with the size asked (page 1 and size 100 when
    they are not given). *)
Definition sample_project (total : Z) (clock : nat) (params : gmap string pyval)
    : search_answer :=
  let p := match params !! "p" with Some (VInt p) => p | _ => 1 end in
  let ps := match params !! "ps" with Some (VInt n) => n | _ => 100 end in
  let first := (p - 1) * ps in
  let n := Z.max 0 (Z.min ps (total - first)) in
  {| answer_paging :=
       {| paging_total := total; paging_pageIndex := p; paging_pageSize := ps |};
     answer_issues :=
       (λ i, sample_record (pretty (first + 1 + Z.of_nat i))) <$> seq 0 (Z.to_nat n) |}.

(** A server that answers one page of the given records. *)
Definition sample_page (records : list json_issue) (clock : nat)
    (params : gmap string pyval) : search_answer :=
  {| answer_paging :=
       {| paging_total := Z.of_nat (length records); paging_pageIndex := 1;
          paging_pageSize := 100 |};
     answer_issues := records |}.

(** ** Predicates on the records of the changelog *)

(** [k in d and d[k] == v]: the member is read only when it is there. *)
Definition in_and_equal (k : string) (d : diff) (v : string) : bool :=
  dict_in k d && bool_decide (d !! k = Some v).

(** The loop of [is_log_a_closed_resolved_as]. *)
Fixpoint is_log_a_closed_resolved_as_loop (ds : list diff) (old_value : string)
    (cond1 cond2 : bool) : outcome bool :=
  match ds with
  | [] => Ok (cond1 && cond2)
  | diff :: rest =>
      k ← dict_get diff "key";
      let cond1 :=
        if (k =? "resolution")%string && in_and_equal "newValue" diff "FIXED"
           && in_and_equal "oldValue" diff old_value
        then true else cond1 in
      k ← dict_get diff "key";
      let cond2 :=
        if (k =? "status")%string && in_and_equal "newValue" diff "CLOSED"
           && in_and_equal "oldValue" diff "RESOLVED"
        then true else cond2 in
      is_log_a_closed_resolved_as_loop rest old_value cond1 cond2
  end.

Definition is_log_a_closed_resolved_as (log : raw_log) (old_value : string) : outcome bool :=
  is_log_a_closed_resolved_as_loop (diffs log) old_value false false.

Definition is_log_a_closed_wf (log : raw_log) : outcome bool :=
  is_log_a_closed_resolved_as log "WONTFIX".

Definition is_log_a_closed_fp (log : raw_log) : outcome bool :=
  is_log_a_closed_resolved_as log "FALSE-POSITIVE".

(** The loop of [is_log_a_resolve_as]. *)
Fixpoint is_log_a_resolve_as_loop (ds : list diff) (resolve_reason : string)
    (cond1 cond2 : bool) : outcome bool :=
  match ds with
  | [] => Ok (cond1 && cond2)
  | diff :: rest =>
      k ← dict_get diff "key";
      let cond1 :=
        if (k =? "resolution")%string && in_and_equal "newValue" diff resolve_reason
        then true else cond1 in
      k ← dict_get diff "key";
      let cond2 :=
        if (k =? "status")%string && in_and_equal "newValue" diff "RESOLVED"
        then true else cond2 in
      is_log_a_resolve_as_loop rest resolve_reason cond1 cond2
  end.

Definition is_log_a_resolve_as (log : raw_log) (resolve_reason : string) : outcome bool :=
  is_log_a_resolve_as_loop (diffs log) resolve_reason false false.

(** The loop of [is_log_a_reopen]. *)
Fixpoint is_log_a_reopen_loop (ds : list diff) (cond1 cond2 : bool) : outcome bool :=
  match ds with
  | [] => Ok (cond1 && cond2)
  | diff :: rest =>
      k ← dict_get diff "key";
      let cond1 := if (k =? "resolution")%string then true else cond1 in
      k ← dict_get diff "key";
      let cond2 :=
        if (k =? "status")%string && in_and_equal "newValue" diff "REOPENED"
        then true else cond2 in
      is_log_a_reopen_loop rest cond1 cond2
  end.

Definition is_log_a_reopen (log : raw_log) : outcome bool :=
  is_log_a_reopen_loop (diffs log) false false.

(** The loop of [is_log_a_reviewed]. *)
Fixpoint is_log_a_reviewed_loop (ds : list diff) (cond1 cond2 : bool) : outcome bool :=
  match ds with
  | [] => Ok (cond1 && cond2)
  | diff :: rest =>
      k ← dict_get diff "key";
      let cond1 :=
        if (k =? "resolution")%string && in_and_equal "newValue" diff "FIXED"
        then true else cond1 in
      k ← dict_get diff "key";
      let cond2 :=
        if (k =? "status")%string && in_and_equal "newValue" diff "REVIEWED"
        then true else cond2 in
      is_log_a_reviewed_loop rest cond1 cond2
  end.

Definition is_log_a_reviewed (log : raw_log) : outcome bool :=
  is_log_a_reviewed_loop (diffs log) false false.

(** A diff that sets [key] to [newval]; with [oldval] given, from that
    value. *)
Definition sets (k newval : string) (d : diff) : bool :=
  bool_decide (d !! "key" = Some k) && bool_decide (d !! "newValue" = Some newval).

Definition moves (k oldval newval : string) (d : diff) : bool :=
  sets k newval d && bool_decide (d !! "oldValue" = Some oldval).

(** Every diff has its member ['key']. *)
Definition keyed (ds : list diff) : bool :=
  forallb (λ d, bool_decide (is_Some (d !! "key"))) ds.

(** ** Comparison of two dictionaries on a list of keys *)

Fixpoint identical_attributes (o1 o2 : gmap string string) (key_list : list string)
    : outcome bool :=
  match key_list with
  | [] => Ok true
  | key :: rest =>
      a ← dict_get o1 key;
      b ← dict_get o2 key;
      if negb (a =? b)%string then Ok false else identical_attributes o1 o2 rest
  end.

(** A record closed as fixed after a false positive, the status diff
    first; and the same with a diff that has no key. *)
Definition log_closed_fp : raw_log :=
  {| creationDate := "2020-03-01T08:00:00+0000";
     diffs := [mk_diff [("key", "status"); ("oldValue", "RESOLVED"); ("newValue", "CLOSED")];
               mk_diff [("key", "line"); ("oldValue", "12")];
               mk_diff [("key", "resolution"); ("oldValue", "FALSE-POSITIVE");
                        ("newValue", "FIXED")]] |}.

Definition log_unkeyed : raw_log :=
  {| creationDate := "2020-03-01T08:00:00+0000";
     diffs := diffs log_closed_fp ++ [mk_diff [("newValue", "x")]] |}.

(** ** Comments indexed by date *)

(** [sorted_comments = dict(); for comment in comments:
    sorted_comments[comment['createdAt']] = ('comment', comment)] *)
Definition sort_comments (comments : list raw_comment) : gmap string (string * raw_comment) :=
  foldl (λ (sorted_comments : gmap string (string * raw_comment)) comment,
           <[createdAt comment := ("comment", comment)]> sorted_comments)
        ∅ comments.

(** [IssueComments(json_data).sort()] *)
Definition IssueComments_sort (json : list raw_comment) : gmap string (string * raw_comment) :=
  foldl (λ (sorted_comment : gmap string (string * raw_comment)) comment,
           <[createdAt comment := ("comment", comment)]> sorted_comment)
        ∅ json.

(** [IssueComments(json_data).size()] *)
Definition IssueComments_size (json : list raw_comment) : nat := length json.

(** ** An object that was not fed *)

Definition loc_N : loc := 6%nat.

(** A store with one issue object, built and not fed. *)
Definition unfed_world : world :=
  {| heap := {[loc_N := Issue_init "N" "http://sq"]}; posts := [] |}.

(** * Properties *)

(** ** Matching score *)


Lemma Issue_match_values (a b : Issue) :
  Issue_match a b = PInt 0 ∨ Issue_match a b = PInt 1
  ∨ Issue_match a b = PFloat 0.9 ∨ Issue_match a b = PFloat 0.8
  ∨ Issue_match a b = PFloat score_three_mismatches.
Proof.
  unfold Issue_match.
  destruct (bool_decide (rule a ≠ rule b) || bool_decide (hash a ≠ hash b));
    [by left|].
  destruct (bool_decide (component a ≠ component b)),
           (bool_decide (message a ≠ message b)),
           (bool_decide (debt a ≠ debt b)); vm_compute; tauto.
Qed.

(** C1, as the code has it: equal rule, hash, component, message and debt
    score 1; a different rule or a different hash scores 0 whatever the
    other fields; the score always lies in [0, 1]; with rule and hash equal
    and component, message and debt all different the score is
    1 - 0.1 - 0.1 - 0.1 evaluated in binary64, that is
    0.7000000000000001, which Python's [==] tells apart from 0.7. *)
Theorem Issue_match_score (a b : Issue) :
  (rule a = rule b → hash a = hash b → component a = component b →
   message a = message b → debt a = debt b →
   num_eqb (Issue_match a b) (PFloat 1) = true)
  ∧ (rule a ≠ rule b ∨ hash a ≠ hash b →
     num_eqb (Issue_match a b) (PFloat 0) = true)
  ∧ (num_leb (PInt 0) (Issue_match a b) = true
     ∧ num_leb (Issue_match a b) (PInt 1) = true)
  ∧ (rule a = rule b → hash a = hash b → component a ≠ component b →
     message a ≠ message b → debt a ≠ debt b →
     Issue_match a b = PFloat score_three_mismatches
     ∧ num_eqb (Issue_match a b) (PFloat 0.7) = false).
Proof.
  repeat split.
  - intros Hr Hh Hc Hm Hd. unfold Issue_match.
    rewrite !bool_decide_eq_false_2 by (intros ?; contradiction).
    reflexivity.
  - intros Hne. unfold Issue_match.
    destruct Hne as [Hne | Hne].
    + by rewrite (bool_decide_eq_true_2 _ Hne).
    + rewrite (bool_decide_eq_true_2 (hash a ≠ hash b) Hne).
      by rewrite orb_true_r.
  - destruct (Issue_match_values a b) as [-> | [-> | [-> | [-> | ->]]]];
      reflexivity.
  - destruct (Issue_match_values a b) as [-> | [-> | [-> | [-> | ->]]]];
      reflexivity.
  - unfold Issue_match.
    rewrite (bool_decide_eq_false_2 (rule a ≠ rule b)) by (intros ?; contradiction).
    rewrite (bool_decide_eq_false_2 (hash a ≠ hash b)) by (intros ?; contradiction).
    rewrite !bool_decide_eq_true_2 by assumption.
    reflexivity.
  - unfold Issue_match.
    rewrite (bool_decide_eq_false_2 (rule a ≠ rule b)) by (intros ?; contradiction).
    rewrite (bool_decide_eq_false_2 (hash a ≠ hash b)) by (intros ?; contradiction).
    rewrite !bool_decide_eq_true_2 by assumption.
    reflexivity.
Qed.

Lemma Issue_match_score_witness :
  Issue_match issue_A issue_B = PFloat score_three_mismatches
  ∧ num_eqb (Issue_match issue_A issue_B) (PFloat 0.7) = false.
Proof.
  apply (Issue_match_score issue_A issue_B); vm_compute; congruence.
Defined.

(** The scenario of the specification does not score 0.7. *)
Lemma Issue_match_scenario_not_07 :
  ¬ (rule issue_A = rule issue_B → hash issue_A = hash issue_B →
     component issue_A ≠ component issue_B →
     message issue_A ≠ message issue_B → debt issue_A ≠ debt issue_B →
     num_eqb (Issue_match issue_A issue_B) (PFloat 0.7) = true).
Proof.
  intros H.
  assert (Hf : num_eqb (Issue_match issue_A issue_B) (PFloat 0.7) = false)
    by (vm_compute; reflexivity).
  rewrite H in Hf; [discriminate | vm_compute; congruence ..].
Qed.

(** ** Diff normaliser *)

Lemma dict_get_Some (d : diff) k v : d !! k = Some v → dict_get d k = Ok v.
Proof. intros H. unfold dict_get. by rewrite H. Qed.

Lemma dict_get_None (d : diff) k : d !! k = None → dict_get d k = Raise (KeyError k).
Proof. intros H. unfold dict_get. by rewrite H. Qed.

(** A diff without ['newValue'] is rejected before any rule is tried. *)
Lemma get_event_from_diff_no_newValue (d : diff) k :
  d !! "key" = Some k → d !! "newValue" = None →
  get_event_from_diff d = Raise (KeyError "newValue").
Proof.
  intros Hk Hn. unfold get_event_from_diff.
  rewrite (dict_get_Some _ _ _ Hk). cbn.
  by rewrite (dict_get_None _ _ Hn).
Qed.

Lemma get_event_from_diff_assignee (d : diff) v :
  d !! "key" = Some "assignee" → d !! "newValue" = Some v →
  get_event_from_diff d =
    Ok (Some (if bool_decide (is_Some (d !! v))
              then DiffEvent "assign" (Some v) else DiffEvent "unassign" None)).
Proof.
  intros Hk Hn. unfold get_event_from_diff.
  rewrite (dict_get_Some _ _ _ Hk). cbn.
  rewrite (dict_get_Some _ _ _ Hn). cbn.
  unfold assignee_diff_to_changelog, dict_in.
  rewrite (dict_get_Some _ _ _ Hn). cbn.
  destruct (bool_decide (is_Some (d !! v))); reflexivity.
Qed.

(** C2, on the code: a diff set whose first diff has key "assignee" and
    a new value is normalised to an unassign event unless the new value
    happens to be the name of a member of the diff, and a first diff
    without new value makes the normaliser raise KeyError. *)
Theorem assignee_diff_normalised (d : diff) (rest : list diff) :
  d !! "key" = Some "assignee" →
  (∀ v, d !! "newValue" = Some v → d !! v = None →
        diff_to_changelog (d :: rest) = Ok (DiffEvent "unassign" None))
  ∧ (∀ v, d !! "newValue" = Some v → is_Some (d !! v) →
          diff_to_changelog (d :: rest) = Ok (DiffEvent "assign" (Some v)))
  ∧ (d !! "newValue" = None →
     diff_to_changelog (d :: rest) = Raise (KeyError "newValue")).
Proof.
  intros Hk. repeat split.
  - intros v Hn Hv. cbn [diff_to_changelog].
    rewrite (get_event_from_diff_assignee d v Hk Hn), Hv.
    rewrite bool_decide_eq_false_2; [reflexivity | by intros [? ?]].
  - intros v Hn Hv. cbn [diff_to_changelog].
    rewrite (get_event_from_diff_assignee d v Hk Hn).
    by rewrite bool_decide_eq_true_2.
  - intros Hn. cbn [diff_to_changelog].
    by rewrite (get_event_from_diff_no_newValue d _ Hk Hn).
Qed.

Lemma assignee_diff_normalised_witness :
  diff_to_changelog [diff_assign_john] = Ok (DiffEvent "unassign" None)
  ∧ diff_to_changelog [diff_assign_key] = Ok (DiffEvent "assign" (Some "key"))
  ∧ diff_to_changelog [diff_unassign_john] = Raise (KeyError "newValue").
Proof.
  split; [|split].
  - apply (assignee_diff_normalised diff_assign_john [] eq_refl) with (v := "john");
      reflexivity.
  - apply (assignee_diff_normalised diff_assign_key [] eq_refl) with (v := "key");
      [reflexivity | by eexists].
  - apply (assignee_diff_normalised diff_unassign_john [] eq_refl). reflexivity.
Defined.

Lemma get_event_from_diff_unrecognized (d : diff) k v :
  d !! "key" = Some k → d !! "newValue" = Some v → k ∉ recognized_keys →
  get_event_from_diff d = Ok None.
Proof.
  intros Hk Hn Hnot. unfold get_event_from_diff.
  rewrite (dict_get_Some _ _ _ Hk). cbn.
  rewrite (dict_get_Some _ _ _ Hn). cbn.
  repeat match goal with
  | |- context [String.eqb k ?s] =>
      destruct (String.eqb_spec k s) as [-> | _];
        [exfalso; apply Hnot; unfold recognized_keys; set_solver |]
  end.
  reflexivity.
Qed.

(** On diffs that all carry a key and a new value, a set without
    recognised key is normalised to the unknown event. *)
Lemma diff_to_changelog_unrecognized (ds : list diff) :
  no_recognized_key ds →
  Forall (λ d : diff, is_Some (d !! "key") ∧ is_Some (d !! "newValue")) ds →
  diff_to_changelog ds = Ok (DiffEvent "unknown" None).
Proof.
  intros Hno Hall. induction ds as [| d ds IH]; [reflexivity |].
  apply Forall_cons in Hno as [Hd Hno]. apply Forall_cons in Hall as [[[k Hk] [v Hv]] Hall].
  cbn [diff_to_changelog].
  rewrite (get_event_from_diff_unrecognized d k v Hk Hv (Hd k Hk)). cbn.
  by apply IH.
Qed.

(** ** Reasoning about computations *)

Lemma bind_Ok {A B} (m : M A) (f : A → M B) w a w1 :
  m w = (Ok a, w1) → bind m f w = f a w1.
Proof. intros H. unfold bind. by rewrite H. Qed.

Lemma bind_Raise {A B} (m : M A) (f : A → M B) w e w1 :
  m w = (Raise e, w1) → bind m f w = (Raise e, w1).
Proof. intros H. unfold bind. by rewrite H. Qed.

Lemma bind_Ok_inv {A B} (m : M A) (f : A → M B) w b w' :
  bind m f w = (Ok b, w') → ∃ a w1, m w = (Ok a, w1) ∧ f a w1 = (Ok b, w').
Proof.
  unfold bind. destruct (m w) as [[a | e] w1]; [eauto | discriminate].
Qed.

Lemma deref_Ok_inv l w i w' :
  deref l w = (Ok i, w') → w' = w ∧ heap w !! l = Some i.
Proof.
  unfold deref. destruct (heap w !! l); [| discriminate].
  intros [= -> ->]. done.
Qed.

Lemma deref_Some l w i : heap w !! l = Some i → deref l w = (Ok i, w).
Proof. intros H. unfold deref. by rewrite H. Qed.

Lemma as_list_Ok_inv {A} (o : option (list A)) w l w' :
  as_list o w = (Ok l, w') → w' = w ∧ o = Some l.
Proof. destruct o; cbn; [intros [= -> ->] | discriminate]; done. Qed.

(** *** Relations kept by every step of a computation *)

Section Frame.

Variable R : world → world → Prop.
Hypothesis R_refl : ∀ w, R w w.
Hypothesis R_trans : ∀ w1 w2 w3, R w1 w2 → R w2 w3 → R w1 w3.

Lemma preserves_ret {A} (a : A) : preserves R (ret a).
Proof using R_refl. intros w r w' [= _ <-]. apply R_refl. Qed.

Lemma preserves_raise {A} e : preserves R (@raise A e).
Proof using R_refl. intros w r w' [= _ <-]. apply R_refl. Qed.

Lemma preserves_lift {A} (o : outcome A) : preserves R (lift o).
Proof using R_refl. intros w r w' [= _ <-]. apply R_refl. Qed.

Lemma preserves_deref l : preserves R (deref l).
Proof using R_refl.
  intros w r w'. unfold deref.
  destruct (heap w !! l); intros [= _ <-]; apply R_refl.
Qed.

Lemma preserves_as_list {A} (o : option (list A)) : preserves R (as_list o).
Proof using R_refl. destruct o; [apply preserves_ret | apply preserves_raise]. Qed.

Lemma preserves_fetch srv k : preserves R (fetch_changelog srv k).
Proof using R_refl. intros w r w' [= _ <-]. apply R_refl. Qed.

Lemma preserves_bind {A B} (m : M A) (f : A → M B) :
  preserves R m → (∀ a, preserves R (f a)) → preserves R (bind m f).
Proof using R_trans.
  intros Hm Hf w r w'. unfold bind.
  destruct (m w) as [[a | e] w1] eqn:E.
  - intros H. eapply R_trans; [eapply Hm, E | eapply Hf, H].
  - intros [= _ <-]. eapply Hm, E.
Qed.

Lemma preserves_for_each {A} (l : list A) (body : A → M unit) :
  (∀ x, preserves R (body x)) → preserves R (for_each l body).
Proof using R_refl R_trans.
  intros Hb. induction l as [| x l IH]; cbn [for_each].
  - apply preserves_ret.
  - apply preserves_bind; [apply Hb | intros _; apply IH].
Qed.

End Frame.

(** Splits a computation into its steps; [tac] closes the steps that
    write to the world. *)
Ltac frame_with tac :=
  repeat first
    [ apply preserves_ret; solve [auto]
    | apply preserves_raise; solve [auto]
    | apply preserves_lift; solve [auto]
    | apply preserves_deref; solve [auto]
    | apply preserves_as_list; solve [auto]
    | apply preserves_fetch; solve [auto]
    | solve [tac]
    | apply preserves_for_each; [solve [auto] | solve [eauto] | intros ?]
    | apply preserves_bind; [solve [eauto] | | intros ?]
    | match goal with
      | |- preserves _ (if ?b then _ else _) => destruct b
      | |- preserves _ (match ?x with _ => _ end) => destruct x
      end ].

(** *** No state-changing call *)


Lemma same_posts_refl w : same_posts w w.
Proof. reflexivity. Qed.

Lemma same_posts_trans w1 w2 w3 : same_posts w1 w2 → same_posts w2 w3 → same_posts w1 w3.
Proof. unfold same_posts. congruence. Qed.

#[local] Hint Resolve same_posts_refl same_posts_trans : core.

Lemma store_same_posts l i : preserves same_posts (store l i).
Proof. intros w r w' [= _ <-]. reflexivity. Qed.

Ltac quiet := frame_with ltac:(apply store_same_posts).

Lemma changelog_append_same_posts self e : preserves same_posts (changelog_append self e).
Proof. unfold changelog_append. quiet. Qed.

Lemma comments_append_same_posts self e : preserves same_posts (comments_append self e).
Proof. unfold comments_append. quiet. Qed.

Lemma Issue_get_url_same_posts self : preserves same_posts (Issue_get_url self).
Proof. unfold Issue_get_url. quiet. Qed.

Lemma Issue_get_changelog_same_posts srv self force :
  preserves same_posts (Issue_get_changelog srv self force).
Proof.
  unfold Issue_get_changelog.
  frame_with ltac:(first [apply store_same_posts | apply changelog_append_same_posts]).
Qed.

Lemma Issue_has_changelog_same_posts srv self :
  preserves same_posts (Issue_has_changelog srv self).
Proof.
  unfold Issue_has_changelog.
  frame_with ltac:(apply Issue_get_changelog_same_posts).
Qed.

Lemma Issue_get_comments_same_posts self : preserves same_posts (Issue_get_comments self).
Proof.
  unfold Issue_get_comments.
  frame_with ltac:(first [apply store_same_posts | apply comments_append_same_posts]).
Qed.

Lemma Issue_get_all_events_same_posts srv self is_sorted :
  preserves same_posts (Issue_get_all_events srv self is_sorted).
Proof.
  unfold Issue_get_all_events.
  frame_with ltac:(first [apply Issue_get_changelog_same_posts
                         | apply Issue_get_comments_same_posts
                         | apply changelog_append_same_posts]).
Qed.

Lemma Issue_identical_to_same_posts self other ic :
  preserves same_posts (Issue_identical_to self other ic).
Proof.
  unfold Issue_identical_to. frame_with ltac:(apply Issue_get_url_same_posts).
Qed.

Lemma search_siblings_same_posts srv an_issue pool only_new cc :
  preserves same_posts (search_siblings srv an_issue pool only_new cc).
Proof.
  unfold search_siblings. generalize (@nil loc) as sibs.
  induction pool as [| issue pool IH]; intros sibs; cbn [search_siblings_loop].
  - quiet.
  - apply preserves_bind; [eauto | | intros ?; apply IH].
    unfold search_siblings_step.
    frame_with ltac:(first [apply Issue_identical_to_same_posts
                           | apply Issue_has_changelog_same_posts
                           | apply Issue_get_url_same_posts]).
Qed.

(** *** Writes confined to one issue object *)

Lemma writes_only_refl self w : writes_only self w w.
Proof. by intros l _. Qed.

Lemma writes_only_trans self w1 w2 w3 :
  writes_only self w1 w2 → writes_only self w2 w3 → writes_only self w1 w3.
Proof. intros H1 H2 l Hl. by rewrite H2, H1. Qed.

#[local] Hint Resolve writes_only_refl writes_only_trans : core.

Lemma store_writes_only self i : preserves (writes_only self) (store self i).
Proof. intros w r w' [= _ <-] l Hl. cbn. by rewrite lookup_insert_ne. Qed.

Lemma changelog_append_writes_only self e :
  preserves (writes_only self) (changelog_append self e).
Proof. unfold changelog_append. frame_with ltac:(apply store_writes_only). Qed.

Lemma Issue_get_changelog_writes_only srv self force :
  preserves (writes_only self) (Issue_get_changelog srv self force).
Proof.
  unfold Issue_get_changelog.
  frame_with ltac:(first [apply store_writes_only | apply changelog_append_writes_only]).
Qed.

(** *** The changelog cache *)

Lemma Issue_get_changelog_cached srv self w i cl :
  heap w !! self = Some i → changelog i = Some cl →
  Issue_get_changelog srv self false w = (Ok (Some cl), w).
Proof.
  intros Hi Hcl. unfold Issue_get_changelog.
  rewrite (bind_Ok _ _ _ _ _ (deref_Some _ _ _ Hi)).
  rewrite Hcl. cbn [orb]. rewrite bool_decide_eq_false_2 by discriminate.
  unfold ret at 1. unfold bind at 1.
  rewrite (bind_Ok _ _ _ _ _ (deref_Some _ _ _ Hi)).
  by rewrite Hcl.
Qed.

Lemma Issue_get_changelog_result srv self force w cl w' :
  Issue_get_changelog srv self force w = (Ok cl, w') →
  ∃ i, heap w' !! self = Some i ∧ changelog i = cl.
Proof.
  unfold Issue_get_changelog. intros H.
  apply bind_Ok_inv in H as (i0 & w1 & _ & H).
  apply bind_Ok_inv in H as (? & w2 & _ & H).
  apply bind_Ok_inv in H as (i & w3 & Hd & H).
  apply deref_Ok_inv in Hd as [-> Hi].
  injection H as <- <-. eauto.
Qed.

Lemma Issue_has_changelog_cached srv self w i cl :
  heap w !! self = Some i → changelog i = Some cl →
  Issue_has_changelog srv self w = (Ok (bool_decide (0 < length cl)%nat), w).
Proof.
  intros Hi Hcl. unfold Issue_has_changelog.
  rewrite (bind_Ok _ _ _ _ _ (Issue_get_changelog_cached srv _ _ _ _ Hi Hcl)).
  cbn [as_list]. unfold ret at 1. unfold bind at 1.
  rewrite (bind_Ok _ _ _ _ _ (Issue_get_changelog_cached srv _ _ _ _ Hi Hcl)).
  reflexivity.
Qed.

Lemma Issue_has_changelog_result srv self w b w' :
  Issue_has_changelog srv self w = (Ok b, w') →
  ∃ i cl, heap w' !! self = Some i ∧ changelog i = Some cl
          ∧ b = bool_decide (0 < length cl)%nat.
Proof.
  unfold Issue_has_changelog. intros H.
  apply bind_Ok_inv in H as (o1 & w1 & H1 & H).
  apply bind_Ok_inv in H as (l1 & w1' & Ha & H).
  apply as_list_Ok_inv in Ha as [-> ->].
  apply Issue_get_changelog_result in H1 as (i1 & Hi1 & Hc1).
  rewrite (bind_Ok _ _ _ _ _ (Issue_get_changelog_cached srv _ _ _ _ Hi1 Hc1)) in H.
  cbn in H. injection H as <- <-. eauto.
Qed.

(** Once [has_changelog] has answered, it answers the same again and
    leaves the world as it is. *)
Lemma Issue_has_changelog_again srv self w b w' :
  Issue_has_changelog srv self w = (Ok b, w') →
  Issue_has_changelog srv self w' = (Ok b, w').
Proof.
  intros H. apply Issue_has_changelog_result in H as (i & cl & Hi & Hcl & ->).
  by apply Issue_has_changelog_cached with (i := i).
Qed.

(** *** Cached changelogs are kept by the sibling search *)

Lemma cache_kept_refl w : cache_kept w w.
Proof. intros l i cl Hi Hcl. eauto. Qed.

Lemma cache_kept_trans w1 w2 w3 : cache_kept w1 w2 → cache_kept w2 w3 → cache_kept w1 w3.
Proof.
  intros H1 H2 l i cl Hi Hcl.
  destruct (H1 l i cl Hi Hcl) as (i' & Hi' & Hcl'). eauto.
Qed.

#[local] Hint Resolve cache_kept_refl cache_kept_trans : core.

Lemma Issue_get_url_cache_kept self : preserves cache_kept (Issue_get_url self).
Proof.
  intros w r w'. unfold Issue_get_url, bind, deref.
  destruct (heap w !! self) as [i |] eqn:Hi; [| intros [= _ <-]; auto].
  destruct (url i); cbn; intros [= _ <-]; [auto |].
  intros l j cl Hj Hcl. cbn.
  destruct (decide (l = self)) as [-> | Hne].
  - rewrite lookup_insert_eq. assert (j = i) as -> by congruence. eauto.
  - rewrite lookup_insert_ne by done. eauto.
Qed.

Lemma Issue_get_changelog_cache_kept srv self :
  preserves cache_kept (Issue_get_changelog srv self false).
Proof.
  intros w r w' H.
  destruct (heap w !! self) as [i |] eqn:Hi.
  - destruct (changelog i) as [cl0 |] eqn:Hcl0.
    + rewrite (Issue_get_changelog_cached srv _ _ _ _ Hi Hcl0) in H.
      injection H as _ <-. auto.
    + intros l j cl Hj Hcl.
      assert (l ≠ self) as Hne by (intros ->; congruence).
      rewrite (Issue_get_changelog_writes_only srv self false w r w' H l Hne). eauto.
  - unfold Issue_get_changelog, bind, deref in H. rewrite Hi in H.
    injection H as _ <-. auto.
Qed.

Lemma Issue_has_changelog_cache_kept srv self :
  preserves cache_kept (Issue_has_changelog srv self).
Proof.
  unfold Issue_has_changelog.
  frame_with ltac:(apply Issue_get_changelog_cache_kept).
Qed.

Lemma Issue_identical_to_cache_kept self other ic :
  preserves cache_kept (Issue_identical_to self other ic).
Proof.
  unfold Issue_identical_to. frame_with ltac:(apply Issue_get_url_cache_kept).
Qed.

Lemma search_siblings_step_cache_kept srv an_issue only_new cc sibs issue :
  preserves cache_kept (search_siblings_step srv an_issue only_new cc sibs issue).
Proof.
  unfold search_siblings_step.
  frame_with ltac:(first [apply Issue_identical_to_cache_kept
                         | apply Issue_has_changelog_cache_kept
                         | apply Issue_get_url_cache_kept]).
Qed.

(** ** Sibling search *)

Lemma cached_empty_kept w w' l : cache_kept w w' → cached_empty w l → cached_empty w' l.
Proof. intros Hk (i & Hi & Hcl). destruct (Hk l i [] Hi Hcl) as (i' & ? & ?). by exists i'. Qed.

Lemma search_siblings_step_result srv an_issue only_new cc sibs issue w res w' :
  search_siblings_step srv an_issue only_new cc sibs issue w = (Ok res, w') →
  res = sibs
  ∨ (res = sibs ++ [issue] ∧ (only_new = true → cached_empty w' issue)).
Proof.
  unfold search_siblings_step. intros H.
  apply bind_Ok_inv in H as (ident & w1 & _ & H).
  destruct ident; cbn [negb] in H; [| injection H as <- <-; by left].
  apply bind_Ok_inv in H as (keep & w2 & Hkeep & H).
  destruct keep; [| injection H as <- <-; by left].
  apply bind_Ok_inv in H as (u & w3 & Hurl & H).
  injection H as <- <-. right. split; [done |]. intros ->. cbn in Hkeep.
  apply bind_Ok_inv in Hkeep as (hc & w2' & Hhc & Hret).
  injection Hret as Hneg <-. destruct hc; [discriminate |].
  apply Issue_has_changelog_result in Hhc as (i & cl & Hi & Hcl & Hb).
  symmetry in Hb. apply bool_decide_eq_false in Hb.
  destruct cl as [| e cl]; [| cbn in Hb; lia].
  eapply cached_empty_kept; [eapply Issue_get_url_cache_kept, Hurl |].
  by exists i.
Qed.

Lemma search_siblings_loop_cache_kept srv an_issue only_new cc sibs pool :
  preserves cache_kept (search_siblings_loop srv an_issue only_new cc sibs pool).
Proof.
  revert sibs. induction pool as [| issue pool IH]; intros sibs; cbn [search_siblings_loop].
  - by apply preserves_ret.
  - apply preserves_bind; [eauto | apply search_siblings_step_cache_kept | intros ?; apply IH].
Qed.

Lemma search_siblings_loop_result srv an_issue only_new cc pool :
  ∀ sibs w res w',
    search_siblings_loop srv an_issue only_new cc sibs pool w = (Ok res, w') →
    ∃ extra, res = sibs ++ extra ∧ sublist extra pool
             ∧ (only_new = true → Forall (cached_empty w') extra).
Proof.
  induction pool as [| issue pool IH]; intros sibs w res w' H; cbn [search_siblings_loop] in H.
  - injection H as <- <-. exists []. rewrite app_nil_r. by repeat split.
  - apply bind_Ok_inv in H as (sibs1 & w1 & Hstep & Hloop).
    destruct (IH _ _ _ _ Hloop) as (extra & -> & Hsub & Hall).
    apply search_siblings_step_result in Hstep as [-> | [-> Hnew]].
    + exists extra. repeat split; [by apply sublist_cons | done].
    + exists (issue :: extra). rewrite <- app_assoc. repeat split.
      * by apply sublist_skip.
      * intros Ho. constructor; [| by apply Hall].
        eapply cached_empty_kept; [| by apply Hnew].
        eapply search_siblings_loop_cache_kept, Hloop.
Qed.

(** ** Changelog replication *)

(** *** Issue objects stay in the store *)

Lemma dom_kept_refl w : dom_kept w w.
Proof. by intros l. Qed.

Lemma dom_kept_trans w1 w2 w3 : dom_kept w1 w2 → dom_kept w2 w3 → dom_kept w1 w3.
Proof. intros H1 H2 l Hl. auto. Qed.

#[local] Hint Resolve dom_kept_refl dom_kept_trans : core.

Lemma store_dom_kept l i : preserves dom_kept (store l i).
Proof.
  intros w r w' [= _ <-] l' Hl'. cbn.
  rewrite lookup_insert_is_Some. destruct (decide (l = l')); auto.
Qed.

Lemma Issue_get_all_events_dom_kept srv self is_sorted :
  preserves dom_kept (Issue_get_all_events srv self is_sorted).
Proof.
  unfold Issue_get_all_events, Issue_get_changelog, Issue_get_comments,
    changelog_append, comments_append.
  frame_with ltac:(apply store_dom_kept).
Qed.

Lemma Issue_get_url_dom_kept self : preserves dom_kept (Issue_get_url self).
Proof. unfold Issue_get_url. frame_with ltac:(apply store_dom_kept). Qed.

Lemma Issue_get_all_events_result srv self is_sorted w t w' :
  Issue_get_all_events srv self is_sorted w = (Ok t, w') → is_Some (heap w' !! self).
Proof.
  unfold Issue_get_all_events. intros H.
  apply bind_Ok_inv in H as (? & ? & _ & H).
  apply bind_Ok_inv in H as (? & ? & _ & H).
  apply bind_Ok_inv in H as (? & ? & _ & H).
  apply bind_Ok_inv in H as (? & ? & _ & H).
  apply bind_Ok_inv in H as (? & ? & _ & H).
  apply bind_Ok_inv in H as (i & w1 & Hd & H).
  apply deref_Ok_inv in Hd as [-> Hi].
  apply bind_Ok_inv in H as (? & ? & Ha & H).
  apply as_list_Ok_inv in Ha as [-> _].
  destruct is_sorted; injection H as _ <-; eauto.
Qed.

Lemma Issue_get_url_Ok self w i :
  heap w !! self = Some i →
  ∃ u w', Issue_get_url self w = (Ok u, w').
Proof.
  intros Hi. unfold Issue_get_url.
  rewrite (bind_Ok _ _ _ _ _ (deref_Some _ _ _ Hi)).
  destruct (url i); cbn; eauto.
Qed.

(** After the guard and the timeline, the source has a URL and the target
    is still in the store. *)
Lemma apply_changelog_ready srv tgt src w w1 t w2 :
  Issue_has_changelog srv tgt w = (Ok false, w1) →
  Issue_get_all_events srv src true w1 = (Ok t, w2) →
  ∃ u w2' it, Issue_get_url src w2 = (Ok u, w2') ∧ heap w2' !! tgt = Some it.
Proof.
  intros Hhc Hev.
  destruct (Issue_has_changelog_result _ _ _ _ _ Hhc) as (i1 & cl & Hi1 & _).
  assert (is_Some (heap w2 !! tgt)) as Ht2
    by (eapply Issue_get_all_events_dom_kept; eauto).
  destruct (Issue_get_all_events_result _ _ _ _ _ _ Hev) as [isrc Hs2].
  destruct (Issue_get_url_Ok _ _ _ Hs2) as (u & w2' & Hurl).
  destruct (Issue_get_url_dom_kept _ _ _ _ Hurl tgt Ht2) as [it Hit].
  eauto.
Qed.

(** The run of [apply_changelog] on a target without changelog and a
    timeline that is not empty. *)
Lemma apply_changelog_run srv tgt src w w1 t w2 u w2' it :
  Issue_has_changelog srv tgt w = (Ok false, w1) →
  Issue_get_all_events srv src true w1 = (Ok t, w2) →
  timeline_empty t = false →
  Issue_get_url src w2 = (Ok u, w2') →
  heap w2' !! tgt = Some it →
  apply_changelog srv tgt src w =
    (Raise (AttributeError "iterkeys"),
     {| heap := heap w2';
        posts := posts w2' ++
          [Post "issues/add_comment"
             [("issue", Some (key it));
              ("text", Some ("Synchronized from [this original issue](" +:+ u +:+ ")"))]] |}).
Proof.
  intros Hhc Hev Hne Hurl Hit. unfold apply_changelog.
  rewrite (bind_Ok _ _ _ _ _ Hhc).
  rewrite (bind_Ok _ _ _ _ _ Hev). rewrite Hne.
  rewrite (bind_Ok _ _ _ _ _ Hurl).
  unfold Issue_add_comment.
  unfold bind at 1. unfold bind at 1.
  rewrite (deref_Some _ _ _ Hit). reflexivity.
Qed.

(** C4, as the code has it: when [has_changelog] answers true on the
    target, [apply_changelog] returns without raising and without any
    state-changing call, leaving the world as [has_changelog] left it;
    a second call on the same target, whatever the source, returns the
    same way and changes nothing. The guard is [has_changelog] alone:
    when it answers false the target is not refused, and with a source
    whose timeline is not empty the introductory comment is posted on
    the target. [has_changelog] answers from the cached changelog when
    there is one, true exactly when that list is not empty: the comments
    of a target count only when they sit in that list. *)
Theorem apply_changelog_refuses srv tgt src w w1 :
  (Issue_has_changelog srv tgt w = (Ok true, w1) →
   apply_changelog srv tgt src w = (Ok tt, w1)
   ∧ posts w1 = posts w
   ∧ ∀ src', apply_changelog srv tgt src' w1 = (Ok tt, w1))
  ∧ (Issue_has_changelog srv tgt w = (Ok false, w1) →
     ∀ t w2,
       Issue_get_all_events srv src true w1 = (Ok t, w2) →
       timeline_empty t = false →
       ∃ it u r w3,
         apply_changelog srv tgt src w = (r, w3)
         ∧ heap w3 !! tgt = Some it
         ∧ posts w3 = posts w ++
             [Post "issues/add_comment"
                [("issue", Some (key it));
                 ("text", Some ("Synchronized from [this original issue](" +:+ u +:+ ")"))]])
  ∧ (∀ it cl,
       heap w !! tgt = Some it → changelog it = Some cl →
       Issue_has_changelog srv tgt w = (Ok (bool_decide (0 < length cl)%nat), w)).
Proof.
  split; [| split].
  - intros H. split; [| split].
    + unfold apply_changelog. by rewrite (bind_Ok _ _ _ _ _ H).
    + eapply Issue_has_changelog_same_posts, H.
    + intros src'. unfold apply_changelog.
      by rewrite (bind_Ok _ _ _ _ _ (Issue_has_changelog_again _ _ _ _ _ H)).
  - intros Hhc t w2 Hev Hne.
    destruct (apply_changelog_ready _ _ _ _ _ _ _ Hhc Hev) as (u & w2' & it & Hurl & Hit).
    pose proof (Issue_has_changelog_same_posts _ _ _ _ _ Hhc) as Hp1.
    pose proof (Issue_get_all_events_same_posts _ _ _ _ _ _ Hev) as Hp2.
    pose proof (Issue_get_url_same_posts _ _ _ _ Hurl) as Hp3.
    exists it, u. do 2 eexists.
    split; [by apply (apply_changelog_run _ _ _ _ _ _ _ _ _ _ Hhc Hev Hne Hurl Hit) |].
    split; [exact Hit |].
    cbn. unfold same_posts in *. congruence.
  - intros it cl Hit Hcl. by apply Issue_has_changelog_cached with (i := it).
Qed.

(** The target [S] has a changelog and is refused, twice. The target
    [C], which has a comment and no changelog, is not refused when its
    objects are fresh; once [get_all_events] has run on it, the comment
    sits in its cached changelog and it is refused. *)
Lemma apply_changelog_refuses_witness :
  posts (apply_changelog sample_server loc_S loc_T sample_world).2 = []
  ∧ apply_changelog sample_server loc_S loc_C
      (apply_changelog sample_server loc_S loc_T sample_world).2
    = (Ok tt, (apply_changelog sample_server loc_S loc_T sample_world).2)
  ∧ (∃ it u r w3,
       apply_changelog sample_server loc_C loc_S sample_world = (r, w3)
       ∧ heap w3 !! loc_C = Some it
       ∧ posts w3 =
           [Post "issues/add_comment"
              [("issue", Some (key it));
               ("text", Some ("Synchronized from [this original issue](" +:+ u +:+ ")"))]])
  ∧ apply_changelog sample_server loc_C loc_S commented_world = (Ok tt, commented_world).
Proof.
  destruct (apply_changelog_refuses sample_server loc_S loc_T sample_world
              (Issue_has_changelog sample_server loc_S sample_world).2)
    as (Hrefused & _ & _).
  destruct (Hrefused eq_refl) as (H1 & H2 & H3).
  destruct (apply_changelog_refuses sample_server loc_C loc_S sample_world
              (Issue_has_changelog sample_server loc_C sample_world).2)
    as (_ & Hpassed & _).
  destruct (apply_changelog_refuses sample_server loc_C loc_S commented_world
              commented_world) as (Hrefused' & _ & Hcache).
  split; [| split; [| split]].
  - rewrite H1. exact H2.
  - rewrite H1. apply H3.
  - apply (Hpassed eq_refl _ _ eq_refl eq_refl).
  - apply Hrefused'. by rewrite (Hcache _ _ eq_refl eq_refl).
Defined.

(** The timeline of [C] is not empty (it has a comment), yet applying the
    changelog of [S] to [C] posts a comment on [C]. *)
Lemma apply_changelog_on_commented_target :
  ∃ t w1 r w2,
    Issue_get_all_events sample_server loc_C true sample_world = (Ok t, w1)
    ∧ timeline_empty t = false
    ∧ apply_changelog sample_server loc_C loc_S sample_world = (r, w2)
    ∧ posts w2 =
        [Post "issues/add_comment"
           [("issue", Some "C");
            ("text", Some "Synchronized from [this original issue](http://sq/project/issues?id=f1&issues=S)")]].
Proof.
  do 4 eexists. repeat split; vm_compute; reflexivity.
Qed.

(** C5, on the code: for a target on which [has_changelog] answers false
    and a source whose timeline is not empty, [apply_changelog] posts the
    introductory comment on the target, with the link to the source, and
    then raises AttributeError on [events.iterkeys()]: no event of the
    timeline is dispatched. *)
Theorem apply_changelog_stops_after_intro srv tgt src w w1 t w2 :
  Issue_has_changelog srv tgt w = (Ok false, w1) →
  Issue_get_all_events srv src true w1 = (Ok t, w2) →
  timeline_empty t = false →
  ∃ it u w3,
    apply_changelog srv tgt src w = (Raise (AttributeError "iterkeys"), w3)
    ∧ heap w3 !! tgt = Some it
    ∧ (Issue_get_url src w2).1 = Ok u
    ∧ posts w3 = posts w ++
        [Post "issues/add_comment"
           [("issue", Some (key it));
            ("text", Some ("Synchronized from [this original issue](" +:+ u +:+ ")"))]].
Proof.
  intros Hhc Hev Hne.
  destruct (apply_changelog_ready _ _ _ _ _ _ _ Hhc Hev) as (u & w2' & it & Hurl & Hit).
  pose proof (Issue_has_changelog_same_posts _ _ _ _ _ Hhc) as Hp1.
  pose proof (Issue_get_all_events_same_posts _ _ _ _ _ _ Hev) as Hp2.
  pose proof (Issue_get_url_same_posts _ _ _ _ Hurl) as Hp3.
  exists it, u. eexists. split; [| split; [| split]].
  - by apply (apply_changelog_run _ _ _ _ _ _ _ _ _ _ Hhc Hev Hne Hurl Hit).
  - exact Hit.
  - by rewrite Hurl.
  - cbn. unfold same_posts in *. congruence.
Qed.

Lemma apply_changelog_stops_after_intro_witness :
  ∃ it u w3,
    apply_changelog sample_server loc_T loc_S sample_world
      = (Raise (AttributeError "iterkeys"), w3)
    ∧ heap w3 !! loc_T = Some it
    ∧ u = "http://sq/project/issues?id=f1&issues=S"
    ∧ posts w3 =
        [Post "issues/add_comment"
           [("issue", Some (key it));
            ("text", Some ("Synchronized from [this original issue](" +:+ u +:+ ")"))]].
Proof.
  destruct (apply_changelog_stops_after_intro sample_server loc_T loc_S sample_world
              _ _ _ eq_refl eq_refl eq_refl) as (it & u & w3 & H1 & H2 & H3 & H4).
  exists it, u, w3. repeat split; try assumption.
  vm_compute in H3. congruence.
Defined.

(** An event the dispatch has no branch for is skipped: nothing is sent
    and nothing is raised. *)
Lemma apply_event_unknown tgt dt w :
  apply_event tgt (Entry dt "unknown" None) w = (Ok tt, w).
Proof. reflexivity. Qed.

(** C8, on the code: a diff set without recognised key is normalised to
    the unknown event with a null value when every diff carries a key and
    a new value, but the normaliser raises KeyError when its first diff
    has no new value; the dispatch of [apply_changelog] maps an unknown
    event to no operation, but it is never reached: on a target without
    changelog and a non-empty timeline [apply_changelog] raises
    AttributeError. *)
Theorem unrecognized_diffs_unknown srv (ds : list diff) :
  no_recognized_key ds →
  (Forall (λ d : diff, is_Some (d !! "key") ∧ is_Some (d !! "newValue")) ds →
   diff_to_changelog ds = Ok (DiffEvent "unknown" None))
  ∧ (∀ d rest k, ds = d :: rest → d !! "key" = Some k → d !! "newValue" = None →
       diff_to_changelog ds = Raise (KeyError "newValue"))
  ∧ (∀ tgt dt w, apply_event tgt (Entry dt "unknown" None) w = (Ok tt, w))
  ∧ (∀ tgt src w w1 t w2,
       Issue_has_changelog srv tgt w = (Ok false, w1) →
       Issue_get_all_events srv src true w1 = (Ok t, w2) →
       timeline_empty t = false →
       (apply_changelog srv tgt src w).1 = Raise (AttributeError "iterkeys")).
Proof.
  intros Hno. split; [| split; [| split]].
  - by apply diff_to_changelog_unrecognized.
  - intros d rest k -> Hk Hn. cbn [diff_to_changelog].
    by rewrite (get_event_from_diff_no_newValue d k Hk Hn).
  - intros tgt dt w. apply apply_event_unknown.
  - intros tgt src w w1 t w2 H1 H2 H3.
    destruct (apply_changelog_ready _ _ _ _ _ _ _ H1 H2) as (u & w2' & it & Hurl & Hit).
    by rewrite (apply_changelog_run _ _ _ _ _ _ _ _ _ _ H1 H2 H3 Hurl Hit).
Qed.

Lemma no_recognized_key_single (d : diff) k :
  d !! "key" = Some k → k ∉ recognized_keys → no_recognized_key [d].
Proof.
  intros Hk Hnot. constructor; [| constructor].
  intros k' Hk'. by assert (k' = k) as -> by congruence.
Qed.

Lemma file_line_not_recognized :
  ("file" ∉ recognized_keys) ∧ ("line" ∉ recognized_keys).
Proof.
  unfold recognized_keys. split; rewrite !elem_of_cons, elem_of_nil;
    intros H; repeat destruct H as [H | H]; try discriminate H; done.
Qed.

Lemma unrecognized_diffs_unknown_witness :
  diff_to_changelog [diff_file_moved] = Ok (DiffEvent "unknown" None)
  ∧ diff_to_changelog [diff_line_removed] = Raise (KeyError "newValue")
  ∧ (apply_changelog sample_server loc_T loc_U sample_world).1
    = Raise (AttributeError "iterkeys").
Proof.
  split; [| split].
  - apply (unrecognized_diffs_unknown sample_server [diff_file_moved]
             (no_recognized_key_single diff_file_moved "file" eq_refl
                (proj1 file_line_not_recognized))).
    repeat constructor; by eexists.
  - apply (unrecognized_diffs_unknown sample_server [diff_line_removed]
             (no_recognized_key_single diff_line_removed "line" eq_refl
                (proj2 file_line_not_recognized)))
      with (d := diff_line_removed) (rest := []) (k := "line"); reflexivity.
  - eapply (unrecognized_diffs_unknown sample_server [diff_file_moved]
             (no_recognized_key_single diff_file_moved "file" eq_refl
                (proj1 file_line_not_recognized))); vm_compute; reflexivity.
Defined.

(** ** Timeline *)

Lemma set_changelog_id i : set_changelog (changelog i) i = i.
Proof. by destruct i. Qed.

Lemma set_comments_id i : set_comments (comments i) i = i.
Proof. by destruct i. Qed.

Lemma world_eta w : {| heap := heap w; posts := posts w |} = w.
Proof. by destruct w. Qed.

Lemma changelog_append_exact self e w i cl :
  heap w !! self = Some i → changelog i = Some cl →
  changelog_append self e w =
    (Ok tt, {| heap := <[self := set_changelog (Some (cl ++ [e])) i]> (heap w);
               posts := posts w |}).
Proof.
  intros Hi Hcl. unfold changelog_append.
  rewrite (bind_Ok _ _ _ _ _ (deref_Some _ _ _ Hi)). by rewrite Hcl.
Qed.

Lemma comments_append_exact self e w i cm :
  heap w !! self = Some i → comments i = Some cm →
  comments_append self e w =
    (Ok tt, {| heap := <[self := set_comments (Some (cm ++ [e])) i]> (heap w);
               posts := posts w |}).
Proof.
  intros Hi Hcm. unfold comments_append.
  rewrite (bind_Ok _ _ _ _ _ (deref_Some _ _ _ Hi)). by rewrite Hcm.
Qed.

(** Appending the events of [more] one by one to the cached changelog. *)
Lemma for_each_changelog_append self more :
  ∀ w i cl,
    heap w !! self = Some i → changelog i = Some cl →
    for_each more (changelog_append self) w =
      (Ok tt, {| heap := <[self := set_changelog (Some (cl ++ more)) i]> (heap w);
                 posts := posts w |}).
Proof.
  induction more as [| e more IH]; intros w i cl Hi Hcl; cbn [for_each].
  - rewrite app_nil_r, <- Hcl, set_changelog_id, (insert_id _ _ _ Hi), world_eta.
    reflexivity.
  - rewrite (bind_Ok _ _ _ _ _ (changelog_append_exact self e w i cl Hi Hcl)).
    erewrite IH; [| cbn; apply lookup_insert_eq | reflexivity].
    cbn. rewrite insert_insert_eq, <- app_assoc. reflexivity.
Qed.

Lemma for_each_comments_append self (f : raw_comment → entry) cs :
  ∀ w i cm,
    heap w !! self = Some i → comments i = Some cm →
    for_each cs (λ c, comments_append self (f c)) w =
      (Ok tt, {| heap := <[self := set_comments (Some (cm ++ (f <$> cs))) i]> (heap w);
                 posts := posts w |}).
Proof.
  induction cs as [| c cs IH]; intros w i cm Hi Hcm; cbn [for_each].
  - cbn. rewrite app_nil_r, <- Hcm, set_comments_id, (insert_id _ _ _ Hi), world_eta.
    reflexivity.
  - rewrite (bind_Ok _ _ _ _ _ (comments_append_exact self (f c) w i cm Hi Hcm)).
    erewrite IH; [| cbn; apply lookup_insert_eq | reflexivity].
    cbn. rewrite insert_insert_eq, <- app_assoc. reflexivity.
Qed.

(** On an object that was built and not fed, [get_comments] raises
    TypeError and leaves everything as it was. *)
Lemma Issue_get_comments_unfed self w i :
  heap w !! self = Some i → json i = None →
  Issue_get_comments self w = (Raise TypeError, w).
Proof.
  intros Hi Hj. unfold Issue_get_comments.
  rewrite (bind_Ok _ _ _ _ _ (deref_Some _ _ _ Hi)). rewrite Hj. reflexivity.
Qed.

(** [get_comments] returns on fed objects only. *)
Lemma Issue_get_comments_fed self w i r w' :
  heap w !! self = Some i → Issue_get_comments self w = (Ok r, w') → fed i.
Proof.
  intros Hi H. destruct (json i) as [record |] eqn:Hj; [by eexists |].
  rewrite (Issue_get_comments_unfed self w i Hi Hj) in H. discriminate.
Qed.

(** [get_comments] never raises on a fed issue object of the store; it
    answers [comment_events] and caches it. *)
Lemma Issue_get_comments_exact self w i :
  heap w !! self = Some i → fed i →
  Issue_get_comments self w =
    (Ok (Some (comment_events i)),
     {| heap := <[self := set_comments (Some (comment_events i)) i]> (heap w);
        posts := posts w |}).
Proof.
  intros Hi [record Hrec]. unfold Issue_get_comments, comment_events.
  rewrite (bind_Ok _ _ _ _ _ (deref_Some _ _ _ Hi)). rewrite Hrec.
  destruct (json_comments record) as [cs |] eqn:Hj.
  - destruct (comments i) as [cm |] eqn:Hcm.
    + rewrite bool_decide_eq_false_2 by discriminate.
      unfold ret at 1. unfold bind at 1.
      rewrite (bind_Ok _ _ _ _ _ (deref_Some _ _ _ Hi)).
      rewrite Hcm. unfold ret.
      rewrite <- Hcm, set_comments_id, (insert_id _ _ _ Hi), world_eta. reflexivity.
    + rewrite bool_decide_eq_true_2 by reflexivity.
      unfold bind at 2. unfold store at 1.
      erewrite (bind_Ok _ _ _ tt); cycle 1.
      { erewrite for_each_comments_append;
          [reflexivity | cbn; apply lookup_insert_eq | reflexivity]. }
      cbn. rewrite insert_insert_eq.
      unfold bind, deref. cbn. rewrite lookup_insert_eq. reflexivity.
  - unfold bind, store, deref. cbn. rewrite lookup_insert_eq. reflexivity.
Qed.

(** [get_all_events], once the changelog has been obtained: the comment
    events are appended to the cached changelog, which is then returned
    as it is or keyed by date. *)
Lemma Issue_get_all_events_exact srv self is_sorted w cl w1 i1 :
  Issue_get_changelog srv self false w = (Ok (Some cl), w1) →
  heap w1 !! self = Some i1 → fed i1 →
  Issue_get_all_events srv self is_sorted w =
    (Ok (if is_sorted then ByDate (by_date (cl ++ comment_events i1))
         else Events (cl ++ comment_events i1)),
     {| heap := <[self := set_changelog (Some (cl ++ comment_events i1))
                            (set_comments (Some (comment_events i1)) i1)]> (heap w1);
        posts := posts w1 |}).
Proof.
  intros Hcl Hi1 Hfed.
  destruct (Issue_get_changelog_result _ _ _ _ _ _ Hcl) as (i1' & Hi1' & Hc1).
  assert (i1' = i1) as -> by congruence.
  unfold Issue_get_all_events.
  rewrite (bind_Ok _ _ _ _ _ Hcl). cbn [as_list]. unfold ret at 1. unfold bind at 1.
  rewrite (bind_Ok _ _ _ _ _ (Issue_get_comments_exact self w1 i1 Hi1 Hfed)).
  cbn [as_list]. unfold ret at 1. unfold bind at 1.
  erewrite (bind_Ok _ _ _ tt); cycle 1.
  { erewrite for_each_changelog_append;
      [reflexivity | cbn; apply lookup_insert_eq | exact Hc1]. }
  cbn [heap posts]. rewrite insert_insert_eq.
  unfold bind, deref. cbn [heap]. rewrite lookup_insert_eq. cbn.
  by destruct is_sorted.
Qed.

(** [get_all_events] returns only when the changelog has been obtained
    and the object was fed. *)
Lemma Issue_get_all_events_Ok_inv srv self is_sorted w t w' :
  Issue_get_all_events srv self is_sorted w = (Ok t, w') →
  ∃ cl w1 i1,
    Issue_get_changelog srv self false w = (Ok (Some cl), w1)
    ∧ heap w1 !! self = Some i1 ∧ fed i1.
Proof.
  unfold Issue_get_all_events. intros H.
  apply bind_Ok_inv in H as (o & w1 & Hg & H).
  apply bind_Ok_inv in H as (cl & w1' & Ha & H).
  apply as_list_Ok_inv in Ha as [-> ->].
  apply bind_Ok_inv in H as (cm & w2 & Hc & _).
  destruct (Issue_get_changelog_result _ _ _ _ _ _ Hg) as (i1 & Hi1 & _).
  exists cl, w1, i1. split; [done |]. split; [done |].
  by eapply Issue_get_comments_fed.
Qed.

(** *** Keying events by date *)

Lemma foldl_by_date_dom (events : list entry) :
  ∀ m : gmap string entry,
    dom (foldl (λ (bydate : gmap string entry) e, <[date e := e]> bydate) m events)
    = dom m ∪ list_to_set (date <$> events).
Proof.
  induction events as [| e events IH]; intros m; cbn.
  - set_solver.
  - rewrite IH, dom_insert_L. set_solver.
Qed.

Lemma by_date_dom events : dom (by_date events) = list_to_set (date <$> events).
Proof. unfold by_date. rewrite foldl_by_date_dom. set_solver. Qed.

Lemma size_list_to_set_le (l : list string) :
  (size (list_to_set l : gset string) ≤ length l)%nat.
Proof.
  induction l as [| x l IH]; cbn; [by rewrite size_empty |].
  destruct (decide (x ∈ l)) as [Hin | Hnin].
  - replace ({[x]} ∪ list_to_set l : gset string) with (list_to_set l : gset string)
      by set_solver.
    lia.
  - rewrite size_union by set_solver. rewrite size_singleton. lia.
Qed.

Lemma size_list_to_set_lt (l : list string) :
  ¬ NoDup l → (size (list_to_set l : gset string) < length l)%nat.
Proof.
  induction l as [| x l IH]; intros Hdup; [destruct Hdup; constructor |]. cbn.
  destruct (decide (x ∈ l)) as [Hin | Hnin].
  - replace ({[x]} ∪ list_to_set l : gset string) with (list_to_set l : gset string)
      by set_solver.
    pose proof (size_list_to_set_le l). lia.
  - rewrite size_union by set_solver. rewrite size_singleton.
    assert (¬ NoDup l) as Hl by (intros Hnd; apply Hdup; by constructor).
    specialize (IH Hl). lia.
Qed.

Lemma by_date_size_le events : (size (by_date events) ≤ length events)%nat.
Proof.
  rewrite <- size_dom, by_date_dom.
  etrans; [apply size_list_to_set_le |]. by rewrite length_fmap.
Qed.

Lemma by_date_size_lt events :
  ¬ NoDup (date <$> events) → (size (by_date events) < length events)%nat.
Proof.
  intros H. rewrite <- size_dom, by_date_dom.
  eapply Nat.lt_le_trans; [by apply size_list_to_set_lt |]. by rewrite length_fmap.
Qed.

Lemma same_date_not_NoDup (events : list entry) i j e1 e2 :
  (i < j)%nat → events !! i = Some e1 → events !! j = Some e2 → date e1 = date e2 →
  ¬ NoDup (date <$> events).
Proof.
  intros Hlt H1 H2 Hd Hnd.
  rewrite NoDup_alt in Hnd.
  assert (i = j); [| lia].
  apply (Hnd i j (date e1)); rewrite list_lookup_fmap.
  - by rewrite H1.
  - rewrite H2. cbn. by rewrite Hd.
Qed.

Lemma foldl_by_date_lookup (events : list entry) d :
  ∀ m : gmap string entry,
    foldl (λ (bydate : gmap string entry) e, <[date e := e]> bydate) m events !! d
    = match last (filter (λ e, date e = d) events) with
      | Some e => Some e
      | None => m !! d
      end.
Proof.
  induction events as [| e events IH]; intros m; cbn [foldl]; [reflexivity |].
  rewrite IH, filter_cons.
  destruct (decide (date e = d)) as [He | He].
  - rewrite last_cons.
    destruct (last (filter (λ e0, date e0 = d) events)); [reflexivity |].
    by rewrite He, lookup_insert_eq.
  - destruct (last (filter (λ e0, date e0 = d) events)); [reflexivity |].
    by rewrite lookup_insert_ne.
Qed.

(** The dictionary holds, for each date, the last event of that date. *)
Lemma by_date_lookup events d :
  by_date events !! d = last (filter (λ e, date e = d) events).
Proof.
  unfold by_date. rewrite foldl_by_date_lookup.
  by destruct (last (filter (λ e, date e = d) events)).
Qed.

(** C6: when the changelog and the comments of an issue have been
    obtained, [get_all_events(True)] returns the combined events keyed by
    date: each date is mapped to the last combined event of that date,
    and when two combined events have the same date the dictionary has
    strictly fewer entries than the combined list. *)
Theorem get_all_events_drops_same_date srv self w cl w1 cm w2 :
  Issue_get_changelog srv self false w = (Ok (Some cl), w1) →
  Issue_get_comments self w1 = (Ok (Some cm), w2) →
  ∃ bydate w3,
    Issue_get_all_events srv self true w = (Ok (ByDate bydate), w3)
    ∧ (∀ d, bydate !! d = last (filter (λ e, date e = d) (cl ++ cm)))
    ∧ (size bydate ≤ length (cl ++ cm))%nat
    ∧ ((∃ i j e1 e2, (i < j)%nat ∧ (cl ++ cm) !! i = Some e1
                     ∧ (cl ++ cm) !! j = Some e2 ∧ date e1 = date e2) →
       (size bydate < length (cl ++ cm))%nat).
Proof.
  intros Hcl Hcm.
  destruct (Issue_get_changelog_result _ _ _ _ _ _ Hcl) as (i1 & Hi1 & _).
  pose proof (Issue_get_comments_fed _ _ _ _ _ Hi1 Hcm) as Hfed.
  rewrite (Issue_get_comments_exact self w1 i1 Hi1 Hfed) in Hcm.
  injection Hcm as <- _.
  do 2 eexists.
  split; [apply (Issue_get_all_events_exact _ _ true _ _ _ _ Hcl Hi1 Hfed) |].
  split; [apply by_date_lookup |]. split; [apply by_date_size_le |].
  intros (i & j & e1 & e2 & Hlt & H1 & H2 & Hd).
  apply by_date_size_lt. by eapply same_date_not_NoDup.
Qed.

Lemma get_all_events_drops_same_date_witness :
  ∃ bydate w3,
    Issue_get_all_events sample_server loc_D true sample_world = (Ok (ByDate bydate), w3)
    ∧ size bydate = 1%nat
    ∧ (size bydate < 3)%nat.
Proof.
  destruct (get_all_events_drops_same_date sample_server loc_D sample_world
              _ _ _ _ eq_refl eq_refl) as (bydate & w3 & Hev & _ & _ & Hlt).
  exists bydate, w3. split; [exact Hev |]. split.
  - vm_compute in Hev. injection Hev as <- _. reflexivity.
  - apply Hlt. exists 0%nat, 1%nat. do 2 eexists.
    split; [lia |]. split; [reflexivity |]. split; reflexivity.
Defined.

(** C10: when the changelog of an issue has been obtained and its list
    of comment events is not empty, one call of [get_all_events] (sorted
    or not) leaves the comment events in the cached changelog, after
    which [has_changelog] answers true, even when the changelog proper is
    empty, and a second call [get_all_events(False)] returns the
    comment events twice. *)
Theorem get_all_events_pollutes_changelog srv self is_sorted w cl w1 cm w2 :
  Issue_get_changelog srv self false w = (Ok (Some cl), w1) →
  Issue_get_comments self w1 = (Ok (Some cm), w2) →
  cm ≠ [] →
  ∃ t w3,
    Issue_get_all_events srv self is_sorted w = (Ok t, w3)
    ∧ (∃ i3, heap w3 !! self = Some i3 ∧ changelog i3 = Some (cl ++ cm))
    ∧ Issue_has_changelog srv self w3 = (Ok true, w3)
    ∧ ∃ w4, Issue_get_all_events srv self false w3 = (Ok (Events (cl ++ cm ++ cm)), w4).
Proof.
  intros Hcl Hcm Hne.
  destruct (Issue_get_changelog_result _ _ _ _ _ _ Hcl) as (i1 & Hi1 & _).
  pose proof (Issue_get_comments_fed _ _ _ _ _ Hi1 Hcm) as Hfed.
  rewrite (Issue_get_comments_exact self w1 i1 Hi1 Hfed) in Hcm.
  injection Hcm as Hcm _.
  pose proof (Issue_get_all_events_exact _ _ is_sorted _ _ _ _ Hcl Hi1 Hfed) as Hev.
  rewrite Hcm in Hev.
  set (i3 := set_changelog (Some (cl ++ cm)) (set_comments (Some cm) i1)) in *.
  set (w3 := {| heap := <[self := i3]> (heap w1); posts := posts w1 |}) in *.
  assert (heap w3 !! self = Some i3) as Hi3 by apply lookup_insert_eq.
  assert (changelog i3 = Some (cl ++ cm)) as Hc3 by reflexivity.
  assert (comment_events i3 = cm) as Hcm3.
  { destruct Hfed as [record Hrec]. unfold comment_events in *. cbn.
    rewrite Hrec in *. destruct (json_comments record); [reflexivity | congruence]. }
  do 2 eexists. split; [exact Hev |]. split; [by exists i3 |]. split.
  - rewrite (Issue_has_changelog_cached srv self w3 i3 _ Hi3 Hc3).
    rewrite bool_decide_eq_true_2; [reflexivity |].
    rewrite length_app. destruct cm; [done | cbn; lia].
  - eexists.
    rewrite (Issue_get_all_events_exact srv self false w3 _ w3 i3
               (Issue_get_changelog_cached srv self w3 i3 _ Hi3 Hc3) Hi3 Hfed).
    rewrite Hcm3, <- app_assoc. reflexivity.
Qed.

Lemma get_all_events_pollutes_changelog_witness :
  ∃ t w3 w4,
    Issue_get_all_events sample_server loc_C true sample_world = (Ok t, w3)
    ∧ Issue_has_changelog sample_server loc_C sample_world
      = (Ok false, (Issue_has_changelog sample_server loc_C sample_world).2)
    ∧ Issue_has_changelog sample_server loc_C w3 = (Ok true, w3)
    ∧ Issue_get_all_events sample_server loc_C false w3
      = (Ok (Events [Entry "2020-02-01T09:00:00+0000" "comment" (Some "please fix");
                     Entry "2020-02-01T09:00:00+0000" "comment" (Some "please fix")]), w4).
Proof.
  destruct (get_all_events_pollutes_changelog sample_server loc_C true sample_world
              [] _ [Entry "2020-02-01T09:00:00+0000" "comment" (Some "please fix")] _
              eq_refl eq_refl ltac:(discriminate))
    as (t & w3 & Hev & _ & Hhc & w4 & Hev2).
  exists t, w3, w4. split; [exact Hev |]. split; [reflexivity |]. split; assumption.
Defined.

(** ** Adaptive search windower *)

Section WindowerFacts.

Context {Iss : Type}.
Variable format_date : Z → string.
Variable strptime : string → outcome Z.
Variable get_oldest_issue get_newest_issue : gmap string string → option string.
Variable get_number_of_issues : gmap string string → Z.
Variable search_all_issues : nat → gmap string string → list Iss.









(** *** The searches of a day *)

Lemma daily_types_run base severity types :
  ∀ kw issues clock,
    (∀ t, <["types" := t]> kw = daily_query base severity t) →
    ∃ kw',
      daily_types search_all_issues types kw issues clock
      = (kw', issues ++ run_queries search_all_issues (daily_query base severity <$> types) clock,
         (clock + length types)%nat)
      ∧ (∀ t, <["types" := t]> kw' = daily_query base severity t).
Proof.
  induction types as [| t types IH]; intros kw issues clock Hkw; cbn [daily_types].
  - exists kw. cbn. by rewrite app_nil_r, Nat.add_0_r.
  - destruct (IH (<["types" := t]> kw) (issues ++ search_all_issues clock (<["types" := t]> kw))
                (S clock)) as (kw' & Hrun & Hkw').
    { intros t'. by rewrite insert_insert_eq. }
    exists kw'. split; [| done].
    rewrite Hrun, Hkw. cbn [fmap list_fmap run_queries length].
    by rewrite <- app_assoc, Nat.add_succ_r.
Qed.

Lemma run_queries_app (qs qs' : list (gmap string string)) :
  ∀ clock,
    run_queries search_all_issues (qs ++ qs') clock
    = run_queries search_all_issues qs clock
      ++ run_queries search_all_issues qs' (clock + length qs)%nat.
Proof.
  induction qs as [| q qs IH]; intros clock; cbn.
  - by rewrite Nat.add_0_r.
  - rewrite <- app_assoc, IH. do 3 f_equal. lia.
Qed.

Lemma daily_query_severity base s s' t :
  <["severities" := s']> (daily_query base s t) = daily_query base s' t.
Proof.
  unfold daily_query.
  rewrite (insert_insert_ne _ "severities" "types") by done.
  by rewrite insert_insert_eq.
Qed.

Lemma daily_severities_run base types severities :
  ∀ kw issues clock,
    (∀ s t, <["types" := t]> (<["severities" := s]> kw) = daily_query base s t) →
    ∃ kw',
      daily_severities search_all_issues severities types kw issues clock
      = (kw', issues ++ run_queries search_all_issues (daily_queries base severities types) clock,
         (clock + length (daily_queries base severities types))%nat).
Proof.
  induction severities as [| s severities IH]; intros kw issues clock Hkw;
    cbn [daily_severities].
  - exists kw. cbn. by rewrite app_nil_r, Nat.add_0_r.
  - destruct (daily_types_run base s types (<["severities" := s]> kw) issues clock
                (Hkw s)) as (kw1 & Hrun & Hkw1).
    rewrite Hrun.
    destruct (IH kw1 (issues ++ run_queries search_all_issues (daily_query base s <$> types) clock)
                (clock + length types)%nat) as (kw' & Hrun').
    { intros s' t.
      rewrite (insert_insert_ne _ "types" "severities") by done.
      by rewrite Hkw1, daily_query_severity. }
    exists kw'. rewrite Hrun'. unfold daily_queries. cbn [mbind list_bind].
    rewrite run_queries_app, length_app, length_fmap, <- app_assoc.
    f_equal. lia.
Qed.

Lemma daily_queries_length base severities types :
  length (daily_queries base severities types) = (length severities * length types)%nat.
Proof.
  unfold daily_queries. induction severities as [| s severities IH]; [done |].
  cbn [mbind list_bind length]. rewrite length_app, length_fmap, IH. lia.
Qed.

Lemma search_project_daily_issues_run key day kwargs clock :
  let severities :=
    match kwargs !! "severities" with
    | None => ["INFO"; "MINOR"; "MAJOR"; "CRITICAL"; "BLOCKER"]
    | Some s => re_split "," s
    end in
  let types :=
    match kwargs !! "types" with
    | None => ["CODE_SMELL"; "VULNERABILITY"; "BUG"; "SECURITY_HOTSPOT"]
    | Some s => re_split "," s
    end in
  let queries := daily_queries (daily_base key day kwargs) severities types in
  search_project_daily_issues search_all_issues key day kwargs clock
  = (run_queries search_all_issues queries clock, (clock + length queries)%nat).
Proof.
  intros severities types queries. unfold search_project_daily_issues.
  fold severities types. fold (daily_base key day kwargs).
  destruct (daily_severities_run (daily_base key day kwargs) types severities
              (daily_base key day kwargs) [] clock) as (kw' & Hrun).
  { reflexivity. }
  rewrite Hrun. reflexivity.
Qed.

End WindowerFacts.



(** ** CSV projection *)

Lemma append_nil_l (s : string) : EmptyString +:+ s = s.
Proof. reflexivity. Qed.

Lemma append_cons (c : ascii) (a b : string) : String c a +:+ b = String c (a +:+ b).
Proof. reflexivity. Qed.

Lemma string_app_assoc (a b c : string) : (a +:+ b) +:+ c = a +:+ (b +:+ c).
Proof.
  induction a as [| x a IH]; [reflexivity |].
  rewrite !append_cons. by f_equal.
Qed.

Lemma prefix_head_differs (x : ascii) (lit : string) (c : ascii) (s : string) :
  x ≠ c → String.prefix (String x lit) (String c s) = false.
Proof. intros H. cbn. by destruct (ascii_dec x c). Qed.

(** On a run of digits followed by something that is not a digit, the
    pattern matches exactly when the literal follows the run, and the
    group is the whole run. *)
Lemma match_digits_then_run (x : ascii) (lit ds r : string) :
  is_digit x = false →
  ds ≠ EmptyString → all_digits ds = true →
  match r with EmptyString => True | String c _ => is_digit c = false end →
  match_digits_then (String x lit) (ds +:+ r)
  = if String.prefix (String x lit) r then Some ds else None.
Proof.
  intros Hx Hne Hds Hr. induction ds as [| c ds IH]; [done |].
  cbn [all_digits] in Hds. apply andb_prop in Hds as [Hc Hds].
  rewrite append_cons. cbn [match_digits_then]. rewrite Hc.
  destruct ds as [| c' ds].
  - rewrite append_nil_l.
    replace (match_digits_then (String x lit) r) with (@None string).
    + by destruct (String.prefix (String x lit) r).
    + destruct r as [| c0 r]; cbn; [reflexivity | by rewrite Hr].
  - rewrite IH by done.
    destruct (String.prefix (String x lit) r); [reflexivity |].
    cbn [all_digits] in Hds. apply andb_prop in Hds as [Hc' _].
    rewrite append_cons, prefix_head_differs; [reflexivity |].
    intros ->. congruence.
Qed.

(** The search finds the run that the literal follows. *)
Lemma re_search_digits_hit (x : ascii) (lit ds r : string) :
  is_digit x = false →
  ds ≠ EmptyString → all_digits ds = true →
  String.prefix (String x lit) r = true →
  re_search_digits (String x lit) (ds +:+ r) = Some ds.
Proof.
  intros Hx Hne Hds Hp.
  assert (match r with EmptyString => True | String c _ => is_digit c = false end) as Hr.
  { destruct r as [| c r]; [done |]. cbn in Hp.
    destruct (ascii_dec x c) as [<- |]; [done | discriminate]. }
  pose proof (match_digits_then_run x lit ds r Hx Hne Hds Hr) as Hm.
  rewrite Hp in Hm.
  destruct ds as [| c ds]; [done |].
  rewrite append_cons in *. cbn [re_search_digits]. by rewrite Hm.
Qed.

(** The search goes past a run of digits that the literal does not follow. *)
Lemma re_search_digits_skip_run (x : ascii) (lit ds r : string) :
  is_digit x = false →
  all_digits ds = true →
  match r with EmptyString => True | String c _ => is_digit c = false end →
  String.prefix (String x lit) r = false →
  re_search_digits (String x lit) (ds +:+ r) = re_search_digits (String x lit) r.
Proof.
  intros Hx Hds Hr Hp. induction ds as [| c ds IH]; [reflexivity |].
  pose proof (match_digits_then_run x lit (String c ds) r Hx ltac:(done) Hds Hr) as Hm.
  rewrite Hp in Hm. rewrite append_cons in *.
  cbn [re_search_digits]. rewrite Hm.
  cbn [all_digits] in Hds. apply andb_prop in Hds as [_ Hds]. by apply IH.
Qed.

(** The search goes past a character that is not a digit. *)
Lemma re_search_digits_skip_char (lit : string) (c : ascii) (r : string) :
  is_digit c = false →
  re_search_digits lit (String c r) = re_search_digits lit r.
Proof. intros Hc. cbn [re_search_digits match_digits_then]. by rewrite Hc. Qed.

Lemma re_search_digits_empty (lit : string) : re_search_digits lit EmptyString = None.
Proof. reflexivity. Qed.

Lemma prefix_nil (s : string) : String.prefix EmptyString s = true.
Proof. by destruct s. Qed.

(** Reads a debt string from left to right for one search. *)
Ltac read_debt :=
  repeat first
    [ rewrite re_search_digits_empty
    | rewrite re_search_digits_skip_char by reflexivity
    | rewrite re_search_digits_hit
        by first [assumption | reflexivity | cbn; apply prefix_nil]
    | rewrite re_search_digits_skip_run
        by first [assumption | reflexivity | exact I] ].

Lemma debt_string_searches (kd d h m : option string) :
  decimal_opt kd → decimal_opt d → decimal_opt h → decimal_opt m →
  re_search_digits "kd" (debt_string kd d h m) = kd
  ∧ re_search_digits "d" (debt_string kd d h m) = d
  ∧ re_search_digits "h" (debt_string kd d h m) = h
  ∧ re_search_digits "min" (debt_string kd d h m) = m.
Proof.
  unfold debt_string, debt_part.
  destruct kd as [a |], d as [b |], h as [c |], m as [e |]; cbn [decimal_opt];
    intros Hkd Hd Hh Hm;
    repeat match goal with H : _ ∧ _ |- _ => destruct H end;
    rewrite ?string_app_assoc, ?append_cons, ?append_nil_l;
    repeat split; read_debt; reflexivity.
Qed.

(** The debt of a well-formed debt string: each component that is present
    counts for its number, each missing one for zero. *)
Lemma debt_minutes_debt_string (kd d h m : option string) :
  decimal_opt kd → decimal_opt d → decimal_opt h → decimal_opt m →
  debt_minutes (Some (debt_string kd d h m))
  = ((group_int kd * 1000 + group_int d) * 24 + group_int h) * 60 + group_int m.
Proof.
  intros Hkd Hd Hh Hm.
  destruct (debt_string_searches kd d h m Hkd Hd Hh Hm) as (E1 & E2 & E3 & E4).
  unfold debt_minutes. by rewrite E1, E2, E3, E4.
Qed.

(** C9: in the list of fields joined by [to_csv], the debt field (the
    fourteenth) is the decimal writing of the debt in minutes, which is
    1443064 for the debt string 1kd2d3h4min and 0 for a debt of None, and
    the line field (the thirteenth) is a dash when the issue has no line
    number; [to_csv] returns whenever the message is not None; and for
    every debt string of the form NkdNdNhNmin, each component being
    optional, the debt in minutes is
    ((kilodays * 1000 + days) * 24 + hours) * 60 + minutes with zero for
    each missing component. *)
Theorem to_csv_debt_and_line (get_name : string → string → string) (i : Issue) :
  (∀ fs, to_csv_fields get_name i = Ok fs →
     fs !! 13%nat = Some (pretty (debt_minutes (debt i)))
     ∧ (debt i = Some "1kd2d3h4min" → fs !! 13%nat = Some "1443064")
     ∧ (debt i = None → fs !! 13%nat = Some "0")
     ∧ (line i = None → fs !! 12%nat = Some "-"))
  ∧ (message i ≠ None →
     ∃ fs, to_csv_fields get_name i = Ok fs ∧ Issue_to_csv get_name i = Ok (join ";" fs))
  ∧ (∀ kd d h m,
       decimal_opt kd → decimal_opt d → decimal_opt h → decimal_opt m →
       debt_minutes (Some (debt_string kd d h m))
       = ((group_int kd * 1000 + group_int d) * 24 + group_int h) * 60 + group_int m).
Proof.
  split; [| split].
  - intros fs Hfs. unfold to_csv_fields in Hfs.
    destruct (message i) as [msg |]; [| discriminate].
    injection Hfs as <-. cbn [lookup list_lookup].
    split; [reflexivity |]. split; [| split].
    + intros ->. reflexivity.
    + intros ->. reflexivity.
    + intros ->. reflexivity.
  - intros Hmsg. unfold Issue_to_csv, to_csv_fields.
    destruct (message i) as [msg |]; [| done].
    eexists. split; reflexivity.
  - apply debt_minutes_debt_string.
Qed.

Lemma to_csv_debt_and_line_witness :
  ∃ fs,
    to_csv_fields (λ p _, p) issue_csv = Ok fs
    ∧ fs !! 13%nat = Some "1443064"
    ∧ fs !! 12%nat = Some "-"
    ∧ debt_minutes (Some (debt_string (Some "1") (Some "2") (Some "3") (Some "4")))
      = ((1 * 1000 + 2) * 24 + 3) * 60 + 4
    ∧ debt_minutes (Some (debt_string None None (Some "2") (Some "30"))) = 150.
Proof.
  destruct (to_csv_debt_and_line (λ p _, p) issue_csv) as (Hfields & Hret & Hdebt).
  destruct (Hret ltac:(discriminate)) as (fs & Hfs & _).
  destruct (Hfields fs Hfs) as (_ & H13 & _ & H12).
  exists fs. split; [exact Hfs |]. split; [by apply H13 |]. split; [by apply H12 |].
  split.
  - rewrite Hdebt; [reflexivity | cbn; by split ..].
  - rewrite Hdebt; [reflexivity | cbn; try done; by split ..].
Defined.

(** ** Fetching the changelog *)

Lemma for_each_normalise_append self data :
  ∀ w i cl es,
    heap w !! self = Some i → changelog i = Some cl →
    normalise_all data = Ok es →
    for_each data (λ l,
      bind (lift (diff_to_changelog (diffs l))) (λ d,
        changelog_append self
          {| date := creationDate l; event := ev_event d; value := ev_value d |})) w
    = (Ok tt, {| heap := <[self := set_changelog (Some (cl ++ es)) i]> (heap w);
                 posts := posts w |}).
Proof.
  induction data as [| l data IH]; intros w i cl es Hi Hcl Hn; cbn [for_each].
  - injection Hn as <-.
    rewrite app_nil_r, <- Hcl, set_changelog_id, (insert_id _ _ _ Hi), world_eta.
    reflexivity.
  - cbn [normalise_all] in Hn. unfold normalise in Hn.
    destruct (diff_to_changelog (diffs l)) as [d | e] eqn:Hd; [| discriminate].
    cbn in Hn.
    destruct (normalise_all data) as [es' | e] eqn:Hes; [| discriminate].
    injection Hn as <-.
    unfold bind at 1. unfold bind at 1. unfold lift at 1.
    rewrite (changelog_append_exact self _ w i cl Hi Hcl).
    erewrite IH; [| cbn; apply lookup_insert_eq | reflexivity | reflexivity].
    cbn. rewrite insert_insert_eq, <- app_assoc. reflexivity.
Qed.

(** [get_changelog] without cache (or forced): the answer of the server
    is normalised and cached. *)
Lemma Issue_get_changelog_fetch srv self force w i es :
  heap w !! self = Some i →
  force = true ∨ changelog i = None →
  normalise_all (srv (posts w) (key i)) = Ok es →
  Issue_get_changelog srv self force w
  = (Ok (Some es),
     {| heap := <[self := set_changelog (Some es) i]> (heap w); posts := posts w |}).
Proof.
  intros Hi Hforce Hn. unfold Issue_get_changelog.
  rewrite (bind_Ok _ _ _ _ _ (deref_Some _ _ _ Hi)).
  replace (force || bool_decide (changelog i = None)) with true; cycle 1.
  { destruct Hforce as [-> | ->]; [reflexivity |].
    rewrite bool_decide_eq_true_2 by reflexivity. by rewrite orb_true_r. }
  unfold bind at 2. unfold fetch_changelog at 1.
  unfold bind at 2. unfold store at 1.
  erewrite (bind_Ok _ _ _ tt); cycle 1.
  { erewrite for_each_normalise_append;
      [reflexivity | cbn; apply lookup_insert_eq | reflexivity | exact Hn]. }
  cbn [heap posts]. rewrite insert_insert_eq.
  unfold bind, deref. cbn [heap]. rewrite lookup_insert_eq. reflexivity.
Qed.

(** On a well-formed server [get_changelog] and [has_changelog] return. *)
Lemma Issue_get_changelog_returns srv self w :
  well_formed_server srv → is_Some (heap w !! self) →
  ∃ cl w', Issue_get_changelog srv self false w = (Ok (Some cl), w').
Proof.
  intros Hwf [i Hi].
  destruct (changelog i) as [cl |] eqn:Hcl.
  - exists cl, w. by apply Issue_get_changelog_cached with (i := i).
  - destruct (Hwf (posts w) (key i)) as [es Hes].
    do 2 eexists. apply Issue_get_changelog_fetch with (i := i); eauto.
Qed.

Lemma Issue_has_changelog_returns srv self w :
  well_formed_server srv → is_Some (heap w !! self) →
  ∃ b w', Issue_has_changelog srv self w = (Ok b, w').
Proof.
  intros Hwf Hs.
  destruct (Issue_get_changelog_returns srv self w Hwf Hs) as (cl & w' & Hg).
  destruct (Issue_get_changelog_result _ _ _ _ _ _ Hg) as (i' & Hi' & Hc').
  exists (bool_decide (0 < length cl)%nat), w'.
  unfold Issue_has_changelog.
  rewrite (bind_Ok _ _ _ _ _ Hg). cbn [as_list]. unfold ret at 1. unfold bind at 1.
  rewrite (bind_Ok _ _ _ _ _ (Issue_get_changelog_cached srv _ _ _ _ Hi' Hc')).
  reflexivity.
Qed.

(** ** The sibling search returns *)

Lemma Issue_has_changelog_dom_kept srv self :
  preserves dom_kept (Issue_has_changelog srv self).
Proof.
  unfold Issue_has_changelog, Issue_get_changelog, changelog_append.
  frame_with ltac:(apply store_dom_kept).
Qed.

Lemma Issue_identical_to_dom_kept self other ic :
  preserves dom_kept (Issue_identical_to self other ic).
Proof.
  unfold Issue_identical_to. frame_with ltac:(apply Issue_get_url_dom_kept).
Qed.

Lemma search_siblings_step_dom_kept srv an_issue only_new cc sibs issue :
  preserves dom_kept (search_siblings_step srv an_issue only_new cc sibs issue).
Proof.
  unfold search_siblings_step.
  frame_with ltac:(first [apply Issue_identical_to_dom_kept
                         | apply Issue_has_changelog_dom_kept
                         | apply Issue_get_url_dom_kept]).
Qed.

Lemma Issue_identical_to_returns self other ic w :
  is_Some (heap w !! self) → is_Some (heap w !! other) →
  ∃ b w', Issue_identical_to self other ic w = (Ok b, w').
Proof.
  intros [a Ha] [b Hb]. unfold Issue_identical_to.
  rewrite (bind_Ok _ _ _ _ _ (deref_Some _ _ _ Ha)).
  rewrite (bind_Ok _ _ _ _ _ (deref_Some _ _ _ Hb)).
  destruct (identical_to_check a b ic); [| by eexists _, _].
  destruct (Issue_get_url_Ok self w a Ha) as (u1 & w1 & H1).
  rewrite (bind_Ok _ _ _ _ _ H1).
  destruct (Issue_get_url_dom_kept _ _ _ _ H1 other ltac:(eauto)) as [b' Hb'].
  destruct (Issue_get_url_Ok other w1 b' Hb') as (u2 & w2 & H2).
  rewrite (bind_Ok _ _ _ _ _ H2). by eexists _, _.
Qed.

Lemma search_siblings_step_returns srv an_issue only_new cc sibs issue w :
  well_formed_server srv →
  is_Some (heap w !! an_issue) → is_Some (heap w !! issue) →
  ∃ res w', search_siblings_step srv an_issue only_new cc sibs issue w = (Ok res, w').
Proof.
  intros Hwf Ha Hi. unfold search_siblings_step.
  destruct (Issue_identical_to_returns issue an_issue (negb cc) w Hi Ha)
    as (ident & w1 & Hid).
  rewrite (bind_Ok _ _ _ _ _ Hid).
  pose proof (Issue_identical_to_dom_kept _ _ _ _ _ _ Hid issue Hi) as Hi1.
  destruct ident; cbn [negb]; [| by eexists _, _].
  assert (∃ keep w2,
    (if negb only_new then ret true
     else if only_new
          then bind (Issue_has_changelog srv issue) (λ hc, ret (negb hc))
          else ret false) w1 = (Ok keep, w2) ∧ is_Some (heap w2 !! issue))
    as (keep & w2 & Hkeep & Hi2).
  { destruct only_new; cbn [negb]; [| by eexists _, _].
    destruct (Issue_has_changelog_returns srv issue w1 Hwf Hi1) as (hc & w2 & Hhc).
    exists (negb hc), w2. rewrite (bind_Ok _ _ _ _ _ Hhc). split; [reflexivity |].
    by apply (Issue_has_changelog_dom_kept _ _ _ _ _ Hhc). }
  rewrite (bind_Ok _ _ _ _ _ Hkeep).
  destruct keep; [| by eexists _, _].
  destruct Hi2 as [i2 Hi2].
  destruct (Issue_get_url_Ok issue w2 i2 Hi2) as (u & w3 & Hu).
  rewrite (bind_Ok _ _ _ _ _ Hu). by eexists _, _.
Qed.

Lemma search_siblings_loop_returns srv an_issue only_new cc pool :
  well_formed_server srv →
  ∀ sibs w,
    is_Some (heap w !! an_issue) → Forall (λ l, is_Some (heap w !! l)) pool →
    ∃ res w', search_siblings_loop srv an_issue only_new cc sibs pool w = (Ok res, w').
Proof.
  intros Hwf. induction pool as [| issue pool IH]; intros sibs w Ha Hpool;
    cbn [search_siblings_loop]; [by eexists _, _ |].
  apply Forall_cons in Hpool as [Hi Hpool].
  destruct (search_siblings_step_returns srv an_issue only_new cc sibs issue w Hwf Ha Hi)
    as (sibs1 & w1 & Hstep).
  rewrite (bind_Ok _ _ _ _ _ Hstep).
  pose proof (search_siblings_step_dom_kept _ _ _ _ _ _ _ _ _ Hstep) as Hdom.
  apply IH; [by apply Hdom |].
  eapply Forall_impl; [exact Hpool |]. intros l Hl. by apply Hdom.
Qed.

Lemma sample_server_well_formed : well_formed_server sample_server.
Proof.
  intros ps k. unfold sample_server.
  destruct (k =? "S")%string; [by eexists |].
  destruct (k =? "U")%string; [by eexists |].
  destruct (k =? "D")%string; by eexists.
Qed.

(** ** Attributes are never written *)

Lemma attrs_kept_refl w : attrs_kept w w.
Proof. by intros l. Qed.

Lemma attrs_kept_trans w1 w2 w3 : attrs_kept w1 w2 → attrs_kept w2 w3 → attrs_kept w1 w3.
Proof. intros H1 H2 l. by rewrite H1. Qed.

#[local] Hint Resolve attrs_kept_refl attrs_kept_trans : core.

(** Writing back an object read at [self], with another cache. *)
Lemma store_attrs_kept self i j w :
  heap w !! self = Some i → attributes j = attributes i →
  attrs_kept w {| heap := <[self := j]> (heap w); posts := posts w |}.
Proof.
  intros Hi Hj l. cbn. destruct (decide (l = self)) as [-> | Hne].
  - rewrite lookup_insert_eq, Hi. cbn. by rewrite Hj.
  - by rewrite lookup_insert_ne.
Qed.

Lemma changelog_append_attrs_kept self e : preserves attrs_kept (changelog_append self e).
Proof.
  intros w r w'. unfold changelog_append, bind, deref.
  destruct (heap w !! self) as [i |] eqn:Hi; [| intros [= _ <-]; auto].
  destruct (changelog i); intros [= _ <-]; [| auto].
  by apply store_attrs_kept with (i := i).
Qed.

Lemma Issue_get_url_attrs_kept self : preserves attrs_kept (Issue_get_url self).
Proof.
  intros w r w'. unfold Issue_get_url, bind, deref.
  destruct (heap w !! self) as [i |] eqn:Hi; [| intros [= _ <-]; auto].
  destruct (url i); cbn; intros [= _ <-]; [auto |].
  by apply store_attrs_kept with (i := i).
Qed.

Lemma bind_assoc {A B C} (m : M A) (f : A → M B) (g : B → M C) w :
  bind (bind m f) g w = bind m (λ a, bind (f a) g) w.
Proof. unfold bind. by destruct (m w) as [[a | e] w1]. Qed.

Lemma Issue_get_changelog_attrs_kept srv self force :
  preserves attrs_kept (Issue_get_changelog srv self force).
Proof.
  intros w r w' H. unfold Issue_get_changelog in H.
  destruct (heap w !! self) as [i |] eqn:Hi; cycle 1.
  { unfold bind, deref in H. rewrite Hi in H. injection H as _ <-. auto. }
  rewrite (bind_Ok _ _ _ _ _ (deref_Some _ _ _ Hi)) in H.
  destruct (force || bool_decide (changelog i = None)).
  - rewrite bind_assoc in H.
    erewrite (bind_Ok (fetch_changelog srv (key i))) in H; [| reflexivity].
    rewrite bind_assoc in H.
    erewrite (bind_Ok (store self _)) in H; [| reflexivity].
    eapply attrs_kept_trans;
      [apply (store_attrs_kept self i (set_changelog (Some []) i) w Hi eq_refl) |].
    revert H. apply preserves_bind; [eauto | | intros ?].
    + apply preserves_for_each; [auto | eauto | intros l].
      apply preserves_bind; [eauto | by apply preserves_lift | intros d].
      apply changelog_append_attrs_kept.
    + apply preserves_bind; [eauto | by apply preserves_deref | intros ?].
      by apply preserves_ret.
  - revert H. apply preserves_bind; [eauto | by apply preserves_ret | intros ?].
    apply preserves_bind; [eauto | by apply preserves_deref | intros ?].
    by apply preserves_ret.
Qed.

Lemma Issue_has_changelog_attrs_kept srv self :
  preserves attrs_kept (Issue_has_changelog srv self).
Proof.
  unfold Issue_has_changelog.
  frame_with ltac:(apply Issue_get_changelog_attrs_kept).
Qed.

Lemma Issue_identical_to_attrs_kept self other ic :
  preserves attrs_kept (Issue_identical_to self other ic).
Proof.
  unfold Issue_identical_to. frame_with ltac:(apply Issue_get_url_attrs_kept).
Qed.

Lemma search_siblings_step_attrs_kept srv an_issue only_new cc sibs issue :
  preserves attrs_kept (search_siblings_step srv an_issue only_new cc sibs issue).
Proof.
  unfold search_siblings_step.
  frame_with ltac:(first [apply Issue_identical_to_attrs_kept
                         | apply Issue_has_changelog_attrs_kept
                         | apply Issue_get_url_attrs_kept]).
Qed.

Lemma identical_to_check_attributes a b ic :
  identical_to_check a b ic = identical_to_check (attributes a) (attributes b) ic.
Proof. reflexivity. Qed.

Lemma is_sibling_attrs_kept w w' an_issue cc l :
  attrs_kept w w' → is_sibling w an_issue cc l = is_sibling w' an_issue cc l.
Proof.
  intros H. unfold is_sibling.
  pose proof (H l) as Hl. pose proof (H an_issue) as Ht.
  destruct (heap w !! l) as [i |], (heap w' !! l) as [i' |]; try discriminate;
    [| reflexivity].
  destruct (heap w !! an_issue) as [t |], (heap w' !! an_issue) as [t' |];
    try discriminate; [| reflexivity].
  assert (attributes i = attributes i') as Hi by (cbn in Hl; congruence).
  assert (attributes t = attributes t') as Ht' by (cbn in Ht; congruence).
  rewrite (identical_to_check_attributes i t), (identical_to_check_attributes i' t').
  by rewrite Hi, Ht'.
Qed.

(** One pass of the loop keeps the issue exactly when it is a sibling,
    unless the only-new flag drops it. *)
Lemma search_siblings_step_sibling srv an_issue only_new cc sibs issue w res w' :
  search_siblings_step srv an_issue only_new cc sibs issue w = (Ok res, w') →
  (res = sibs ∨ (res = sibs ++ [issue] ∧ is_sibling w an_issue cc issue = true))
  ∧ (only_new = false →
     res = if is_sibling w an_issue cc issue then sibs ++ [issue] else sibs).
Proof.
  unfold search_siblings_step. intros H.
  apply bind_Ok_inv in H as (ident & w1 & Hid & H).
  assert (ident = is_sibling w an_issue cc issue) as ->.
  { unfold Issue_identical_to in Hid.
    apply bind_Ok_inv in Hid as (i & w0 & Hi & Hid).
    apply deref_Ok_inv in Hi as [-> Hi].
    apply bind_Ok_inv in Hid as (t & w0 & Ht & Hid).
    apply deref_Ok_inv in Ht as [-> Ht].
    unfold is_sibling. rewrite Hi, Ht.
    destruct (identical_to_check i t (negb cc)); [| by injection Hid as <- _].
    apply bind_Ok_inv in Hid as (? & ? & _ & Hid).
    apply bind_Ok_inv in Hid as (? & ? & _ & Hid).
    by injection Hid as <- _. }
  destruct (is_sibling w an_issue cc issue); cbn [negb] in H;
    [| injection H as <- _; split; [by left | done]].
  apply bind_Ok_inv in H as (keep & w2 & Hkeep & H).
  destruct only_new; cbn [negb] in Hkeep.
  - split; [| discriminate].
    destruct keep; [| injection H as <- _; by left].
    apply bind_Ok_inv in H as (? & ? & _ & H). injection H as <- _. by right.
  - injection Hkeep as <- <-.
    apply bind_Ok_inv in H as (? & ? & _ & H). injection H as <- _.
    split; [by right | done].
Qed.

Lemma search_siblings_loop_sibling srv an_issue only_new cc pool :
  ∀ sibs w res w',
    search_siblings_loop srv an_issue only_new cc sibs pool w = (Ok res, w') →
    ∃ extra, res = sibs ++ extra
             ∧ Forall (λ l, is_sibling w an_issue cc l = true) extra
             ∧ (only_new = false →
                extra = filter (λ l, is_sibling w an_issue cc l = true) pool).
Proof.
  induction pool as [| issue pool IH]; intros sibs w res w' H;
    cbn [search_siblings_loop] in H.
  - injection H as <- _. exists []. by rewrite app_nil_r.
  - apply bind_Ok_inv in H as (sibs1 & w1 & Hstep & Hloop).
    pose proof (search_siblings_step_attrs_kept _ _ _ _ _ _ _ _ _ Hstep) as Hk.
    destruct (IH _ _ _ _ Hloop) as (extra & -> & Hall & Hfilter).
    assert (∀ l, is_sibling w1 an_issue cc l = is_sibling w an_issue cc l) as Hsame
      by (intros l; symmetry; by apply is_sibling_attrs_kept).
    assert (Forall (λ l, is_sibling w an_issue cc l = true) extra) as Hall'.
    { eapply Forall_impl; [exact Hall |]. intros l Hl. by rewrite <- Hsame. }
    assert (only_new = false →
            extra = filter (λ l, is_sibling w an_issue cc l = true) pool) as Hfilter'.
    { intros Ho. rewrite (Hfilter Ho). apply list_filter_iff. intros l.
      by rewrite Hsame. }
    apply search_siblings_step_sibling in Hstep as [Hres Hexact].
    destruct Hres as [-> | [-> Hsib]].
    + exists extra. split; [done |]. split; [done |].
      intros Ho. rewrite filter_cons. specialize (Hexact Ho).
      destruct (is_sibling w an_issue cc issue).
      * exfalso. apply (f_equal length) in Hexact. rewrite length_app in Hexact.
        cbn in Hexact. lia.
      * rewrite decide_False by done. by apply Hfilter'.
    + exists (issue :: extra). rewrite <- app_assoc. split; [done |].
      split; [by constructor |].
      intros Ho. rewrite filter_cons, decide_True by done. f_equal. by apply Hfilter'.
Qed.

(** [identical_to] answers what [is_sibling] says of the store. *)
Lemma Issue_identical_to_sibling issue an_issue cc w ident w1 :
  Issue_identical_to issue an_issue (negb cc) w = (Ok ident, w1) →
  ident = is_sibling w an_issue cc issue.
Proof.
  unfold Issue_identical_to. intros Hid.
  apply bind_Ok_inv in Hid as (i & w0 & Hi & Hid).
  apply deref_Ok_inv in Hi as [-> Hi].
  apply bind_Ok_inv in Hid as (t & w0 & Ht & Hid).
  apply deref_Ok_inv in Ht as [-> Ht].
  unfold is_sibling. rewrite Hi, Ht.
  destruct (identical_to_check i t (negb cc)); [| by injection Hid as <- _].
  apply bind_Ok_inv in Hid as (? & ? & _ & Hid).
  apply bind_Ok_inv in Hid as (? & ? & _ & Hid).
  by injection Hid as <- _.
Qed.

(** With the only-new flag set, one pass of the loop keeps a sibling
    whose cached changelog is empty. *)
Lemma search_siblings_step_keeps srv an_issue cc sibs issue w res w' :
  search_siblings_step srv an_issue true cc sibs issue w = (Ok res, w') →
  cached_empty w issue → is_sibling w an_issue cc issue = true →
  res = sibs ++ [issue].
Proof.
  unfold search_siblings_step. intros H Hempty Hsib.
  apply bind_Ok_inv in H as (ident & w1 & Hid & H).
  rewrite (Issue_identical_to_sibling _ _ _ _ _ _ Hid), Hsib in H. cbn [negb] in H.
  apply bind_Ok_inv in H as (keep & w2 & Hkeep & H).
  destruct (cached_empty_kept w w1 issue (Issue_identical_to_cache_kept _ _ _ _ _ _ Hid)
              Hempty) as (i1 & Hi1 & Hc1).
  rewrite (bind_Ok _ _ _ _ _ (Issue_has_changelog_cached srv issue w1 i1 [] Hi1 Hc1))
    in Hkeep.
  injection Hkeep as <- <-. cbn in H.
  apply bind_Ok_inv in H as (? & ? & _ & H). by injection H as <- _.
Qed.

Lemma search_siblings_loop_keeps srv an_issue cc pool :
  ∀ sibs w res w',
    search_siblings_loop srv an_issue true cc sibs pool w = (Ok res, w') →
    ∀ l, l ∈ pool → cached_empty w l → is_sibling w an_issue cc l = true → l ∈ res.
Proof.
  induction pool as [| issue pool IH]; intros sibs w res w' H l Hl Hempty Hsib;
    cbn [search_siblings_loop] in H; [by apply elem_of_nil in Hl |].
  apply bind_Ok_inv in H as (sibs1 & w1 & Hstep & Hloop).
  apply elem_of_cons in Hl as [-> | Hl].
  - rewrite (search_siblings_step_keeps _ _ _ _ _ _ _ _ Hstep Hempty Hsib) in Hloop.
    apply search_siblings_loop_result in Hloop as (extra & -> & _).
    set_solver.
  - apply (IH _ _ _ _ Hloop l Hl).
    + eapply cached_empty_kept; [| exact Hempty].
      eapply search_siblings_step_cache_kept, Hstep.
    + rewrite <- Hsib. symmetry. apply is_sibling_attrs_kept.
      eapply search_siblings_step_attrs_kept, Hstep.
Qed.

(** C3, as the code has it: on a server whose changelog records can all
    be normalised the search returns; the siblings returned are a
    sub-sequence of the pool (same relative order), no state-changing
    call is made, and when the only-new flag is set every returned issue
    has an empty changelog: [has_changelog] answers false on it. The
    filter reads the cached changelog of the issue objects, not their
    comments: with the flag set, an issue whose cached changelog is not
    empty is not returned (be it filled by the server or by the comments
    that [get_all_events] appended), and an issue of the pool identical
    to the target whose cached changelog is empty is returned, whatever
    comments it has. *)
Theorem search_siblings_only_new srv an_issue pool only_new cc w :
  (well_formed_server srv →
   is_Some (heap w !! an_issue) → Forall (λ l, is_Some (heap w !! l)) pool →
   ∃ sibs w', search_siblings srv an_issue pool only_new cc w = (Ok sibs, w'))
  ∧ (∀ sibs w',
       search_siblings srv an_issue pool only_new cc w = (Ok sibs, w') →
       sublist sibs pool
       ∧ posts w' = posts w
       ∧ (only_new = true →
          (∀ l, l ∈ sibs →
                cached_empty w' l ∧ Issue_has_changelog srv l w' = (Ok false, w'))
          ∧ (∀ l i cl, heap w !! l = Some i → changelog i = Some cl → cl ≠ [] →
                       l ∉ sibs)
          ∧ (∀ l, l ∈ pool → cached_empty w l → is_sibling w an_issue cc l = true →
                  l ∈ sibs))).
Proof.
  split.
  - intros Hwf Ha Hpool. by apply search_siblings_loop_returns.
  - intros sibs w' H. split; [| split].
    + apply search_siblings_loop_result in H as (extra & -> & Hsub & _). done.
    + eapply search_siblings_same_posts, H.
    + intros ->.
      assert (∀ l, l ∈ sibs → cached_empty w' l) as Hnew.
      { intros l Hl.
        apply search_siblings_loop_result in H as (extra & -> & _ & Hall).
        specialize (Hall eq_refl). rewrite Forall_forall in Hall. by apply Hall. }
      split; [| split].
      * intros l Hl. destruct (Hnew l Hl) as (i & Hi & Hcl). split; [by exists i |].
        by rewrite (Issue_has_changelog_cached srv l w' i [] Hi Hcl).
      * intros l i cl Hi Hcl Hne Hl.
        destruct (Hnew l Hl) as (i' & Hi' & Hcl').
        destruct (search_siblings_loop_cache_kept _ _ _ _ _ _ _ _ _ H l i cl Hi Hcl)
          as (i'' & Hi'' & Hcl'').
        congruence.
      * intros l Hl Hempty Hsib.
        by apply (search_siblings_loop_keeps _ _ _ _ _ _ _ _ H l).
Qed.

Lemma search_siblings_only_new_witness :
  (∃ sibs w',
     search_siblings sample_server loc_T [loc_S; loc_T; loc_C] true false sample_world
     = (Ok sibs, w'))
  ∧ sublist [loc_T; loc_C] [loc_S; loc_T; loc_C]
  ∧ Issue_has_changelog sample_server loc_T
      (search_siblings sample_server loc_T [loc_S; loc_T; loc_C] true false sample_world).2
    = (Ok false,
       (search_siblings sample_server loc_T [loc_S; loc_T; loc_C] true false sample_world).2)
  ∧ (∀ sibs w',
       search_siblings sample_server loc_T [loc_S; loc_T; loc_C] true false commented_world
       = (Ok sibs, w') → loc_C ∉ sibs).
Proof.
  destruct (search_siblings_only_new sample_server loc_T [loc_S; loc_T; loc_C]
              true false sample_world) as [Hret Hres].
  destruct (search_siblings_only_new sample_server loc_T [loc_S; loc_T; loc_C]
              true false commented_world) as [_ Hres'].
  split; [| split; [| split]].
  - apply Hret; [apply sample_server_well_formed | by eexists |].
    repeat constructor; by eexists.
  - by destruct (Hres [loc_T; loc_C] _ eq_refl) as (Hsub & _).
  - destruct (Hres [loc_T; loc_C] _ eq_refl) as (_ & _ & Hnew).
    destruct (Hnew eq_refl) as (Hempty & _). apply (Hempty loc_T). by left.
  - intros sibs w' H. destruct (Hres' sibs w' H) as (_ & _ & Hnew).
    destruct (Hnew eq_refl) as (_ & Hfull & _).
    eapply (Hfull loc_C); [reflexivity | reflexivity | discriminate].
Defined.

(** With the only-new flag set the search returns issue [C], which has a
    comment: its timeline is not empty. *)
Lemma search_siblings_returns_commented :
  ∃ w' t w'',
    search_siblings sample_server loc_T [loc_S; loc_C] true false sample_world
      = (Ok [loc_C], w')
    ∧ Issue_get_all_events sample_server loc_C true w' = (Ok t, w'')
    ∧ timeline_empty t = false.
Proof.
  do 3 eexists. split; [| split].
  - vm_compute. reflexivity.
  - vm_compute. reflexivity.
  - vm_compute. reflexivity.
Qed.

(** ** The replay loop *)

(** The loop of [apply_changelog] is never reached (see above); the
    lemmas below describe what its body does, for the day the keys are
    obtained. *)

Lemma post_exact a ps w :
  post a ps w = (Ok tt, {| heap := heap w; posts := posts w ++ [Post a ps] |}).
Proof. reflexivity. Qed.

(** One event is dispatched to the requests of [event_requests], and to
    nothing else. *)
Lemma apply_event_posts tgt it e w :
  heap w !! tgt = Some it →
  (is_event_a_tag_change e = true → is_Some (value e)) →
  apply_event tgt e w
  = (Ok tt, {| heap := heap w; posts := posts w ++ event_requests (key it) e |}).
Proof.
  intros Hit Htag. unfold apply_event, event_requests.
  unfold Issue_set_severity, Issue_set_type, Issue_reopen, Issue_mark_as_false_positive,
    Issue_mark_as_wont_fix, Issue_assign, Issue_set_tags, Issue_add_comment,
    Issue_do_transition, is_event_a_resolve_as_reviewed.
  destruct (is_event_a_severity_change e);
    [by rewrite (bind_Ok _ _ _ _ _ (deref_Some _ _ _ Hit)) |].
  destruct (is_event_a_type_change e);
    [by rewrite (bind_Ok _ _ _ _ _ (deref_Some _ _ _ Hit)) |].
  destruct (is_event_a_reopen e);
    [by rewrite (bind_Ok _ _ _ _ _ (deref_Some _ _ _ Hit)) |].
  destruct (is_event_a_resolve_as_fp e);
    [by rewrite (bind_Ok _ _ _ _ _ (deref_Some _ _ _ Hit)) |].
  destruct (is_event_a_resolve_as_wf e);
    [by rewrite (bind_Ok _ _ _ _ _ (deref_Some _ _ _ Hit)) |].
  destruct (is_event_an_assignment e);
    [by rewrite (bind_Ok _ _ _ _ _ (deref_Some _ _ _ Hit)) |].
  destruct (is_event_a_tag_change e).
  { destruct (Htag eq_refl) as [v ->].
    by rewrite (bind_Ok _ _ _ _ _ (deref_Some _ _ _ Hit)). }
  destruct (is_event_a_comment e);
    [by rewrite (bind_Ok _ _ _ _ _ (deref_Some _ _ _ Hit)) |].
  unfold ret. by rewrite app_nil_r, world_eta.
Qed.

(** The events are dispatched one after the other in the order of the
    keys. *)
Lemma replay_posts tgt it (m : gmap string entry) keys :
  ∀ w,
    heap w !! tgt = Some it →
    Forall (λ d, ∃ e, m !! d = Some e
                      ∧ (is_event_a_tag_change e = true → is_Some (value e))) keys →
    replay tgt (ByDate m) keys w
    = (Ok tt, {| heap := heap w; posts := posts w ++ replay_requests (key it) m keys |}).
Proof.
  unfold replay, replay_requests.
  induction keys as [| d keys IH]; intros w Hit Hall; cbn [for_each mbind list_bind].
  - unfold ret. by rewrite app_nil_r, world_eta.
  - apply Forall_cons in Hall as [(e & He & Htag) Hall].
    unfold bind at 1. unfold bind at 1. unfold lift, timeline_get. rewrite He.
    rewrite (apply_event_posts tgt it e w Hit Htag).
    rewrite IH by done. cbn [heap posts]. by rewrite app_assoc.
Qed.

(** [sorted] puts the keys in ascending order and loses none. *)
Lemma sorted_ascending keys :
  StronglySorted String.le (sorted keys) ∧ sorted keys ≡ₚ keys.
Proof.
  split; [apply StronglySorted_merge_sort; apply _ | apply merge_sort_Permutation].
Qed.

(** * Further properties *)

(** ** The rules of the normaliser *)

Lemma dict_in_Some (d : diff) k v : d !! k = Some v → dict_in k d = true.
Proof. intros H. unfold dict_in. rewrite H. by apply bool_decide_eq_true_2. Qed.

(** Decides membership in a list of string literals. *)
Ltac in_literals :=
  rewrite ?elem_of_cons, ?elem_of_nil; cbn;
  first [ tauto
        | let E := fresh "E" in
          intros E; repeat (destruct E as [E | E]); solve [discriminate E | destruct E] ].

Lemma get_event_from_diff_field (d : diff) k v :
  d !! "key" = Some k → d !! "newValue" = Some v →
  k = "severity" ∨ k = "type" ∨ k = "tags" →
  get_event_from_diff d = Ok (Some (DiffEvent k (Some v))).
Proof.
  intros Hk Hn Hkey. unfold get_event_from_diff.
  rewrite (dict_get_Some _ _ _ Hk). cbn.
  rewrite (dict_get_Some _ _ _ Hn). cbn.
  destruct Hkey as [-> | [-> | ->]]; reflexivity.
Qed.

(** X1: a first diff on severity, type or tags that carries a new value
    decides the event, which has the key as kind and the new value as
    value; the diffs after it are not read, whatever they are. *)
Theorem field_diff_decides (d : diff) (rest : list diff) k v :
  d !! "key" = Some k → d !! "newValue" = Some v →
  k = "severity" ∨ k = "type" ∨ k = "tags" →
  diff_to_changelog (d :: rest) = Ok (DiffEvent k (Some v)).
Proof.
  intros Hk Hn Hkey. cbn [diff_to_changelog].
  by rewrite (get_event_from_diff_field d k v Hk Hn Hkey).
Qed.

Lemma field_diff_decides_witness :
  diff_to_changelog
    [mk_diff [("key", "tags"); ("newValue", "cwe owasp")]; diff_line_removed]
  = Ok (DiffEvent "tags" (Some "cwe owasp")).
Proof.
  apply (field_diff_decides _ [diff_line_removed] "tags" "cwe owasp");
    [reflexivity | reflexivity | tauto].
Defined.

Lemma get_event_from_diff_resolution (d : diff) v :
  d !! "key" = Some "resolution" → d !! "newValue" = Some v →
  get_event_from_diff d = Ok (Some (resolution_diff_to_changelog v)).
Proof.
  intros Hk Hn. unfold get_event_from_diff.
  rewrite (dict_get_Some _ _ _ Hk). cbn.
  rewrite (dict_get_Some _ _ _ Hn). cbn.
  by rewrite (dict_in_Some _ _ _ Hn).
Qed.

(** X2: a first diff on the resolution that carries a new value always
    decides the event: a transition for FALSE-POSITIVE and WONTFIX, the
    kind fixed for FIXED, and the unknown event for any other value, in
    which case the diffs after it are not read either. *)
Theorem resolution_diff_decides (d : diff) (rest : list diff) v :
  d !! "key" = Some "resolution" → d !! "newValue" = Some v →
  diff_to_changelog (d :: rest) = Ok (resolution_diff_to_changelog v)
  ∧ (v = "FALSE-POSITIVE" →
     diff_to_changelog (d :: rest) = Ok (DiffEvent "transition" (Some "falsepositive")))
  ∧ (v = "WONTFIX" →
     diff_to_changelog (d :: rest) = Ok (DiffEvent "transition" (Some "wontfix")))
  ∧ (v = "FIXED" → diff_to_changelog (d :: rest) = Ok (DiffEvent "fixed" None))
  ∧ (v ≠ "FALSE-POSITIVE" → v ≠ "WONTFIX" → v ≠ "FIXED" →
     diff_to_changelog (d :: rest) = Ok (DiffEvent "unknown" None)).
Proof.
  intros Hk Hn.
  assert (diff_to_changelog (d :: rest) = Ok (resolution_diff_to_changelog v)) as H.
  { cbn [diff_to_changelog]. by rewrite (get_event_from_diff_resolution d v Hk Hn). }
  rewrite H. split; [reflexivity |]. repeat split.
  - by intros ->.
  - by intros ->.
  - by intros ->.
  - intros H1 H2 H3. unfold resolution_diff_to_changelog.
    destruct (String.eqb_spec v "FALSE-POSITIVE"); [done |].
    destruct (String.eqb_spec v "WONTFIX"); [done |].
    destruct (String.eqb_spec v "FIXED"); done.
Qed.

Lemma resolution_diff_decides_witness :
  diff_to_changelog
    [mk_diff [("key", "resolution"); ("newValue", "REMOVED")];
     mk_diff [("key", "severity"); ("newValue", "MAJOR")]]
  = Ok (DiffEvent "unknown" None).
Proof.
  apply (resolution_diff_decides
           (mk_diff [("key", "resolution"); ("newValue", "REMOVED")])
           [mk_diff [("key", "severity"); ("newValue", "MAJOR")]] "REMOVED");
    [reflexivity | reflexivity | discriminate ..].
Defined.

Lemma get_event_from_diff_status (d : diff) v :
  d !! "key" = Some "status" → d !! "newValue" = Some v →
  get_event_from_diff d =
    if (v =? "CONFIRMED")%string then Ok (Some (DiffEvent "transition" (Some "confirm")))
    else if (v =? "REOPENED")%string
    then (oldval ← dict_get d "oldValue"; Ok (Some (reopen_diff_to_changelog oldval)))
    else if (v =? "OPEN")%string
    then (oldval ← dict_get d "oldValue";
          Ok (if (oldval =? "CLOSED")%string
              then Some (DiffEvent "transition" (Some "reopen")) else None))
    else Ok None.
Proof.
  intros Hk Hn. unfold get_event_from_diff.
  rewrite (dict_get_Some _ _ _ Hk). cbn.
  rewrite (dict_get_Some _ _ _ Hn). cbn.
  rewrite (dict_in_Some _ _ _ Hn). cbn.
  destruct (String.eqb_spec v "CONFIRMED") as [-> | ?]; [reflexivity |].
  destruct (String.eqb_spec v "REOPENED") as [-> | ?].
  { cbn. destruct (dict_get d "oldValue"); reflexivity. }
  destruct (String.eqb_spec v "OPEN") as [-> | ?]; [| reflexivity].
  cbn. destruct (dict_get d "oldValue") as [o |]; [| reflexivity].
  cbn. by destruct (o =? "CLOSED")%string.
Qed.

(** X3: a first diff on the status that carries a new value: CONFIRMED
    gives the transition confirm; REOPENED gives unconfirm when the old
    value is CONFIRMED and reopen for any other old value; OPEN gives
    reopen when the old value is CLOSED; REOPENED or OPEN without old
    value make the normaliser raise KeyError; in every other case the
    diff is passed over and the next diffs decide. *)
Theorem status_diff_rules (d : diff) (rest : list diff) v :
  d !! "key" = Some "status" → d !! "newValue" = Some v →
  (v = "CONFIRMED" →
   diff_to_changelog (d :: rest) = Ok (DiffEvent "transition" (Some "confirm")))
  ∧ (∀ o, v = "REOPENED" → d !! "oldValue" = Some o →
       diff_to_changelog (d :: rest) =
         Ok (DiffEvent "transition"
               (Some (if (o =? "CONFIRMED")%string then "unconfirm" else "reopen"))))
  ∧ (v = "OPEN" → d !! "oldValue" = Some "CLOSED" →
     diff_to_changelog (d :: rest) = Ok (DiffEvent "transition" (Some "reopen")))
  ∧ (v = "REOPENED" ∨ v = "OPEN" → d !! "oldValue" = None →
     diff_to_changelog (d :: rest) = Raise (KeyError "oldValue"))
  ∧ ((v ≠ "CONFIRMED" ∧ v ≠ "REOPENED" ∧ v ≠ "OPEN")
     ∨ (v = "OPEN" ∧ ∃ o, d !! "oldValue" = Some o ∧ o ≠ "CLOSED") →
     diff_to_changelog (d :: rest) = diff_to_changelog rest).
Proof.
  intros Hk Hn. cbn [diff_to_changelog].
  rewrite (get_event_from_diff_status d v Hk Hn).
  split; [| split; [| split; [| split]]].
  - by intros ->.
  - intros o -> Ho. cbn. rewrite (dict_get_Some _ _ _ Ho). cbn.
    unfold reopen_diff_to_changelog. by destruct (o =? "CONFIRMED")%string.
  - intros -> Ho. cbn. by rewrite (dict_get_Some _ _ _ Ho).
  - intros [-> | ->] Ho; cbn; by rewrite (dict_get_None _ _ Ho).
  - intros [(H1 & H2 & H3) | (-> & o & Ho & Hne)].
    + destruct (String.eqb_spec v "CONFIRMED"); [done |].
      destruct (String.eqb_spec v "REOPENED"); [done |].
      destruct (String.eqb_spec v "OPEN"); done.
    + cbn. rewrite (dict_get_Some _ _ _ Ho). cbn.
      destruct (String.eqb_spec o "CLOSED"); done.
Qed.

Lemma status_diff_rules_witness :
  diff_to_changelog
    [mk_diff [("key", "status"); ("oldValue", "OPEN"); ("newValue", "RESOLVED")];
     mk_diff [("key", "resolution"); ("newValue", "WONTFIX")]]
  = Ok (DiffEvent "transition" (Some "wontfix"))
  ∧ diff_to_changelog
      [mk_diff [("key", "status"); ("newValue", "REOPENED")]]
    = Raise (KeyError "oldValue").
Proof.
  split.
  - etrans.
    + apply (status_diff_rules
               (mk_diff [("key", "status"); ("oldValue", "OPEN"); ("newValue", "RESOLVED")])
               [mk_diff [("key", "resolution"); ("newValue", "WONTFIX")]] "RESOLVED");
        [reflexivity | reflexivity |].
      left. repeat split; discriminate.
    + reflexivity.
  - apply (status_diff_rules (mk_diff [("key", "status"); ("newValue", "REOPENED")])
             [] "REOPENED"); [reflexivity | reflexivity | by left | reflexivity].
Defined.

(** Settles the two facts about the kind of a given event. *)
Ltac kind_facts :=
  cbn; split; [unfold event_kinds; in_literals |];
  split;
    [ first [discriminate | intros _; unfold valueless_kinds; in_literals]
    | first [intros _; reflexivity | unfold valueless_kinds; in_literals] ].

Lemma get_event_from_diff_arrow (d : diff) k v o :
  d !! "key" = Some k → d !! "newValue" = Some v → d !! "oldValue" = Some o →
  (k = "from_short_branch" →
   get_event_from_diff d = Ok (Some (DiffEvent "merge" (Some (o +:+ " -> " +:+ v)))))
  ∧ (k = "effort" →
     get_event_from_diff d = Ok (Some (DiffEvent "effort" (Some (o +:+ " -> " +:+ v))))).
Proof.
  intros Hk Hn Ho. split; intros ->; unfold get_event_from_diff;
    rewrite (dict_get_Some _ _ _ Hk); cbn;
    rewrite (dict_get_Some _ _ _ Hn); cbn;
    by rewrite (dict_get_Some _ _ _ Ho).
Qed.

Lemma get_event_from_diff_complete (d : diff) :
  complete_diff d →
  ∃ r, get_event_from_diff d = Ok r
       ∧ ∀ e, r = Some e →
              ev_event e ∈ event_kinds
              ∧ (ev_value e = None ↔ ev_event e ∈ valueless_kinds).
Proof.
  intros ([k Hk] & [v Hv] & [o Ho]).
  destruct (decide (k ∈ recognized_keys)) as [Hin | Hnot].
  - unfold recognized_keys in Hin. rewrite !elem_of_cons, elem_of_nil in Hin.
    destruct Hin as [-> | [-> | [-> | [-> | [-> | [-> | [-> | [-> | []]]]]]]]].
    + eexists. split; [apply (get_event_from_diff_field d _ v Hk Hv); tauto |].
      intros e [= <-]. kind_facts.
    + eexists. split; [apply (get_event_from_diff_field d _ v Hk Hv); tauto |].
      intros e [= <-]. kind_facts.
    + eexists. split; [apply (get_event_from_diff_field d _ v Hk Hv); tauto |].
      intros e [= <-]. kind_facts.
    + eexists. split; [apply (get_event_from_diff_resolution d v Hk Hv) |].
      intros e [= <-]. unfold resolution_diff_to_changelog.
      destruct (v =? "FALSE-POSITIVE")%string; [kind_facts |].
      destruct (v =? "WONTFIX")%string; [kind_facts |].
      destruct (v =? "FIXED")%string; kind_facts.
    + rewrite (get_event_from_diff_status d v Hk Hv).
      destruct (v =? "CONFIRMED")%string.
      { eexists. split; [reflexivity |]. intros e [= <-]. kind_facts. }
      destruct (v =? "REOPENED")%string.
      { rewrite (dict_get_Some _ _ _ Ho). cbn. eexists. split; [reflexivity |].
        intros e [= <-]. unfold reopen_diff_to_changelog.
        destruct (o =? "CONFIRMED")%string; kind_facts. }
      destruct (v =? "OPEN")%string; [| eexists; split; [reflexivity | discriminate]].
      rewrite (dict_get_Some _ _ _ Ho). cbn. eexists. split; [reflexivity |].
      destruct (o =? "CLOSED")%string; [| discriminate].
      intros e [= <-]. kind_facts.
    + rewrite (get_event_from_diff_assignee d v Hk Hv).
      eexists. split; [reflexivity |]. intros e [= <-].
      destruct (bool_decide (is_Some (d !! v))); kind_facts.
    + destruct (get_event_from_diff_arrow d _ v o Hk Hv Ho) as [H _].
      rewrite (H eq_refl). eexists. split; [reflexivity |]. intros e [= <-].
      kind_facts.
    + destruct (get_event_from_diff_arrow d _ v o Hk Hv Ho) as [_ H].
      rewrite (H eq_refl). eexists. split; [reflexivity |]. intros e [= <-].
      kind_facts.
  - exists None. split; [by apply (get_event_from_diff_unrecognized d k v) |].
    discriminate.
Qed.

(** X4: on a set of diffs that all carry a key, an old value and a new
    value the normaliser returns; the kind of the event it answers is one
    of the ten kinds of [event_kinds] and the event has no value exactly
    when its kind is fixed, unknown or unassign. *)
Theorem diff_to_changelog_complete (ds : list diff) :
  Forall complete_diff ds →
  ∃ e, diff_to_changelog ds = Ok e
       ∧ ev_event e ∈ event_kinds
       ∧ (ev_value e = None ↔ ev_event e ∈ valueless_kinds).
Proof.
  induction ds as [| d ds IH]; intros Hall.
  - eexists. split; [reflexivity |]. kind_facts.
  - apply Forall_cons in Hall as [Hd Hall].
    destruct (get_event_from_diff_complete d Hd) as (r & Hr & Hkind).
    cbn [diff_to_changelog]. rewrite Hr. cbn.
    destruct r as [e |]; [| by apply IH].
    exists e. split; [reflexivity |]. by apply Hkind.
Qed.

Lemma diff_to_changelog_complete_witness :
  ∃ e,
    diff_to_changelog
      [mk_diff [("key", "effort"); ("oldValue", "10"); ("newValue", "5")]] = Ok e
    ∧ ev_event e ∈ event_kinds
    ∧ (ev_value e = None ↔ ev_event e ∈ valueless_kinds).
Proof.
  apply (diff_to_changelog_complete
           [mk_diff [("key", "effort"); ("oldValue", "10"); ("newValue", "5")]]).
  repeat constructor; by eexists.
Defined.

(** ** The dispatch of the replay *)

Lemma event_requests_length k e : (length (event_requests k e) ≤ 1)%nat.
Proof.
  unfold event_requests.
  repeat match goal with
         | |- context [if ?b then _ else _] => destruct b; [cbn; lia |]
         end.
  cbn. lia.
Qed.

Lemma event_requests_unreplayed k e :
  event e ∈ unreplayed_kinds
  ∨ (event e = "transition" ∧ value e ∉ replayed_transitions) →
  event_requests k e = [].
Proof.
  destruct e as [dt ev v]. cbn [event value]. intros [Hin | [-> Hv]].
  - unfold unreplayed_kinds in Hin. rewrite !elem_of_cons, elem_of_nil in Hin.
    destruct Hin as [-> | [-> | [-> | [-> | [-> | []]]]]]; reflexivity.
  - unfold replayed_transitions in Hv. rewrite !elem_of_cons, elem_of_nil in Hv.
    unfold event_requests, is_event_a_severity_change, is_event_a_type_change,
      is_event_a_reopen, is_event_a_resolve_as_fp, is_event_a_resolve_as_wf,
      is_event_an_assignment, is_event_a_tag_change, is_event_a_comment.
    cbn.
    rewrite !bool_decide_eq_false_2 by (intros ->; tauto). reflexivity.
Qed.

(** X5: on a target of the store, the dispatch of one event returns
    without touching the issue objects and sends at most one request; it
    sends none, and leaves everything as it was, for an event of kind
    fixed, unassign, merge, effort or unknown and for a transition other
    than reopen, falsepositive and wontfix (such as confirm and
    unconfirm); the only event it raises on is a tag change without
    value. *)
Theorem apply_event_dispatch tgt it e w :
  heap w !! tgt = Some it →
  (is_event_a_tag_change e = true → is_Some (value e) →
   ∃ w', apply_event tgt e w = (Ok tt, w')
         ∧ heap w' = heap w
         ∧ (length (posts w') ≤ length (posts w) + 1)%nat)
  ∧ (is_event_a_tag_change e = false →
     ∃ w', apply_event tgt e w = (Ok tt, w')
           ∧ heap w' = heap w
           ∧ (length (posts w') ≤ length (posts w) + 1)%nat)
  ∧ (event e ∈ unreplayed_kinds
     ∨ (event e = "transition" ∧ value e ∉ replayed_transitions) →
     apply_event tgt e w = (Ok tt, w))
  ∧ (event e = "tags" → value e = None →
     apply_event tgt e w = (Raise (AttributeError "replace"), w)).
Proof.
  intros Hit.
  assert (∀ Htag : is_event_a_tag_change e = true → is_Some (value e),
            ∃ w', apply_event tgt e w = (Ok tt, w')
                  ∧ heap w' = heap w
                  ∧ (length (posts w') ≤ length (posts w) + 1)%nat) as Hgen.
  { intros Htag. eexists. split; [apply (apply_event_posts tgt it e w Hit Htag) |].
    split; [reflexivity |]. cbn. rewrite length_app.
    pose proof (event_requests_length (key it) e). lia. }
  split; [| split; [| split]].
  - intros _ Hv. apply Hgen. by intros _.
  - intros Hf. apply Hgen. rewrite Hf. discriminate.
  - intros Hno. rewrite (apply_event_posts tgt it e w Hit).
    + rewrite (event_requests_unreplayed _ _ Hno), app_nil_r, world_eta. reflexivity.
    + intros Htag. exfalso. unfold is_event_a_tag_change in Htag.
      apply String.eqb_eq in Htag. destruct Hno as [Hin | [Ht _]]; [| congruence].
      rewrite Htag in Hin. revert Hin. unfold unreplayed_kinds. in_literals.
  - destruct e as [dt ev v]. cbn [event value]. intros -> ->. reflexivity.
Qed.

Lemma apply_event_dispatch_witness :
  apply_event loc_T (Entry "2020-01-01T00:00:00+0000" "transition" (Some "confirm"))
    sample_world = (Ok tt, sample_world)
  ∧ apply_event loc_T (Entry "2020-01-01T00:00:00+0000" "tags" None) sample_world
    = (Raise (AttributeError "replace"), sample_world).
Proof.
  destruct (apply_event_dispatch loc_T issue_T
              (Entry "2020-01-01T00:00:00+0000" "transition" (Some "confirm"))
              sample_world eq_refl) as (_ & _ & H & _).
  destruct (apply_event_dispatch loc_T issue_T
              (Entry "2020-01-01T00:00:00+0000" "tags" None)
              sample_world eq_refl) as (_ & _ & _ & H').
  split.
  - apply H. right. split; [reflexivity |]. unfold replayed_transitions. in_literals.
  - by apply H'.
Defined.

(** ** The caches of an issue object *)

Lemma for_each_app {A} (l1 l2 : list A) (body : A → M unit) w :
  for_each (l1 ++ l2) body w
  = match for_each l1 body w with
    | (Ok _, w1) => for_each l2 body w1
    | (Raise e, w1) => (Raise e, w1)
    end.
Proof.
  revert w. induction l1 as [| x l1 IH]; intros w; [reflexivity |].
  cbn [app for_each]. unfold bind.
  destruct (body x w) as [[[] | e] w1]; [apply IH | reflexivity].
Qed.

(** X6: exceptions do not roll the cache back. When the changelog of an
    issue is not cached and the record of the server at some position
    cannot be normalised, [get_changelog] raises, but it leaves in the
    cache the events of the records before that position: the next call
    returns this truncated changelog and [has_changelog] answers from it,
    both without raising. *)
Theorem get_changelog_truncated srv self w i good bad rest es e :
  heap w !! self = Some i → changelog i = None →
  srv (posts w) (key i) = good ++ bad :: rest →
  normalise_all good = Ok es →
  diff_to_changelog (diffs bad) = Raise e →
  ∃ w',
    Issue_get_changelog srv self false w = (Raise e, w')
    ∧ Issue_get_changelog srv self false w' = (Ok (Some es), w')
    ∧ Issue_has_changelog srv self w' = (Ok (bool_decide (0 < length es)%nat), w').
Proof.
  intros Hi Hcl Hsrv Hgood Hbad.
  set (i' := set_changelog (Some es) i).
  set (w' := {| heap := <[self := i']> (heap w); posts := posts w |}).
  assert (heap w' !! self = Some i') as Hi' by apply lookup_insert_eq.
  exists w'. split; [| split].
  - unfold Issue_get_changelog.
    rewrite (bind_Ok _ _ _ _ _ (deref_Some _ _ _ Hi)).
    rewrite Hcl. rewrite bool_decide_eq_true_2 by reflexivity. rewrite orb_true_r.
    apply bind_Raise.
    assert (fetch_changelog srv (key i) w = (Ok (good ++ bad :: rest), w)) as Hfetch
      by (unfold fetch_changelog; by rewrite Hsrv).
    rewrite (bind_Ok _ _ _ _ _ Hfetch).
    erewrite (bind_Ok _ _ _ tt); [| reflexivity].
    rewrite for_each_app.
    erewrite for_each_normalise_append;
      [| cbn; apply lookup_insert_eq | reflexivity | exact Hgood].
    cbn [for_each heap posts]. rewrite insert_insert_eq.
    unfold bind at 1. unfold bind at 1. unfold lift at 1. rewrite Hbad. reflexivity.
  - by apply Issue_get_changelog_cached with (i := i').
  - by apply Issue_has_changelog_cached with (i := i').
Qed.

Lemma get_changelog_truncated_witness :
  ∃ w',
    Issue_get_changelog
      (λ _ _, [RawLog "2020-01-02T10:00:00+0000"
                 [mk_diff [("key", "severity"); ("newValue", "MAJOR")]];
               RawLog "2020-01-03T10:00:00+0000" [diff_unassign_john]])
      loc_T false sample_world = (Raise (KeyError "newValue"), w')
    ∧ Issue_has_changelog
        (λ _ _, [RawLog "2020-01-02T10:00:00+0000"
                   [mk_diff [("key", "severity"); ("newValue", "MAJOR")]];
                 RawLog "2020-01-03T10:00:00+0000" [diff_unassign_john]])
        loc_T w' = (Ok true, w').
Proof.
  destruct (get_changelog_truncated
              (λ _ _, [RawLog "2020-01-02T10:00:00+0000"
                         [mk_diff [("key", "severity"); ("newValue", "MAJOR")]];
                       RawLog "2020-01-03T10:00:00+0000" [diff_unassign_john]])
              loc_T sample_world issue_T
              [RawLog "2020-01-02T10:00:00+0000"
                 [mk_diff [("key", "severity"); ("newValue", "MAJOR")]]]
              (RawLog "2020-01-03T10:00:00+0000" [diff_unassign_john]) []
              [Entry "2020-01-02T10:00:00+0000" "severity" (Some "MAJOR")]
              (KeyError "newValue") eq_refl eq_refl eq_refl eq_refl eq_refl)
    as (w' & H1 & _ & H3).
  exists w'. split; [exact H1 | exact H3].
Defined.

(** X7: [get_changelog(force_api=True)] does not look at the cache:
    whatever the cached changelog holds (for instance the comments left
    there by [get_all_events]), it is replaced by the normalised answer
    of the server, which is returned, and no request is sent. *)
Theorem get_changelog_forced srv self w i es :
  heap w !! self = Some i →
  normalise_all (srv (posts w) (key i)) = Ok es →
  ∃ w',
    Issue_get_changelog srv self true w = (Ok (Some es), w')
    ∧ heap w' = <[self := set_changelog (Some es) i]> (heap w)
    ∧ posts w' = posts w
    ∧ Issue_has_changelog srv self w' = (Ok (bool_decide (0 < length es)%nat), w').
Proof.
  intros Hi Hn. eexists. split; [| split; [| split]].
  - apply (Issue_get_changelog_fetch srv self true w i es Hi); [by left | done].
  - reflexivity.
  - reflexivity.
  - apply Issue_has_changelog_cached with (i := set_changelog (Some es) i);
      [apply lookup_insert_eq | reflexivity].
Qed.

Lemma get_changelog_forced_witness :
  ∃ w3 w4,
    (Issue_get_all_events sample_server loc_C false sample_world).2 = w3
    ∧ Issue_has_changelog sample_server loc_C w3 = (Ok true, w3)
    ∧ Issue_get_changelog sample_server loc_C true w3 = (Ok (Some []), w4)
    ∧ Issue_has_changelog sample_server loc_C w4 = (Ok false, w4).
Proof.
  eexists. 
  destruct (get_changelog_forced sample_server loc_C
              (Issue_get_all_events sample_server loc_C false sample_world).2
              _ [] eq_refl eq_refl) as (w4 & H1 & _ & _ & H2).
  exists w4. split; [reflexivity |]. split; [reflexivity |]. split; assumption.
Defined.

(** X8: [get_comments] on an issue object of the store sends no
    request and depends on [self.json] only. On an object that was built
    and not fed ([self.json] is [None]) it raises TypeError and changes
    nothing. On an object that was fed it returns: the empty list when
    the issue record has no comments member, the cached list when there
    is one, and otherwise one comment event per comment of the record,
    in the order of the record, dated by its creation date and valued by
    its markdown text; a second call then answers the same list and
    changes nothing. *)
Theorem get_comments_answers self w i :
  heap w !! self = Some i →
  (json i = None → Issue_get_comments self w = (Raise TypeError, w))
  ∧ (∀ record, json i = Some record →
       ∃ cm w',
         Issue_get_comments self w = (Ok (Some cm), w')
         ∧ posts w' = posts w
         ∧ (json_comments record = None → cm = [])
         ∧ (∀ cs, json_comments record = Some cs → comments i = None →
              cm = (λ c, Entry (createdAt c) "comment" (Some (markdown c))) <$> cs)
         ∧ (∀ cs cached, json_comments record = Some cs → comments i = Some cached →
              cm = cached)
         ∧ Issue_get_comments self w' = (Ok (Some cm), w')).
Proof.
  intros Hi. split; [by apply Issue_get_comments_unfed |].
  intros record Hrec.
  assert (fed i) as Hfed by (by exists record).
  do 2 eexists.
  split; [apply (Issue_get_comments_exact self w i Hi Hfed) |].
  split; [reflexivity |].
  split; [by unfold comment_events; rewrite Hrec; intros -> |].
  split; [by unfold comment_events; rewrite Hrec; intros cs -> -> |].
  split; [by unfold comment_events; rewrite Hrec; intros cs cached -> -> |].
  set (i' := set_comments (Some (comment_events i)) i).
  assert (comment_events i' = comment_events i) as Hce.
  { unfold i', comment_events. cbn. rewrite Hrec.
    destruct (json_comments record); [destruct (comments i) |]; reflexivity. }
  erewrite Issue_get_comments_exact; [| cbn; apply lookup_insert_eq | exact Hfed].
  fold i'. rewrite Hce. cbn [heap posts]. rewrite insert_insert_eq. reflexivity.
Qed.

Lemma get_comments_answers_witness :
  (∃ w',
     Issue_get_comments loc_C sample_world
     = (Ok (Some [Entry "2020-02-01T09:00:00+0000" "comment" (Some "please fix")]), w')
     ∧ Issue_get_comments loc_C w'
       = (Ok (Some [Entry "2020-02-01T09:00:00+0000" "comment" (Some "please fix")]), w'))
  ∧ Issue_get_comments loc_N unfed_world = (Raise TypeError, unfed_world).
Proof.
  split.
  - destruct (get_comments_answers loc_C sample_world issue_C eq_refl) as [_ Hfed].
    destruct (Hfed _ eq_refl) as (cm & w' & H1 & _ & _ & H2 & _ & H3).
    rewrite (H2 _ eq_refl eq_refl) in H1, H3. by exists w'.
  - destruct (get_comments_answers loc_N unfed_world _ eq_refl) as [Hunfed _].
    by apply Hunfed.
Defined.

(** X9: the elements of the cached changelog have no diffs member, so
    [__has_been_marked_as_statuses__] (and with it
    [has_been_marked_as_wont_fix] and [has_been_marked_as_false_positive])
    answers False on an issue whose changelog is empty and raises
    KeyError on every issue whose changelog is not. *)
Theorem has_been_marked_on_changelog srv self statuses w cl w1 :
  Issue_get_changelog srv self false w = (Ok (Some cl), w1) →
  (cl = [] →
   Issue_has_been_marked_as_statuses srv self statuses w = (Ok false, w1)
   ∧ Issue_has_been_marked_as_wont_fix srv self w = (Ok false, w1)
   ∧ Issue_has_been_marked_as_false_positive srv self w = (Ok false, w1))
  ∧ (cl ≠ [] →
     Issue_has_been_marked_as_statuses srv self statuses w = (Raise (KeyError "diffs"), w1)
     ∧ Issue_has_been_marked_as_wont_fix srv self w = (Raise (KeyError "diffs"), w1)
     ∧ Issue_has_been_marked_as_false_positive srv self w
       = (Raise (KeyError "diffs"), w1)).
Proof.
  intros Hcl.
  unfold Issue_has_been_marked_as_wont_fix, Issue_has_been_marked_as_false_positive,
    Issue_has_been_marked_as_statuses.
  rewrite !(bind_Ok _ _ _ _ _ Hcl). cbn [as_list]. unfold ret, bind, lift.
  split.
  - intros ->. by repeat split.
  - intros Hne. destruct cl as [| log cl]; [done |]. by repeat split.
Qed.

Lemma has_been_marked_on_changelog_witness :
  (Issue_has_been_marked_as_wont_fix sample_server loc_T sample_world).1 = Ok false
  ∧ (Issue_has_been_marked_as_wont_fix sample_server loc_S sample_world).1
    = Raise (KeyError "diffs").
Proof.
  destruct (has_been_marked_on_changelog sample_server loc_T ["WONTFIX"] sample_world
              [] _ eq_refl) as [H1 _].
  destruct (has_been_marked_on_changelog sample_server loc_S ["WONTFIX"] sample_world
              [Entry "2020-01-02T10:00:00+0000" "severity" (Some "MAJOR")] _ eq_refl)
    as [_ H2].
  destruct (H1 eq_refl) as (_ & -> & _).
  destruct (H2 ltac:(discriminate)) as (_ & -> & _). by split.
Defined.

Lemma Issue_has_changelog_from_get srv self w cl w1 :
  Issue_get_changelog srv self false w = (Ok (Some cl), w1) →
  Issue_has_changelog srv self w = (Ok (bool_decide (0 < length cl)%nat), w1).
Proof.
  intros Hg.
  destruct (Issue_get_changelog_result _ _ _ _ _ _ Hg) as (i' & Hi' & Hc').
  unfold Issue_has_changelog.
  rewrite (bind_Ok _ _ _ _ _ Hg). cbn [as_list]. unfold ret at 1. unfold bind at 1.
  rewrite (bind_Ok _ _ _ _ _ (Issue_get_changelog_cached srv _ _ _ _ Hi' Hc')).
  reflexivity.
Qed.

Lemma by_date_empty events : by_date events = ∅ ↔ events = [].
Proof.
  split; [| by intros ->].
  intros H. destruct events as [| e events]; [done |].
  assert (date e ∈ dom (by_date (e :: events))) as Hin
    by (rewrite by_date_dom; set_solver).
  rewrite H, dom_empty_L in Hin. set_solver.
Qed.

(** X10: on an issue object that was fed, [has_changelog_or_comments]
    and [get_all_events] agree: once the changelog can be obtained, both
    return, and [has_changelog_or_comments] answers False exactly when
    the timeline built by [get_all_events(True)] is empty. On an object
    that was built and not fed they part: [get_all_events] raises
    TypeError in [get_comments], and so does [has_changelog_or_comments]
    when the changelog is empty, but with a changelog that is not empty
    [has_changelog_or_comments] answers True without reading the
    comments. *)
Theorem has_changelog_or_comments_timeline srv self w cl w1 i1 :
  Issue_get_changelog srv self false w = (Ok (Some cl), w1) →
  heap w1 !! self = Some i1 →
  (fed i1 →
   ∃ b w2 t w3,
     Issue_has_changelog_or_comments srv self w = (Ok b, w2)
     ∧ Issue_get_all_events srv self true w = (Ok t, w3)
     ∧ b = negb (timeline_empty t))
  ∧ (json i1 = None →
     Issue_get_all_events srv self true w = (Raise TypeError, w1)
     ∧ (cl = [] → Issue_has_changelog_or_comments srv self w = (Raise TypeError, w1))
     ∧ (cl ≠ [] → Issue_has_changelog_or_comments srv self w = (Ok true, w1))).
Proof.
  intros Hg Hi1.
  pose proof (Issue_has_changelog_from_get srv self w cl w1 Hg) as Hhc.
  split.
  - intros Hfed.
    pose proof (Issue_get_all_events_exact srv self true w cl w1 i1 Hg Hi1 Hfed) as Hev.
    unfold Issue_has_changelog_or_comments. rewrite (bind_Ok _ _ _ _ _ Hhc).
    destruct cl as [| e cl].
    + rewrite bool_decide_eq_false_2 by (cbn; lia).
      unfold Issue_has_comments.
      rewrite (bind_Ok _ _ _ _ _ (Issue_get_comments_exact self w1 i1 Hi1 Hfed)).
      do 4 eexists. split; [reflexivity |]. split; [exact Hev |].
      cbn [timeline_empty app].
      destruct (comment_events i1) as [| c cm].
      * rewrite bool_decide_eq_false_2 by (cbn; lia).
        by rewrite bool_decide_eq_true_2.
      * rewrite bool_decide_eq_true_2 by (cbn; lia).
        rewrite bool_decide_eq_false_2; [reflexivity |].
        by rewrite by_date_empty.
    + rewrite bool_decide_eq_true_2 by (cbn; lia).
      do 4 eexists. split; [reflexivity |]. split; [exact Hev |].
      cbn [timeline_empty]. rewrite bool_decide_eq_false_2; [reflexivity |].
      by rewrite by_date_empty.
  - intros Hnone.
    pose proof (Issue_get_comments_unfed self w1 i1 Hi1 Hnone) as Hgc.
    split; [| split].
    + unfold Issue_get_all_events.
      rewrite (bind_Ok _ _ _ _ _ Hg). cbn [as_list]. unfold ret at 1. unfold bind at 1.
      by rewrite (bind_Raise _ _ _ _ _ Hgc).
    + intros ->. unfold Issue_has_changelog_or_comments.
      rewrite (bind_Ok _ _ _ _ _ Hhc).
      rewrite bool_decide_eq_false_2 by (cbn; lia).
      unfold Issue_has_comments. by rewrite (bind_Raise _ _ _ _ _ Hgc).
    + intros Hne. unfold Issue_has_changelog_or_comments.
      rewrite (bind_Ok _ _ _ _ _ Hhc).
      rewrite bool_decide_eq_true_2; [reflexivity |].
      destruct cl; [done | cbn; lia].
Qed.

Lemma has_changelog_or_comments_timeline_witness :
  (∃ w2 t w3,
     Issue_has_changelog_or_comments sample_server loc_C sample_world = (Ok true, w2)
     ∧ Issue_get_all_events sample_server loc_C true sample_world = (Ok t, w3)
     ∧ timeline_empty t = false)
  ∧ ∃ w1,
      Issue_get_all_events sample_server loc_N true unfed_world = (Raise TypeError, w1)
      ∧ Issue_has_changelog_or_comments sample_server loc_N unfed_world
        = (Raise TypeError, w1).
Proof.
  split.
  - destruct (has_changelog_or_comments_timeline sample_server loc_C sample_world [] _ _
                eq_refl eq_refl) as [Hfed _].
    destruct (Hfed ltac:(by eexists)) as (b & w2 & t & w3 & H1 & H2 & H3).
    assert (b = true) as -> by (vm_compute in H1; congruence).
    exists w2, t, w3. split; [exact H1 |]. split; [exact H2 |].
    by destruct (timeline_empty t).
  - destruct (has_changelog_or_comments_timeline sample_server loc_N unfed_world [] _ _
                eq_refl eq_refl) as [_ Hunfed].
    destruct (Hunfed eq_refl) as (Hev & Hhc & _).
    eexists. split; [exact Hev | exact (Hhc eq_refl)].
Defined.

(** ** Matching *)

Lemma bool_decide_ne_sym {A} `{EqDecision A} (x y : A) :
  bool_decide (x ≠ y) = bool_decide (y ≠ x).
Proof. apply bool_decide_ext. split; intros H E; by apply H. Qed.

Lemma bool_decide_eq_sym {A} `{EqDecision A} (x y : A) :
  bool_decide (x = y) = bool_decide (y = x).
Proof. apply bool_decide_ext. split; by intros ->. Qed.

Lemma identical_to_check_sym a b ic :
  identical_to_check a b ic = identical_to_check b a ic.
Proof.
  unfold identical_to_check, same_general_attributes.
  rewrite (bool_decide_eq_sym (rule a)), (bool_decide_eq_sym (hash a)),
    (bool_decide_eq_sym (message a)), (bool_decide_ne_sym (component a)),
    (bool_decide_ne_sym (debt a)).
  by destruct (is_hotspot a), (is_hotspot b).
Qed.

Lemma Issue_identical_to_value la lb ic w a b :
  heap w !! la = Some a → heap w !! lb = Some b →
  ∃ w', Issue_identical_to la lb ic w = (Ok (identical_to_check a b ic), w')
        ∧ posts w' = posts w.
Proof.
  intros Ha Hb.
  destruct (Issue_identical_to_returns la lb ic w ltac:(eauto) ltac:(eauto))
    as (r & w' & Hr).
  exists w'. split; [| eapply Issue_identical_to_same_posts, Hr].
  rewrite Hr. f_equal. f_equal.
  unfold Issue_identical_to in Hr.
  rewrite (bind_Ok _ _ _ _ _ (deref_Some _ _ _ Ha)) in Hr.
  rewrite (bind_Ok _ _ _ _ _ (deref_Some _ _ _ Hb)) in Hr.
  destruct (identical_to_check a b ic); [| by injection Hr as <- _].
  apply bind_Ok_inv in Hr as (? & ? & _ & Hr).
  apply bind_Ok_inv in Hr as (? & ? & _ & Hr).
  by injection Hr as <- _.
Qed.

(** X11: matching does not depend on which issue is taken first: the
    score of [match] is the same both ways, and so is the answer of
    [identical_to], with or without the component. *)
Theorem matching_symmetric la lb ic w a b :
  heap w !! la = Some a → heap w !! lb = Some b →
  Issue_match a b = Issue_match b a
  ∧ (Issue_identical_to la lb ic w).1 = (Issue_identical_to lb la ic w).1.
Proof.
  intros Ha Hb. split.
  - unfold Issue_match.
    by rewrite (bool_decide_ne_sym (rule a)), (bool_decide_ne_sym (hash a)),
      (bool_decide_ne_sym (component a)), (bool_decide_ne_sym (message a)),
      (bool_decide_ne_sym (debt a)).
  - destruct (Issue_identical_to_value la lb ic w a b Ha Hb) as (w1 & -> & _).
    destruct (Issue_identical_to_value lb la ic w b a Hb Ha) as (w2 & -> & _).
    cbn. by rewrite identical_to_check_sym.
Qed.

Lemma matching_symmetric_witness :
  Issue_match issue_S issue_C = Issue_match issue_C issue_S
  ∧ (Issue_identical_to loc_S loc_C false sample_world).1
    = (Issue_identical_to loc_C loc_S false sample_world).1.
Proof. apply (matching_symmetric loc_S loc_C false sample_world); reflexivity. Defined.

(** X12: [identical_to] and [match] agree on full identity. Two issues
    that score 1 are identical for [identical_to] with the component
    compared; two issues that [identical_to] accepts with the component
    compared score at least 0.9, and score 1 when neither is a hotspot
    (the debt of a hotspot is not compared by [identical_to]); and what
    [identical_to] accepts with the component compared,
    [identical_to_except_comp] accepts too. *)
Theorem identical_to_and_match la lb w a b :
  heap w !! la = Some a → heap w !! lb = Some b →
  (num_eqb (Issue_match a b) (PInt 1) = true →
   (Issue_identical_to la lb false w).1 = Ok true)
  ∧ ((Issue_identical_to la lb false w).1 = Ok true →
     num_leb (PFloat 0.9) (Issue_match a b) = true
     ∧ (is_hotspot a = false → is_hotspot b = false → Issue_match a b = PInt 1)
     ∧ (Issue_identical_to_except_comp la lb w).1 = Ok true).
Proof.
  intros Ha Hb.
  destruct (Issue_identical_to_value la lb false w a b Ha Hb) as (w1 & -> & _).
  unfold Issue_identical_to_except_comp.
  destruct (Issue_identical_to_value la lb true w a b Ha Hb) as (w2 & -> & _).
  cbn [fst]. unfold identical_to_check, same_general_attributes, Issue_match.
  destruct (decide (rule a = rule b)) as [Hr | Hr];
  destruct (decide (hash a = hash b)) as [Hh | Hh];
  destruct (decide (message a = message b)) as [Hm | Hm];
  destruct (decide (component a = component b)) as [Hc | Hc];
  destruct (decide (debt a = debt b)) as [Hd | Hd];
  repeat first
    [ rewrite (bool_decide_eq_true_2 (_ = _)) by assumption
    | rewrite (bool_decide_eq_false_2 (_ = _)) by assumption
    | rewrite (bool_decide_eq_true_2 (_ ≠ _)) by assumption
    | rewrite (bool_decide_eq_false_2 (_ ≠ _)) by (intros ?; contradiction) ];
  destruct (is_hotspot a), (is_hotspot b); cbn;
  (split; [intros; congruence |]);
  intros; repeat split; congruence.
Qed.

Lemma identical_to_and_match_witness :
  Issue_match issue_S issue_C = PInt 1
  ∧ (Issue_identical_to_except_comp loc_S loc_C sample_world).1 = Ok true.
Proof.
  destruct (identical_to_and_match loc_S loc_C sample_world issue_S issue_C
              eq_refl eq_refl) as [H1 H2].
  destruct (H2 (H1 eq_refl)) as (_ & H3 & H4).
  split; [by apply H3 | exact H4].
Defined.

(** ** Siblings *)

(** X13: the siblings returned by [search_siblings] are all issues of the
    pool identical to the target (as [identical_to] tests it, with the
    component compared or not as asked), and when the only-new flag is
    off they are exactly the issues of the pool that are, in the order of
    the pool: none is left out. *)
Theorem search_siblings_identical srv an_issue pool only_new cc w sibs w' :
  search_siblings srv an_issue pool only_new cc w = (Ok sibs, w') →
  (∀ l, l ∈ sibs → l ∈ pool ∧ is_sibling w an_issue cc l = true)
  ∧ (only_new = false →
     sibs = filter (λ l, is_sibling w an_issue cc l = true) pool).
Proof.
  intros H.
  pose proof (search_siblings_loop_result _ _ _ _ _ _ _ _ _ H) as (ex & Hex & Hsub & _).
  apply search_siblings_loop_sibling in H as (extra & -> & Hall & Hfilter).
  cbn in *. subst ex. split; [| done].
  intros l Hl. split; [by eapply elem_of_sublist |].
  rewrite Forall_forall in Hall. by apply Hall.
Qed.

Lemma search_siblings_identical_witness :
  ∃ w',
    search_siblings sample_server loc_T [loc_S; loc_T; loc_C; loc_D] false true
      sample_world = (Ok [loc_S; loc_T; loc_C; loc_D], w')
    ∧ [loc_S; loc_T; loc_C; loc_D]
      = filter (λ l, is_sibling sample_world loc_T true l = true)
          [loc_S; loc_T; loc_C; loc_D].
Proof.
  eexists. split; [vm_compute; reflexivity |].
  eapply (search_siblings_identical sample_server loc_T [loc_S; loc_T; loc_C; loc_D]
            false true sample_world); [vm_compute; reflexivity | reflexivity].
Defined.

(** ** Replication on a target without changelog *)

Lemma Issue_has_changelog_inv srv self w b w1 :
  Issue_has_changelog srv self w = (Ok b, w1) →
  ∃ cl, Issue_get_changelog srv self false w = (Ok (Some cl), w1)
        ∧ b = bool_decide (0 < length cl)%nat.
Proof.
  intros H. pose proof H as H0. unfold Issue_has_changelog in H.
  apply bind_Ok_inv in H as (o1 & wa & Hg & H).
  apply bind_Ok_inv in H as (l1 & wa' & Ha & H).
  apply as_list_Ok_inv in Ha as [-> ->].
  exists l1. rewrite (Issue_has_changelog_from_get srv self w l1 wa Hg) in H0.
  injection H0 as <- <-. done.
Qed.

(** X14: on a target without changelog, a source that has neither
    changelog nor comments ([has_changelog_or_comments] answers False)
    makes [apply_changelog] return at once: nothing is raised and no
    request is sent, not even the introductory comment. *)
Theorem apply_changelog_nothing_to_apply srv tgt src w w1 w2 :
  Issue_has_changelog srv tgt w = (Ok false, w1) →
  Issue_has_changelog_or_comments srv src w1 = (Ok false, w2) →
  ∃ w3, apply_changelog srv tgt src w = (Ok tt, w3) ∧ posts w3 = posts w.
Proof.
  intros Hhc Hsrc.
  unfold Issue_has_changelog_or_comments in Hsrc.
  apply bind_Ok_inv in Hsrc as (hc & wa & Hh & Hrest).
  destruct (Issue_has_changelog_inv _ _ _ _ _ Hh) as (cl & Hg & ->).
  destruct cl as [| e cl]; [| discriminate Hrest].
  rewrite bool_decide_eq_false_2 in Hrest by (cbn; lia).
  destruct (Issue_get_changelog_result _ _ _ _ _ _ Hg) as (i1 & Hi1 & Hc1).
  unfold Issue_has_comments in Hrest.
  assert (fed i1) as Hfed.
  { pose proof Hrest as Hgc. apply bind_Ok_inv in Hgc as (cm0 & wb & Hgc & _).
    by eapply Issue_get_comments_fed. }
  rewrite (bind_Ok _ _ _ _ _ (Issue_get_comments_exact src wa i1 Hi1 Hfed)) in Hrest.
  cbn in Hrest.
  assert (comment_events i1 = []) as Hnone.
  { destruct (comment_events i1); [done | discriminate Hrest]. }
  pose proof (Issue_get_all_events_exact srv src true w1 [] wa i1 Hg Hi1 Hfed) as Hev.
  rewrite Hnone in Hev. cbn [app] in Hev.
  eexists. split.
  - unfold apply_changelog. rewrite (bind_Ok _ _ _ _ _ Hhc).
    rewrite (bind_Ok _ _ _ _ _ Hev). reflexivity.
  - pose proof (Issue_has_changelog_same_posts _ _ _ _ _ Hhc).
    pose proof (Issue_get_changelog_same_posts _ _ _ _ _ _ Hg).
    unfold same_posts in *. cbn. congruence.
Qed.

Lemma apply_changelog_nothing_to_apply_witness :
  ∃ w3, apply_changelog sample_server loc_C loc_T sample_world = (Ok tt, w3)
        ∧ posts w3 = [].
Proof.
  apply (apply_changelog_nothing_to_apply sample_server loc_C loc_T sample_world
           _ _ eq_refl eq_refl).
Defined.

Lemma comments_append_writes_only self e :
  preserves (writes_only self) (comments_append self e).
Proof. unfold comments_append. frame_with ltac:(apply store_writes_only). Qed.

Lemma Issue_get_all_events_writes_only srv self is_sorted :
  preserves (writes_only self) (Issue_get_all_events srv self is_sorted).
Proof.
  unfold Issue_get_all_events, Issue_get_comments.
  frame_with ltac:(first [apply store_writes_only
                         | apply Issue_get_changelog_writes_only
                         | apply changelog_append_writes_only
                         | apply comments_append_writes_only]).
Qed.

Lemma Issue_get_url_writes_only self : preserves (writes_only self) (Issue_get_url self).
Proof. unfold Issue_get_url. frame_with ltac:(apply store_writes_only). Qed.

Lemma Issue_get_all_events_inv srv self w t w' :
  Issue_get_all_events srv self true w = (Ok t, w') →
  ∃ i evs, heap w' !! self = Some i ∧ changelog i = Some evs
           ∧ t = ByDate (by_date evs) ∧ fed i.
Proof.
  intros H.
  destruct (Issue_get_all_events_Ok_inv _ _ _ _ _ _ H) as (cl & w1 & i1 & Hg & Hi1 & Hfed).
  pose proof (Issue_get_all_events_exact srv self true w cl w1 i1 Hg Hi1 Hfed) as Hex.
  rewrite H in Hex. injection Hex as -> ->.
  eexists _, _. split; [cbn; apply lookup_insert_eq |].
  split; [reflexivity |]. split; [reflexivity | exact Hfed].
Qed.

Lemma Issue_get_url_cached self w i u :
  heap w !! self = Some i → url i = Some u → Issue_get_url self w = (Ok u, w).
Proof.
  intros Hi Hu. unfold Issue_get_url.
  rewrite (bind_Ok _ _ _ _ _ (deref_Some _ _ _ Hi)). by rewrite Hu.
Qed.

(** After [get_url] the URL returned is cached, and the cached changelog
    is the one from before. *)
Lemma Issue_get_url_result self w i u w' :
  heap w !! self = Some i → Issue_get_url self w = (Ok u, w') →
  ∃ i', heap w' !! self = Some i' ∧ url i' = Some u ∧ changelog i' = changelog i
        ∧ json i' = json i.
Proof.
  intros Hi. unfold Issue_get_url.
  rewrite (bind_Ok _ _ _ _ _ (deref_Some _ _ _ Hi)).
  destruct (url i) as [u0 |] eqn:Hu.
  - intros [= <- <-]. eauto.
  - cbn. intros [= <- <-]. eexists. split; [apply lookup_insert_eq |]. done.
Qed.

(** X15: the replication is not one-shot on a target that had no
    changelog. The guard reads the cache of the target object, which the
    first call left empty, so a second call of [apply_changelog] with the
    same objects goes through again: the introductory comment is posted
    a second time on the target (and the call stops on the same
    AttributeError). *)
Theorem apply_changelog_twice srv tgt src w w1 t w2 :
  tgt ≠ src →
  Issue_has_changelog srv tgt w = (Ok false, w1) →
  Issue_get_all_events srv src true w1 = (Ok t, w2) →
  timeline_empty t = false →
  ∃ rq w3 w4,
    apply_changelog srv tgt src w = (Raise (AttributeError "iterkeys"), w3)
    ∧ posts w3 = posts w ++ [rq]
    ∧ api rq = "issues/add_comment"
    ∧ apply_changelog srv tgt src w3 = (Raise (AttributeError "iterkeys"), w4)
    ∧ posts w4 = posts w ++ [rq; rq].
Proof.
  intros Hne Hhc Hev Hnon.
  destruct (apply_changelog_ready _ _ _ _ _ _ _ Hhc Hev) as (u & w2' & it & Hurl & Hit).
  pose proof (apply_changelog_run _ _ _ _ _ _ _ _ _ _ Hhc Hev Hnon Hurl Hit) as Hrun.
  pose proof (Issue_has_changelog_same_posts _ _ _ _ _ Hhc) as Hp1.
  pose proof (Issue_get_all_events_same_posts _ _ _ _ _ _ Hev) as Hp2.
  pose proof (Issue_get_url_same_posts _ _ _ _ Hurl) as Hp3.
  unfold same_posts in *.
  set (rq := Post "issues/add_comment"
               [("issue", Some (key it));
                ("text", Some ("Synchronized from [this original issue](" +:+ u +:+ ")"))])
    in *.
  set (w3 := {| heap := heap w2'; posts := posts w2' ++ [rq] |}) in *.
  (* the target: its cache is still empty *)
  destruct (Issue_has_changelog_result _ _ _ _ _ Hhc) as (i1 & cl & Hi1 & Hcl1 & Hb).
  assert (cl = []) as ->.
  { symmetry in Hb. apply bool_decide_eq_false in Hb.
    destruct cl; [done | cbn in Hb; lia]. }
  assert (heap w2' !! tgt = Some i1) as Hit1.
  { rewrite (Issue_get_url_writes_only _ _ _ _ Hurl tgt Hne).
    by rewrite (Issue_get_all_events_writes_only _ _ _ _ _ _ Hev tgt Hne). }
  assert (it = i1) as -> by congruence.
  assert (Issue_has_changelog srv tgt w3 = (Ok false, w3)) as Hhc3
    by (rewrite (Issue_has_changelog_cached srv tgt w3 i1 [] Hit Hcl1); done).
  (* the source: its cached changelog is the list of events of the timeline *)
  destruct (Issue_get_all_events_inv _ _ _ _ _ Hev) as (i2 & evs & Hi2 & Hc2 & -> & Hf2).
  destruct (Issue_get_url_result _ _ _ _ _ Hi2 Hurl) as (i3 & Hi3 & Hu3 & Hc3 & Hj3).
  rewrite Hc2 in Hc3.
  assert (fed i3) as Hf3 by (unfold fed; by rewrite Hj3).
  assert (evs ≠ []) as Hevs.
  { intros ->. cbn in Hnon. by rewrite bool_decide_eq_true_2 in Hnon. }
  pose proof (Issue_get_all_events_exact srv src true w3 evs w3 i3
                (Issue_get_changelog_cached srv src w3 i3 evs Hi3 Hc3) Hi3 Hf3) as Hev3.
  set (i4 := set_changelog (Some (evs ++ comment_events i3))
               (set_comments (Some (comment_events i3)) i3)) in *.
  set (w4 := {| heap := <[src := i4]> (heap w3); posts := posts w3 |}) in *.
  assert (Issue_get_url src w4 = (Ok u, w4)) as Hurl4
    by (apply Issue_get_url_cached with (i := i4); [apply lookup_insert_eq | exact Hu3]).
  assert (heap w4 !! tgt = Some i1) as Hit4
    by (cbn; by rewrite lookup_insert_ne).
  assert (timeline_empty (ByDate (by_date (evs ++ comment_events i3))) = false) as Hnon4.
  { cbn. apply bool_decide_eq_false_2. rewrite by_date_empty.
    intros [? _]%app_eq_nil. done. }
  pose proof (apply_changelog_run srv tgt src w3 w3 _ w4 u w4 i1
                Hhc3 Hev3 Hnon4 Hurl4 Hit4) as Hrun2.
  exists rq, w3. eexists. split; [exact Hrun |]. split; [cbn; congruence |].
  split; [reflexivity |]. split; [exact Hrun2 |].
  cbn. rewrite <- app_assoc. cbn. f_equal. congruence.
Qed.

Lemma apply_changelog_twice_witness :
  ∃ rq w3 w4,
    apply_changelog sample_server loc_T loc_S sample_world
      = (Raise (AttributeError "iterkeys"), w3)
    ∧ apply_changelog sample_server loc_T loc_S w3
      = (Raise (AttributeError "iterkeys"), w4)
    ∧ posts w4 = [rq; rq].
Proof.
  destruct (apply_changelog_twice sample_server loc_T loc_S sample_world _ _ _
              ltac:(discriminate) eq_refl eq_refl eq_refl)
    as (rq & w3 & w4 & H1 & _ & _ & H2 & H3).
  by exists rq, w3, w4.
Defined.

(** ** Timestamps of the CSV projection *)

Lemma free_of_cons chars c s :
  free_of chars (String c s) = true →
  (∀ x, x ∈ chars → Ascii.eqb c x = false) ∧ free_of chars s = true.
Proof.
  cbn [free_of]. intros [Hc Hs]%andb_prop. split; [| done].
  intros x Hx. apply negb_true_iff in Hc.
  destruct (Ascii.eqb c x) eqn:E; [| done].
  rewrite <- Hc. symmetry. apply existsb_exists. exists x.
  split; [by apply list_elem_of_In | done].
Qed.

Lemma free_of_app chars a b :
  free_of chars a = true → free_of chars b = true → free_of chars (a +:+ b) = true.
Proof.
  induction a as [| c a IH]; [done |].
  intros Ha Hb. rewrite append_cons. cbn [free_of] in *.
  apply andb_prop in Ha as [Hc Ha]. by rewrite Hc, IH.
Qed.

Lemma free_of_weaken chars chars' s :
  chars' ⊆ chars → free_of chars s = true → free_of chars' s = true.
Proof.
  intros Hsub. induction s as [| c s IH]; [done |].
  intros [Hc Hs]%free_of_cons. cbn [free_of]. rewrite IH by done.
  rewrite andb_true_r. apply negb_true_iff.
  destruct (existsb (Ascii.eqb c) chars') eqn:E; [| done].
  apply existsb_exists in E as (x & Hx%list_elem_of_In & E).
  rewrite Hc in E; [done | by apply Hsub].
Qed.

Lemma re_split_free sep s : free_of [sep] s = true → re_split sep s = [s].
Proof.
  induction s as [| c s IH]; [done |].
  intros [Hc Hs]%free_of_cons. cbn [re_split].
  rewrite Hc by set_solver. by rewrite IH.
Qed.

Lemma before_first_free ch s : free_of [ch] s = true → before_first ch s = s.
Proof.
  induction s as [| c s IH]; [done |].
  intros [Hc Hs]%free_of_cons. cbn [before_first].
  rewrite Hc by set_solver. by rewrite IH.
Qed.

Lemma before_first_app ch a b :
  free_of [ch] a = true → before_first ch (a +:+ String ch b) = a.
Proof.
  induction a as [| c a IH].
  - intros _. rewrite append_nil_l. cbn. by rewrite Ascii.eqb_refl.
  - intros [Hc Hs]%free_of_cons. rewrite append_cons. cbn [before_first].
    rewrite Hc by set_solver. by rewrite IH.
Qed.

Lemma after_last_free ch s : free_of [ch] s = true → after_last ch s = None.
Proof.
  induction s as [| c s IH]; [done |].
  intros [Hc Hs]%free_of_cons. cbn [after_last].
  rewrite IH by done. by rewrite Hc by set_solver.
Qed.

Lemma after_last_app ch a b :
  free_of [ch] b = true → after_last ch (a +:+ String ch b) = Some b.
Proof.
  intros Hb. induction a as [| c a IH].
  - rewrite append_nil_l. cbn [after_last].
    rewrite after_last_free by done. by rewrite Ascii.eqb_refl.
  - rewrite append_cons. cbn [after_last]. by rewrite IH.
Qed.

Lemma re_sub_from_free ch s :
  free_of [ch; newline] s = true → re_sub_from ch s = s.
Proof.
  intros H. unfold re_sub_from.
  rewrite re_split_free by (eapply free_of_weaken; [| done]; set_solver).
  cbn. apply before_first_free. eapply free_of_weaken; [| done]. set_solver.
Qed.

Lemma re_sub_from_app ch a b :
  Ascii.eqb ch newline = false →
  free_of [ch; newline] a = true → free_of [newline] b = true →
  re_sub_from ch (a +:+ String ch b) = a.
Proof.
  intros Hch Ha Hb. unfold re_sub_from. rewrite re_split_free.
  - cbn. apply before_first_app. eapply free_of_weaken; [| done]. set_solver.
  - apply free_of_app; [eapply free_of_weaken; [| done]; set_solver |].
    cbn [free_of existsb]. by rewrite Hch, Hb.
Qed.

Lemma re_sub_upto_free ch s :
  free_of [ch; newline] s = true → re_sub_upto ch s = s.
Proof.
  intros H. unfold re_sub_upto.
  rewrite re_split_free by (eapply free_of_weaken; [| done]; set_solver).
  cbn. rewrite after_last_free; [done |]. eapply free_of_weaken; [| done]. set_solver.
Qed.

Lemma re_sub_upto_app ch a b :
  Ascii.eqb ch newline = false →
  free_of [newline] a = true → free_of [ch; newline] b = true →
  re_sub_upto ch (a +:+ String ch b) = b.
Proof.
  intros Hch Ha Hb. unfold re_sub_upto. rewrite re_split_free.
  - cbn. rewrite after_last_app; [done |]. eapply free_of_weaken; [| done]. set_solver.
  - apply free_of_app; [done |]. cbn [free_of existsb].
    rewrite Hch. cbn. eapply free_of_weaken; [| exact Hb]. set_solver.
Qed.

(** The two columns [to_csv] cuts out of a timestamp. *)
Lemma csv_stamp_plus D t z :
  free_of ["T"; newline]%char D = true →
  free_of ["T"; "+"; newline]%char t = true →
  free_of ["T"; newline]%char z = true →
  let stamp := D +:+ "T" +:+ t +:+ "+" +:+ z in
  re_sub_from "T" stamp = D ∧ re_sub_from "+" (re_sub_upto "T" stamp) = t.
Proof.
  intros HD Ht Hz stamp. subst stamp.
  assert (free_of [newline] z = true) as Hzn
    by (eapply free_of_weaken; [| exact Hz]; set_solver).
  assert (free_of [newline] t = true) as Htn
    by (eapply free_of_weaken; [| exact Ht]; set_solver).
  change ("T" +:+ t +:+ "+" +:+ z) with (String "T" (t +:+ String "+" z)).
  split.
  - apply re_sub_from_app; [reflexivity | done |].
    apply free_of_app; [done |]. cbn [free_of existsb]. by rewrite Hzn.
  - rewrite re_sub_upto_app.
    + apply re_sub_from_app; [reflexivity | | done].
      eapply free_of_weaken; [| exact Ht]. set_solver.
    + reflexivity.
    + eapply free_of_weaken; [| exact HD]. set_solver.
    + apply free_of_app; [eapply free_of_weaken; [| exact Ht]; set_solver |].
      cbn [free_of existsb]. by rewrite Hz.
Qed.

Lemma csv_stamp_no_plus D r :
  free_of ["T"; newline]%char D = true →
  free_of ["T"; "+"; newline]%char r = true →
  let stamp := D +:+ "T" +:+ r in
  re_sub_from "T" stamp = D ∧ re_sub_from "+" (re_sub_upto "T" stamp) = r.
Proof.
  intros HD Hr stamp. subst stamp.
  change ("T" +:+ r) with (String "T" r).
  split.
  - apply re_sub_from_app; [reflexivity | done |].
    eapply free_of_weaken; [| exact Hr]. set_solver.
  - rewrite re_sub_upto_app.
    + apply re_sub_from_free. eapply free_of_weaken; [| exact Hr]. set_solver.
    + reflexivity.
    + eapply free_of_weaken; [| exact HD]. set_solver.
    + eapply free_of_weaken; [| exact Hr]. set_solver.
Qed.

Lemma csv_stamp_no_T s :
  free_of ["T"; "+"; newline]%char s = true →
  re_sub_from "T" s = s ∧ re_sub_from "+" (re_sub_upto "T" s) = s.
Proof.
  intros Hs. split.
  - apply re_sub_from_free. eapply free_of_weaken; [| exact Hs]. set_solver.
  - rewrite re_sub_upto_free by (eapply free_of_weaken; [| exact Hs]; set_solver).
    apply re_sub_from_free. eapply free_of_weaken; [| exact Hs]. set_solver.
Qed.

(** X16: for a timestamp written date, T, time, +, offset (the date
    without T, the time without T or +, all on one line), [to_csv] puts
    the date in the date column and the time without the offset in the
    time column; this holds for the creation date (columns 5 and 6) and
    for the modification date (columns 7 and 8). *)
Theorem to_csv_timestamp get_name self msg D t z :
  message self = Some msg →
  free_of ["T"; newline]%char D = true →
  free_of ["T"; "+"; newline]%char t = true →
  free_of ["T"; newline]%char z = true →
  ∃ fields,
    to_csv_fields get_name self = Ok fields
    ∧ (creation_date self = D +:+ "T" +:+ t +:+ "+" +:+ z →
       fields !! 5%nat = Some D ∧ fields !! 6%nat = Some t)
    ∧ (modification_date self = D +:+ "T" +:+ t +:+ "+" +:+ z →
       fields !! 7%nat = Some D ∧ fields !! 8%nat = Some t).
Proof.
  intros Hmsg HD Ht Hz. unfold to_csv_fields. rewrite Hmsg.
  eexists. split; [reflexivity |].
  destruct (csv_stamp_plus D t z HD Ht Hz) as [H1 H2].
  cbn [lookup list_lookup].
  split; intros ->; by rewrite H1, H2.
Qed.

Lemma to_csv_timestamp_witness :
  ∃ fields,
    to_csv_fields (λ p _, p) issue_csv = Ok fields
    ∧ fields !! 5%nat = Some "2020-01-01" ∧ fields !! 6%nat = Some "10:20:30".
Proof.
  destruct (to_csv_timestamp (λ p _, p) issue_csv _ "2020-01-01" "10:20:30" "0100"
              eq_refl eq_refl eq_refl eq_refl) as (fields & Hf & Hc & _).
  exists fields. split; [exact Hf |]. apply Hc. reflexivity.
Defined.


(** X17: [to_csv] strips an offset only when it starts with +. For a
    timestamp written date, T, rest, where the rest has no + (a negative
    offset such as -0500, a Z suffix, or no offset at all), the whole
    rest goes to the time column; for a timestamp without T (a bare
    date) the date column and the time column both receive the whole
    timestamp. *)
Theorem to_csv_offset_kept get_name self msg :
  message self = Some msg →
  ∃ fields,
    to_csv_fields get_name self = Ok fields
    ∧ (∀ D r,
         free_of ["T"; newline]%char D = true →
         free_of ["T"; "+"; newline]%char r = true →
         (creation_date self = D +:+ "T" +:+ r →
          fields !! 5%nat = Some D ∧ fields !! 6%nat = Some r)
         ∧ (modification_date self = D +:+ "T" +:+ r →
            fields !! 7%nat = Some D ∧ fields !! 8%nat = Some r))
    ∧ (∀ s,
         free_of ["T"; "+"; newline]%char s = true →
         (creation_date self = s →
          fields !! 5%nat = Some s ∧ fields !! 6%nat = Some s)
         ∧ (modification_date self = s →
            fields !! 7%nat = Some s ∧ fields !! 8%nat = Some s)).
Proof.
  intros Hmsg. unfold to_csv_fields. rewrite Hmsg.
  eexists. split; [reflexivity |]. cbn [lookup list_lookup]. split.
  - intros D r HD Hr. destruct (csv_stamp_no_plus D r HD Hr) as [H1 H2].
    split; intros ->; by rewrite H1, H2.
  - intros s Hs. destruct (csv_stamp_no_T s Hs) as [H1 H2].
    split; intros ->; by rewrite H1, H2.
Qed.

Lemma to_csv_offset_kept_witness :
  ∃ fields,
    to_csv_fields (λ p _, p) issue_csv_west = Ok fields
    ∧ fields !! 5%nat = Some "2020-01-01" ∧ fields !! 6%nat = Some "10:20:30-0500"
    ∧ fields !! 7%nat = Some "2020-02-03" ∧ fields !! 8%nat = Some "2020-02-03".
Proof.
  destruct (to_csv_offset_kept (λ p _, p) issue_csv_west _ eq_refl)
    as (fields & Hf & Hoff & Hbare).
  destruct (Hoff "2020-01-01" "10:20:30-0500" eq_refl eq_refl) as [Hc _].
  destruct (Hbare "2020-02-03" eq_refl) as [_ Hm].
  exists fields. split; [exact Hf |].
  destruct (Hc eq_refl) as [? ?]. destruct (Hm eq_refl) as [? ?]. done.
Defined.

(** ** Windows and days of the search *)

Section WindowerMore.

Context {Iss : Type}.
Variable format_date : Z → string.
Variable strptime : string → outcome Z.
Variable get_oldest_issue get_newest_issue : gmap string string → option string.
Variable get_number_of_issues : gmap string string → Z.
Variable search_all_issues : nat → gmap string string → list Iss.

(** The first window reaches past the newest issue when the project is
    not sliced. *)
Lemma whole_span_covers startdate enddate :
  startdate ≤ enddate →
  enddate < startdate + timedelta_days (days_between enddate startdate + 1).
Proof.
  intros Hle. unfold timedelta_days, days_between, seconds_per_day.
  pose proof (Z.mod_pos_bound (enddate - startdate) 86400 ltac:(lia)).
  pose proof (Z.div_mod (enddate - startdate) 86400 ltac:(lia)). lia.
Qed.

Lemma initial_days_slice_whole startdate enddate nbr :
  startdate ≤ enddate → nbr ≤ MAX_ISSUE_SEARCH →
  initial_days_slice startdate enddate nbr = days_between enddate startdate + 1.
Proof.
  intros Hle Hn. unfold initial_days_slice.
  destruct (Z.ltb_spec MAX_ISSUE_SEARCH nbr); [lia |].
  assert (0 ≤ days_between enddate startdate); [| lia].
  unfold days_between, seconds_per_day. apply Z.div_pos; lia.
Qed.

End WindowerMore.

(** X18: a project with at most 10000 issues is read in one search. When
    the count of the project does not exceed [MAX_ISSUE_SEARCH] and the
    search from the oldest issue over the whole span (the days between
    the oldest and the newest issue, plus one) answers fewer than 10000
    issues, [search_project_issues] makes this search only and returns
    its answer as it is. *)
Theorem search_project_issues_single_search {Iss : Type}
    (format_date : Z → string) (strptime : string → outcome Z)
    (get_oldest_issue get_newest_issue : gmap string string → option string)
    (get_number_of_issues : gmap string string → Z)
    (search_all_issues : nat → gmap string string → list Iss)
    (key : string) (kwargs : gmap string string) (clock : nat)
    (oldest newest : string) (startdate enddate : Z) :
  let kw := <["componentKeys" := key]> kwargs in
  let query :=
    <["createdBefore" :=
        format_date (startdate + timedelta_days (days_between enddate startdate + 1))]>
      (<["createdAfter" := format_date startdate]> kw) in
  get_oldest_issue kw = Some oldest → strptime oldest = Ok startdate →
  get_newest_issue kw = Some newest → strptime newest = Ok enddate →
  startdate ≤ enddate →
  get_number_of_issues kw ≤ MAX_ISSUE_SEARCH →
  Z.of_nat (length (search_all_issues clock query)) < MAX_ISSUE_SEARCH →
  ∀ fuel inner, (2 ≤ fuel)%nat → (1 ≤ inner)%nat →
    search_project_issues format_date strptime get_oldest_issue get_newest_issue
      get_number_of_issues search_all_issues fuel inner key kwargs clock
    = Some (Ok (search_all_issues clock query), S clock).
Proof.
  intros kw query Ho Hs Hn He Hle Hnbr Hfound fuel inner Hfuel Hinner.
  unfold search_project_issues. fold kw. rewrite Ho, Hs, Hn, He.
  rewrite (initial_days_slice_whole _ _ _ Hle Hnbr).
  destruct fuel as [| [| fuel]]; [lia | lia |].
  destruct inner as [| inner]; [lia |].
  cbn [window_loop]. destruct (Z.leb_spec startdate enddate); [| lia].
  cbn [slice_loop]. unfold slice_body. fold query.
  destruct (Z.ltb_spec (Z.of_nat (length (search_all_issues clock query))) MAX_ISSUE_SEARCH);
    [| lia].
  pose proof (whole_span_covers startdate enddate Hle).
  destruct (Z.leb_spec (startdate + timedelta_days (days_between enddate startdate + 1)
                        + timedelta_days 1) enddate) as [Hbad |]; [| reflexivity].
  unfold timedelta_days, seconds_per_day in *. lia.
Qed.

Lemma search_project_issues_single_search_witness :
  search_project_issues sample_format_date sample_strptime
    (λ _, Some "oldest") (λ _, Some "newest") (λ _, 100) sample_search
    2 1 "proj" ∅ 2%nat
  = Some (Ok [2%nat], 3%nat).
Proof.
  apply (search_project_issues_single_search sample_format_date sample_strptime
           (λ _, Some "oldest") (λ _, Some "newest") (λ _, 100) sample_search
           "proj" ∅ 2%nat "oldest" "newest" 0 (8 * 86400)
           eq_refl eq_refl eq_refl eq_refl ltac:(lia) ltac:(unfold MAX_ISSUE_SEARCH; lia)
           ltac:(vm_compute; reflexivity) 2%nat 1%nat (le_n _) (le_n _)).
Defined.

(** X19: the search of a day asks once for each severity and each type.
    [search_project_daily_issues] makes as many searches as there are
    pairs of a severity and a type (20 when the caller names neither);
    when the caller names both, the searches are made in the order of
    the two lists, the types changing faster, each on the given day for
    the given project with one severity and one type, and the answers
    are returned one after the other. *)
Theorem search_project_daily_issues_searches {Iss : Type}
    (search_all_issues : nat → gmap string string → list Iss)
    (key day : string) (kwargs : gmap string string) (clock : nat) :
  let severities :=
    match kwargs !! "severities" with
    | None => ["INFO"; "MINOR"; "MAJOR"; "CRITICAL"; "BLOCKER"]
    | Some s => re_split "," s
    end in
  let types :=
    match kwargs !! "types" with
    | None => ["CODE_SMELL"; "VULNERABILITY"; "BUG"; "SECURITY_HOTSPOT"]
    | Some s => re_split "," s
    end in
  (search_project_daily_issues search_all_issues key day kwargs clock).2
  = (clock + length severities * length types)%nat
  ∧ (kwargs !! "severities" = None → kwargs !! "types" = None →
     (search_project_daily_issues search_all_issues key day kwargs clock).2
     = (clock + 20)%nat)
  ∧ (∀ ss ts,
       kwargs !! "severities" = Some ss → kwargs !! "types" = Some ts →
       (search_project_daily_issues search_all_issues key day kwargs clock).1
       = run_queries search_all_issues
           (daily_queries (daily_base key day kwargs) (re_split "," ss) (re_split "," ts))
           clock).
Proof.
  intros severities types.
  pose proof (search_project_daily_issues_run search_all_issues key day kwargs clock) as Hrun.
  cbn zeta in Hrun. fold severities types in Hrun. rewrite Hrun. cbn [fst snd].
  rewrite daily_queries_length. split; [reflexivity |]. split.
  - intros Hs Ht. subst severities types. rewrite Hs, Ht. reflexivity.
  - intros ss ts Hs Ht. subst severities types. rewrite Hs, Ht. reflexivity.
Qed.

Lemma search_project_daily_issues_searches_witness :
  search_project_daily_issues sample_search "proj" "2020-01-01" ∅ 7%nat
  = ([7; 8; 9; 10; 11; 12; 13; 14; 15; 16; 17; 18; 19; 20; 21; 22; 23; 24; 25; 26]%nat,
     27%nat)
  ∧ (search_project_daily_issues sample_search "proj" "2020-01-01"
       {["severities" := "MAJOR,MINOR"; "types" := "BUG"]} 7%nat).1
    = [7; 8]%nat.
Proof.
  destruct (search_project_daily_issues_searches sample_search "proj" "2020-01-01" ∅ 7%nat)
    as (_ & H20 & _).
  destruct (search_project_daily_issues_searches sample_search "proj" "2020-01-01"
              {["severities" := "MAJOR,MINOR"; "types" := "BUG"]} 7%nat)
    as (_ & _ & Hboth).
  split.
  - specialize (H20 eq_refl eq_refl).
    destruct (search_project_daily_issues sample_search "proj" "2020-01-01" ∅ 7%nat)
      as [iss c] eqn:E.
    cbn in H20. subst c. vm_compute in E. by injection E as <-.
  - rewrite (Hboth "MAJOR,MINOR" "BUG" eq_refl eq_refl). vm_compute. reflexivity.
Defined.

(** ** Search parameters *)

(** What [get_issues_search_params] answers for a key that the caller
    does not set to a value of the list. *)
Lemma get_issues_search_params_lookup params k :
  get_issues_search_params params !! k
  = match params !! k with
    | Some v =>
        if negb (bool_decide (v = VNone)) && bool_decide (k ∈ OPTIONS_ISSUES_SEARCH)
        then Some v
        else ({["additionalFields" := VStr "comments"]} : gmap string pyval) !! k
    | None => ({["additionalFields" := VStr "comments"]} : gmap string pyval) !! k
    end.
Proof.
  unfold get_issues_search_params.
  apply (map_fold_weak_ind
           (λ (r : gmap string pyval) (m : gmap string pyval),
              r !! k = match m !! k with
                       | Some v =>
                           if negb (bool_decide (v = VNone))
                              && bool_decide (k ∈ OPTIONS_ISSUES_SEARCH)
                           then Some v
                           else ({["additionalFields" := VStr "comments"]}
                                 : gmap string pyval) !! k
                       | None => ({["additionalFields" := VStr "comments"]}
                                  : gmap string pyval) !! k
                       end)).
  - by rewrite lookup_empty.
  - intros i x m r Hi IH. unfold search_param_step.
    destruct (decide (i = k)) as [-> | Hne].
    + rewrite lookup_insert_eq. rewrite Hi in IH.
      destruct (negb (bool_decide (x = VNone)) && bool_decide (k ∈ OPTIONS_ISSUES_SEARCH));
        [by rewrite lookup_insert_eq | exact IH].
    + rewrite (lookup_insert_ne m) by done.
      destruct (negb (bool_decide (x = VNone)) && bool_decide (i ∈ OPTIONS_ISSUES_SEARCH));
        [by rewrite lookup_insert_ne | exact IH].
Qed.

(** X20: [get_issues_search_params] lets through the arguments of the
    list [OPTIONS_ISSUES_SEARCH] whose value is not [None], and nothing
    else: every parameter it answers is on the list and is not [None],
    except the default [additionalFields = comments], which is present
    whenever the caller gives no value for it; an argument on the list
    with a value is answered with that value. *)
Theorem get_issues_search_params_allowlist (params : gmap string pyval) :
  (∀ k v, get_issues_search_params params !! k = Some v →
     v ≠ VNone ∧ k ∈ OPTIONS_ISSUES_SEARCH)
  ∧ (∀ k v, params !! k = Some v → v ≠ VNone → k ∈ OPTIONS_ISSUES_SEARCH →
       get_issues_search_params params !! k = Some v)
  ∧ (params !! "additionalFields" = None ∨ params !! "additionalFields" = Some VNone →
     get_issues_search_params params !! "additionalFields" = Some (VStr "comments")).
Proof.
  split; [| split].
  - intros k v. rewrite get_issues_search_params_lookup.
    assert (({["additionalFields" := VStr "comments"]} : gmap string pyval) !! k = Some v →
            v ≠ VNone ∧ k ∈ OPTIONS_ISSUES_SEARCH) as Hdef.
    { intros [<- <-]%lookup_singleton_Some. split; [done |]. set_solver. }
    destruct (params !! k) as [x |]; [| exact Hdef].
    destruct (negb (bool_decide (x = VNone))) eqn:Hx; cbn [andb]; [| exact Hdef].
    destruct (bool_decide (k ∈ OPTIONS_ISSUES_SEARCH)) eqn:Hk; [| exact Hdef].
    intros [= <-]. split.
    + apply negb_true_iff, bool_decide_eq_false in Hx. exact Hx.
    + by apply bool_decide_eq_true in Hk.
  - intros k v Hk Hv Hin. rewrite get_issues_search_params_lookup, Hk.
    by rewrite (bool_decide_eq_false_2 _ Hv), (bool_decide_eq_true_2 _ Hin).
  - intros H. rewrite get_issues_search_params_lookup.
    destruct H as [-> | ->]; reflexivity.
Qed.

Lemma get_issues_search_params_allowlist_witness :
  let answered :=
    get_issues_search_params
      {["componentKeys" := VStr "proj"; "ps" := VInt 500; "branch" := VStr "main";
        "resolved" := VNone]} in
  answered !! "componentKeys" = Some (VStr "proj")
  ∧ answered !! "ps" = Some (VInt 500)
  ∧ answered !! "additionalFields" = Some (VStr "comments")
  ∧ answered !! "branch" = None
  ∧ answered !! "resolved" = None.
Proof.
  intros answered.
  destruct (get_issues_search_params_allowlist
              {["componentKeys" := VStr "proj"; "ps" := VInt 500; "branch" := VStr "main";
                "resolved" := VNone]}) as (Hin & Hkeep & Hdef).
  fold answered in Hin, Hkeep, Hdef.
  split; [| split; [| split; [| split]]].
  - apply Hkeep; [reflexivity | discriminate |].
    apply (bool_decide_eq_true_1 _). vm_compute. reflexivity.
  - apply Hkeep; [reflexivity | discriminate |].
    apply (bool_decide_eq_true_1 _). vm_compute. reflexivity.
  - apply Hdef. left. reflexivity.
  - destruct (answered !! "branch") as [v |] eqn:E; [| reflexivity].
    destruct (Hin _ _ E) as [_ Hk]. exfalso. revert Hk.
    apply (bool_decide_eq_false_1 _). vm_compute. reflexivity.
  - destruct (answered !! "resolved") as [v |] eqn:E; [| reflexivity].
    destruct (Hin _ _ E) as [Hv _]. vm_compute in E. congruence.
Defined.

(** ** Search *)

Lemma search_issue_loadable sqenv j :
  loadable j = true →
  ∃ i, search_issue sqenv j = Ok i
       ∧ j_key j = Some (key i) ∧ j_type j = Some (type i)
       ∧ url i = None ∧ changelog i = None ∧ comments i = None
       ∧ message i = j_message j ∧ line i = j_line j ∧ debt i = j_debt j
       ∧ hash i = j_hash j
       ∧ (severity i = None ↔ type i = "SECURITY_HOTSPOT").
Proof.
  unfold loadable. rewrite !andb_true_iff, orb_true_iff, !bool_decide_eq_true.
  intros ((((((((([k Hk] & [t Ht]) & Hsev) & [a Ha]) & [st Hst]) & [r Hr]) & [p Hp])
            & [cd Hcd]) & [ud Hud]) & [c Hc]).
  unfold search_issue, Issue___feed__, Issue_init.
  rewrite Hk, Ht, Ha, Hst, Hr, Hp, Hcd, Hud, Hc. cbn.
  destruct (String.eqb_spec t "SECURITY_HOTSPOT") as [-> | Hne]; cbn.
  - eexists. split; [reflexivity |]. cbn. by repeat split.
  - destruct Hsev as [Hh | [s Hs]]; [congruence |]. rewrite Hs. cbn.
    eexists. split; [reflexivity |]. cbn. by repeat split.
Qed.

Lemma search_issue_not_loadable sqenv j :
  loadable j = false →
  ∃ k, search_issue sqenv j = Raise (KeyError k) ∧ k ∈ required_members.
Proof.
  assert (∀ k, bool_decide (k ∈ required_members) = true →
            ∃ k', (Raise (KeyError k) : outcome Issue) = Raise (KeyError k')
                  ∧ k' ∈ required_members) as Hmiss.
  { intros k Hk. exists k. split; [done | exact (bool_decide_eq_true_1 _ Hk)]. }
  destruct j as [k t sev a st ln r p cd ud c h m d cm].
  unfold loadable, search_issue, Issue___feed__, Issue_init.
  cbn [j_key j_type j_severity j_author j_status j_line j_rule j_project j_creationDate
       j_updateDate j_component j_hash j_message j_debt j_comments].
  destruct k as [k |]; [| intros _; by apply Hmiss].
  destruct t as [t |]; [| intros _; by apply Hmiss].
  rewrite !(bool_decide_eq_true_2 (is_Some (Some _))) by eauto.
  cbn [andb member mbind outcome_bind].
  destruct (String.eqb_spec t "SECURITY_HOTSPOT") as [-> | Hne]; cbn [negb].
  - rewrite bool_decide_eq_true_2 by done. cbn [orb andb mbind outcome_bind].
    destruct a as [a |]; [| intros _; by apply Hmiss].
    destruct st as [st |]; [| intros _; by apply Hmiss].
    destruct r as [r |]; [| intros _; by apply Hmiss].
    destruct p as [p |]; [| intros _; by apply Hmiss].
    destruct cd as [cd |]; [| intros _; by apply Hmiss].
    destruct ud as [ud |]; [| intros _; by apply Hmiss].
    destruct c as [c |]; [| intros _; by apply Hmiss].
    rewrite !(bool_decide_eq_true_2 (is_Some (Some _))) by eauto. discriminate.
  - rewrite (bool_decide_eq_false_2 (Some t = Some "SECURITY_HOTSPOT")) by congruence.
    cbn [orb].
    destruct sev as [sev |]; [| intros _; by apply Hmiss].
    cbn [member mbind outcome_bind].
    destruct a as [a |]; [| intros _; by apply Hmiss].
    destruct st as [st |]; [| intros _; by apply Hmiss].
    destruct r as [r |]; [| intros _; by apply Hmiss].
    destruct p as [p |]; [| intros _; by apply Hmiss].
    destruct cd as [cd |]; [| intros _; by apply Hmiss].
    destruct ud as [ud |]; [| intros _; by apply Hmiss].
    destruct c as [c |]; [| intros _; by apply Hmiss].
    rewrite !(bool_decide_eq_true_2 (is_Some (Some _))) by eauto. discriminate.
Qed.

Lemma feed_all_loadable sqenv records :
  ∀ acc, forallb loadable records = true →
    ∃ issues, feed_all sqenv records acc = Ok (acc ++ issues)
              ∧ Forall2 (λ j i, search_issue sqenv j = Ok i) records issues.
Proof.
  induction records as [| j records IH]; intros acc Hall; cbn [feed_all].
  - exists []. by rewrite app_nil_r.
  - cbn [forallb] in Hall. apply andb_prop in Hall as [Hj Hall].
    destruct (search_issue_loadable sqenv j Hj) as (i & Hi & _).
    rewrite Hi. cbn. destruct (IH (acc ++ [i]) Hall) as (issues & Hrun & Hrel).
    exists (i :: issues). rewrite Hrun, <- app_assoc. split; [done |].
    by constructor.
Qed.

Lemma feed_all_not_loadable sqenv records :
  ∀ acc, forallb loadable records = false →
    ∃ k, feed_all sqenv records acc = Raise (KeyError k) ∧ k ∈ required_members.
Proof.
  induction records as [| j records IH]; intros acc Hall; cbn [feed_all]; [done |].
  cbn [forallb] in Hall. destruct (loadable j) eqn:Hj.
  - destruct (search_issue_loadable sqenv j Hj) as (i & Hi & _).
    rewrite Hi. cbn. apply IH. exact Hall.
  - destruct (search_issue_not_loadable sqenv j Hj) as (k & Hk & Hin).
    exists k. by rewrite Hk.
Qed.

(** X21: the number of pages [search] answers is the total divided by
    the page size, rounded up. A page size of zero raises
    ZeroDivisionError, whatever the issue records are; with a positive
    page size, if the search returns, its page count [pages] satisfies
    (pages - 1) * pageSize < total <= pages * pageSize, so that an empty
    result has zero pages; the total and the page index are those of the
    server. *)
Theorem search_page_count (issues_search : nat → gmap string pyval → search_answer)
    (sqenv : string) (clock : nat) (kwargs : gmap string pyval) :
  let data := issues_search clock (get_issues_search_params kwargs) in
  let total := paging_total (answer_paging data) in
  let size := paging_pageSize (answer_paging data) in
  (size = 0 → search issues_search sqenv clock kwargs = Fails ZeroDivisionError)
  ∧ (∀ r, 0 < size → search issues_search sqenv clock kwargs = Returns r →
       res_total r = total
       ∧ res_page r = paging_pageIndex (answer_paging data)
       ∧ (res_pages r - 1) * size < total ≤ res_pages r * size
       ∧ (total = 0 → res_pages r = 0)).
Proof.
  intros data total size. unfold search. fold data. fold total size.
  unfold floordiv. split.
  - intros ->. reflexivity.
  - intros r Hsize. destruct (Z.eqb_spec size 0) as [| _]; [lia |].
    destruct (feed_all sqenv (answer_issues data) []) as [all_issues | e];
      [| discriminate].
    intros [= <-]. cbn.
    pose proof (Z.mod_pos_bound (total - 1) size Hsize) as Hmod.
    pose proof (Z.div_mod (total - 1) size ltac:(lia)) as Hdiv.
    split; [done |]. split; [done |]. split; [nia |].
    intros H0. nia.
Qed.

Lemma search_page_count_witness :
  ∃ r r0,
    search (sample_project 1201) "http://sq" 0%nat {["ps" := VInt 500]} = Returns r
    ∧ res_pages r = 3
    ∧ search (sample_project 0) "http://sq" 0%nat {["ps" := VInt 500]} = Returns r0
    ∧ res_pages r0 = 0.
Proof.
  destruct (search (sample_project 1201) "http://sq" 0%nat {["ps" := VInt 500]})
    as [r | e] eqn:E; [| vm_compute in E; discriminate].
  destruct (search (sample_project 0) "http://sq" 0%nat {["ps" := VInt 500]})
    as [r0 | e] eqn:E0; [| vm_compute in E0; discriminate].
  exists r, r0.
  destruct (search_page_count (sample_project 1201) "http://sq" 0%nat {["ps" := VInt 500]})
    as [_ H].
  destruct (search_page_count (sample_project 0) "http://sq" 0%nat {["ps" := VInt 500]})
    as [_ H0].
  destruct (H r ltac:(vm_compute; reflexivity) E) as (_ & _ & Hb & _).
  destruct (H0 r0 ltac:(vm_compute; reflexivity) E0) as (_ & _ & _ & Hz).
  change (paging_total _) with 1201 in Hb. change (paging_pageSize _) with 500 in Hb.
  repeat split; [lia | exact (Hz eq_refl)].
Defined.

(** X22: [search] loads every issue record of the page or none. When
    each record carries the members key, type, author, status, rule,
    project, creationDate, updateDate and component, and severity unless
    it is a security hotspot, the search returns one issue object for
    each record, in the order of the page, with the key of the record
    and with no URL, changelog or comments cached. When one record lacks
    one of these members the whole search raises a KeyError naming such
    a member, although the server answered. *)
Theorem search_loads_all_or_nothing
    (issues_search : nat → gmap string pyval → search_answer)
    (sqenv : string) (clock : nat) (kwargs : gmap string pyval) :
  let data := issues_search clock (get_issues_search_params kwargs) in
  paging_pageSize (answer_paging data) ≠ 0 →
  (forallb loadable (answer_issues data) = true →
     ∃ r, search issues_search sqenv clock kwargs = Returns r
          ∧ Some ∘ key <$> res_issues r = j_key <$> answer_issues data
          ∧ Forall (λ i, url i = None ∧ changelog i = None ∧ comments i = None)
              (res_issues r))
  ∧ (forallb loadable (answer_issues data) = false →
     ∃ k, search issues_search sqenv clock kwargs = Fails (Raised (KeyError k))
          ∧ k ∈ required_members).
Proof.
  intros data Hsize. unfold search. fold data. unfold floordiv.
  destruct (Z.eqb_spec (paging_pageSize (answer_paging data)) 0) as [| _]; [done |].
  split; intros Hall.
  - destruct (feed_all_loadable sqenv (answer_issues data) [] Hall)
      as (issues & -> & Hrel).
    eexists. split; [reflexivity |]. cbn [res_issues app].
    clear Hall. induction Hrel as [| j i records issues Hj _ IH]; [by split |].
    assert (loadable j = true) as Hl.
    { destruct (loadable j) eqn:E; [done |].
      destruct (search_issue_not_loadable sqenv j E) as (k & Hk & _). congruence. }
    destruct (search_issue_loadable sqenv j Hl)
      as (i' & Hi' & Hkey & _ & Hu & Hc & Hm & _).
    assert (i' = i) as -> by congruence.
    destruct IH as [IHk IHc]. split.
    + cbn. by rewrite Hkey, <- IHk.
    + by constructor.
  - destruct (feed_all_not_loadable sqenv (answer_issues data) [] Hall) as (k & -> & Hk).
    by exists k.
Qed.

Lemma search_loads_all_or_nothing_witness :
  (∃ r, search (sample_page [sample_record "A"; sample_hotspot]) "http://sq" 0%nat ∅
        = Returns r
        ∧ Some ∘ key <$> res_issues r = [Some "A"; Some "H"])
  ∧ ∃ k, search (sample_page [sample_record "A"; sample_anonymous; sample_hotspot])
           "http://sq" 0%nat ∅
         = Fails (Raised (KeyError k)).
Proof.
  destruct (search_loads_all_or_nothing (sample_page [sample_record "A"; sample_hotspot])
              "http://sq" 0%nat ∅ ltac:(discriminate)) as [Hall _].
  destruct (search_loads_all_or_nothing
              (sample_page [sample_record "A"; sample_anonymous; sample_hotspot])
              "http://sq" 0%nat ∅ ltac:(discriminate)) as [_ Hnone].
  split.
  - destruct (Hall eq_refl) as (r & Hr & Hk & _). by exists r.
  - destruct (Hnone eq_refl) as (k & Hk & _). by exists k.
Defined.

Lemma feed_all_length sqenv records :
  ∀ acc issues, feed_all sqenv records acc = Ok issues →
    length issues = (length acc + length records)%nat.
Proof.
  induction records as [| j records IH]; intros acc issues; cbn [feed_all].
  - intros [= <-]. cbn. lia.
  - destruct (search_issue sqenv j) as [i | e]; [| discriminate]. cbn.
    intros H. rewrite (IH _ _ H), length_app. cbn. lia.
Qed.

Section SearchFacts.

Variable issues_search : nat → gmap string pyval → search_answer.
Variable sqenv : string.

(** The server answers the page it is asked, or a later one. *)
Hypothesis page_answered :
  ∀ clock params p,
    params !! "p" = Some (VInt p) →
    p ≤ paging_pageIndex (answer_paging (issues_search clock params)).

(** The server answers at most 500 issues when it is asked pages of
    500. *)
Hypothesis size_honoured :
  ∀ clock params,
    params !! "ps" = Some (VInt 500) →
    (length (answer_issues (issues_search clock params)) ≤ 500)%nat.

Lemma search_page_result clock kwargs page r :
  kwargs !! "ps" = Some (VInt 500) →
  search issues_search sqenv clock (<["p" := VInt page]> kwargs) = Returns r →
  page ≤ res_page r ∧ (length (res_issues r) ≤ 500)%nat.
Proof.
  intros Hps. unfold search.
  set (params := get_issues_search_params (<["p" := VInt page]> kwargs)).
  assert (params !! "p" = Some (VInt page)) as Hp.
  { unfold params. rewrite get_issues_search_params_lookup, lookup_insert_eq.
    reflexivity. }
  assert (params !! "ps" = Some (VInt 500)) as Hs.
  { unfold params. rewrite get_issues_search_params_lookup, lookup_insert_ne by done.
    rewrite Hps. reflexivity. }
  destruct (floordiv _ _); [| discriminate].
  destruct (feed_all sqenv _ []) as [all_issues | e] eqn:Hfeed; [| discriminate].
  intros [= <-]. cbn. split; [by apply page_answered |].
  rewrite (feed_all_length _ _ _ _ Hfeed). cbn. by apply size_honoured.
Qed.

Lemma search_all_issues_loop_bounded (k : nat) :
  ∀ kwargs page nbr_pages issues clock (g : nat),
    (Z.to_nat (21 - page) ≤ k)%nat →
    kwargs !! "ps" = Some (VInt 500) →
    (g ≤ 20)%nat → Z.of_nat g ≤ page - 1 →
    (length issues ≤ 500 * g)%nat →
    ∃ r n,
      (g + n ≤ 20)%nat
      ∧ (page ≤ nbr_pages → page ≤ 20 → (1 ≤ n)%nat)
      ∧ (∀ fuel, (k < fuel)%nat →
           search_all_issues_loop issues_search sqenv fuel kwargs page nbr_pages issues clock
           = Some (r, (clock + n)%nat))
      ∧ (∀ found, r = Returns found → (length found ≤ 500 * (g + n))%nat).
Proof.
  induction k as [| k IH]; intros kwargs page nbr_pages issues clock g Hk Hps Hg Hpage Hlen.
  - exists (Returns issues), 0%nat. split; [lia |]. split; [lia |]. split.
    + intros [| fuel] Hf; [lia |]. cbn [search_all_issues_loop].
      destruct (Z.leb_spec page 20); [lia |]. rewrite andb_false_r.
      by rewrite Nat.add_0_r.
    + intros found [= <-]. lia.
  - destruct ((page <=? nbr_pages) && (page <=? 20)) eqn:Hgo.
    + apply andb_prop in Hgo as [Hn%Z.leb_le H20%Z.leb_le].
      destruct (search issues_search sqenv clock (<["p" := VInt page]> kwargs))
        as [rd | e] eqn:Hsearch.
      * destruct (search_page_result clock kwargs page rd Hps Hsearch) as [Hp Hl].
        destruct (IH (<["p" := VInt (res_page rd + 1)]> (<["p" := VInt page]> kwargs))
                    (res_page rd + 1) (res_pages rd) (issues ++ res_issues rd)
                    (S clock) (S g))
          as (r & n & Hbound & _ & Hrun & Hfound).
        { lia. }
        { by rewrite !lookup_insert_ne. }
        { lia. }
        { lia. }
        { rewrite length_app. lia. }
        exists r, (S n). split; [lia |]. split; [lia |]. split.
        -- intros [| fuel] Hf; [lia |]. cbn [search_all_issues_loop].
           destruct (Z.leb_spec page nbr_pages); [| lia].
           destruct (Z.leb_spec page 20); [| lia]. cbn [andb].
           rewrite Hsearch, Hrun by lia. do 2 f_equal. lia.
        -- intros found Hr. specialize (Hfound found Hr). lia.
      * exists (Fails e), 1%nat. split; [lia |]. split; [lia |]. split.
        -- intros [| fuel] Hf; [lia |]. cbn [search_all_issues_loop].
           destruct (Z.leb_spec page nbr_pages); [| lia].
           destruct (Z.leb_spec page 20); [| lia]. cbn [andb].
           rewrite Hsearch. do 2 f_equal. lia.
        -- discriminate.
    + exists (Returns issues), 0%nat. split; [lia |]. split.
      { intros H1 H2. apply Z.leb_le in H1, H2. rewrite H1, H2 in Hgo. done. }
      split.
      * intros [| fuel] Hf; [lia |]. cbn [search_all_issues_loop].
        rewrite Hgo. by rewrite Nat.add_0_r.
      * intros found [= <-]. lia.
Qed.

End SearchFacts.

(** X23: [search_all_issues] reads at most 20 pages of 500 issues. With
    a server that answers the page it is asked (or a later one) and at
    most 500 issues for pages of 500, the loop ends after at least one
    and at most 20 searches, whatever the page count announced, and what
    it returns holds at most 500 issues for each search made, so never
    more than [MAX_ISSUE_SEARCH] = 10000; nothing is raised for the
    issues left out. *)
Theorem search_all_issues_bounded
    (issues_search : nat → gmap string pyval → search_answer) (sqenv : string) :
  (∀ clock params p,
     params !! "p" = Some (VInt p) →
     p ≤ paging_pageIndex (answer_paging (issues_search clock params))) →
  (∀ clock params,
     params !! "ps" = Some (VInt 500) →
     (length (answer_issues (issues_search clock params)) ≤ 500)%nat) →
  ∀ kwargs clock,
    ∃ r n,
      (1 ≤ n ≤ 20)%nat
      ∧ (∀ fuel, (20 < fuel)%nat →
           search_all_issues issues_search sqenv fuel kwargs clock
           = Some (r, (clock + n)%nat))
      ∧ (∀ found, r = Returns found →
           (length found ≤ 500 * n)%nat
           ∧ Z.of_nat (length found) ≤ MAX_ISSUE_SEARCH).
Proof.
  intros Hpage Hsize kwargs clock. unfold search_all_issues.
  destruct (search_all_issues_loop_bounded issues_search sqenv Hpage Hsize 20
              (<["ps" := VInt 500]> kwargs) 1 1 [] clock 0%nat)
    as (r & n & Hn & H1 & Hrun & Hfound).
  { cbn. lia. }
  { apply lookup_insert_eq. }
  { lia. }
  { lia. }
  { cbn. lia. }
  exists r, n. split; [lia |]. split; [exact Hrun |].
  intros found Hr. specialize (Hfound found Hr). unfold MAX_ISSUE_SEARCH. lia.
Qed.

Lemma search_all_issues_bounded_witness :
  (∃ r n, (1 ≤ n ≤ 20)%nat
          ∧ search_all_issues (sample_project 1201) "http://sq" 21 ∅ 0%nat = Some (r, n)
          ∧ ∀ found, r = Returns found → (length found ≤ 500 * n)%nat)
  ∧ match search_all_issues (sample_project 1201) "http://sq" 21 ∅ 0%nat with
    | Some (Returns found, n) => length found = 1201%nat ∧ n = 3%nat
    | _ => False
    end.
Proof.
  split; [| vm_compute; by split].
  assert (∀ clock params p,
            params !! "p" = Some (VInt p) →
            p ≤ paging_pageIndex (answer_paging (sample_project 1201 clock params)))
    as Hpage by (intros clock params p Hp; cbn; rewrite Hp; lia).
  assert (∀ clock params,
            params !! "ps" = Some (VInt 500) →
            (length (answer_issues (sample_project 1201 clock params)) ≤ 500)%nat)
    as Hsize by (intros clock params Hps; cbn; rewrite Hps, length_fmap, length_seq; lia).
  destruct (search_all_issues_bounded (sample_project 1201) "http://sq" Hpage Hsize ∅ 0%nat)
    as (r & n & Hn & Hrun & Hfound).
  exists r, n. split; [exact Hn |]. split; [exact (Hrun 21%nat (le_n _)) |].
  intros found Hr. by destruct (Hfound found Hr).
Defined.

(** ** From the issue record to the CSV row *)

Lemma search_issue_returns sqenv j i :
  search_issue sqenv j = Ok i →
  j_key j = Some (key i) ∧ j_type j = Some (type i)
  ∧ message i = j_message j ∧ line i = j_line j
  ∧ (severity i = None ↔ type i = "SECURITY_HOTSPOT").
Proof.
  intros Hi. destruct (loadable j) eqn:Hl.
  - destruct (search_issue_loadable sqenv j Hl)
      as (i' & Hi' & Hk & Ht & _ & _ & _ & Hm & Hln & _ & _ & Hsev).
    assert (i' = i) as -> by congruence. done.
  - destruct (search_issue_not_loadable sqenv j Hl) as (k & Hk & _). congruence.
Qed.

(** X24: an issue record that [search] loads is not always one that
    [to_csv] can write. The member message is optional for [__feed__],
    but [to_csv] raises TypeError on the issue loaded from a record
    without it. With a message, the row has as many fields as the header
    has columns, it starts with the key of the record, the severity
    column of a security hotspot reads None, and the line column of a
    record without line reads -. *)
Theorem loaded_issue_to_csv (sqenv : string) (get_name : string → string → string)
    (j : json_issue) (i : Issue) :
  search_issue sqenv j = Ok i →
  (j_message j = None → Issue_to_csv get_name i = Raise TypeError)
  ∧ (∀ msg, j_message j = Some msg →
       ∃ fields,
         Issue_to_csv get_name i = Ok (join ";" fields)
         ∧ length fields = length (re_split ";" to_csv_header)
         ∧ Some <$> fields !! 0%nat = Some (j_key j)
         ∧ (j_type j = Some "SECURITY_HOTSPOT" → fields !! 3%nat = Some "None")
         ∧ (j_line j = None → fields !! 12%nat = Some "-")).
Proof.
  intros Hi. destruct (search_issue_returns sqenv j i Hi) as (Hk & Ht & Hm & Hln & Hsev).
  unfold Issue_to_csv, to_csv_fields. rewrite Hm. split.
  - intros ->. reflexivity.
  - intros msg ->. eexists. split; [reflexivity |].
    split; [vm_compute; reflexivity |]. cbn [lookup list_lookup fmap option_fmap option_map].
    split; [by rewrite Hk |]. split.
    + rewrite Ht. intros [= Hh]. apply Hsev in Hh. by rewrite Hh.
    + rewrite Hln. by intros ->.
Qed.

Lemma loaded_issue_to_csv_witness :
  (∃ i, search_issue "http://sq" sample_hotspot = Ok i
        ∧ Issue_to_csv (λ p _, p) i = Raise TypeError)
  ∧ ∃ i fields,
      search_issue "http://sq" (sample_record "A") = Ok i
      ∧ Issue_to_csv (λ p _, p) i = Ok (join ";" fields)
      ∧ length fields = 15%nat
      ∧ Some <$> fields !! 0%nat = Some (Some "A").
Proof.
  split.
  - eexists. split; [reflexivity |].
    apply (loaded_issue_to_csv "http://sq" (λ p _, p) sample_hotspot _ eq_refl).
    reflexivity.
  - destruct (loaded_issue_to_csv "http://sq" (λ p _, p) (sample_record "A") _ eq_refl)
      as [_ H].
    destruct (H "m" eq_refl) as (fields & Hrow & Hlen & Hkey & _).
    eexists _, fields. split; [reflexivity |]. split; [exact Hrow |].
    split; [exact Hlen | exact Hkey].
Defined.

(** ** Predicates on the records of the changelog *)

Lemma in_and_equal_lookup k d v : in_and_equal k d v = bool_decide (d !! k = Some v).
Proof.
  unfold in_and_equal. destruct (d !! k) as [x |] eqn:E.
  - by rewrite (dict_in_Some _ _ _ E).
  - unfold dict_in. rewrite E. rewrite bool_decide_eq_false_2; [done |]. by intros [? ?].
Qed.

Lemma key_test (d : diff) k k0 :
  d !! "key" = Some k0 → (k0 =? k)%string = bool_decide (d !! "key" = Some k).
Proof.
  intros ->. destruct (String.eqb_spec k0 k) as [-> | Hne].
  - by rewrite bool_decide_eq_true_2.
  - rewrite bool_decide_eq_false_2; [done | congruence].
Qed.

Lemma if_true_else (b c : bool) : (if b then true else c) = b || c.
Proof. by destruct b. Qed.

Lemma keyed_cons (d : diff) ds :
  keyed (d :: ds) = true → ∃ k, d !! "key" = Some k ∧ keyed ds = true.
Proof.
  unfold keyed. cbn [forallb]. intros [[k Hk]%bool_decide_eq_true Hds]%andb_prop. eauto.
Qed.

Lemma not_keyed_cons (d : diff) ds :
  keyed (d :: ds) = false →
  d !! "key" = None ∨ (∃ k, d !! "key" = Some k) ∧ keyed ds = false.
Proof.
  unfold keyed. cbn [forallb]. destruct (d !! "key") as [k |]; [| by left].
  rewrite bool_decide_eq_true_2 by eauto. right. eauto.
Qed.

Lemma orb_shuffle (a c e : bool) : a || c || e = c || (a || e).
Proof. by destruct a, c, e. Qed.

(** One pass of a loop that sets two flags, for diffs with and without
    key. *)
Ltac cond_loop IH :=
  split;
  [ let k := fresh "k" in
    let Hk := fresh "Hk" in
    let Hds := fresh "Hds" in
    intros (k & Hk & Hds)%keyed_cons;
    rewrite (dict_get_Some _ _ _ Hk); cbn [mbind outcome_bind];
    rewrite (proj1 (IH _ _) Hds), !if_true_else, ?in_and_equal_lookup;
    rewrite !(key_test _ _ k Hk); unfold moves, sets; by rewrite !orb_shuffle
  | let k := fresh "k" in
    let Hk := fresh "Hk" in
    let Hds := fresh "Hds" in
    intros [Hk | [[k Hk] Hds]]%not_keyed_cons;
    [ by rewrite (dict_get_None _ _ Hk)
    | rewrite (dict_get_Some _ _ _ Hk); cbn [mbind outcome_bind]; apply IH; exact Hds ] ].

Lemma is_log_a_closed_resolved_as_loop_spec old_value ds :
  ∀ c1 c2,
    (keyed ds = true →
     is_log_a_closed_resolved_as_loop ds old_value c1 c2
     = Ok ((c1 || existsb (moves "resolution" old_value "FIXED") ds)
           && (c2 || existsb (moves "status" "RESOLVED" "CLOSED") ds)))
    ∧ (keyed ds = false →
       is_log_a_closed_resolved_as_loop ds old_value c1 c2 = Raise (KeyError "key")).
Proof.
  induction ds as [| d ds IH]; intros c1 c2; cbn [is_log_a_closed_resolved_as_loop existsb].
  - split; [by rewrite !orb_false_r | discriminate].
  - cond_loop IH.
Qed.

Lemma is_log_a_resolve_as_loop_spec resolve_reason ds :
  ∀ c1 c2,
    (keyed ds = true →
     is_log_a_resolve_as_loop ds resolve_reason c1 c2
     = Ok ((c1 || existsb (sets "resolution" resolve_reason) ds)
           && (c2 || existsb (sets "status" "RESOLVED") ds)))
    ∧ (keyed ds = false →
       is_log_a_resolve_as_loop ds resolve_reason c1 c2 = Raise (KeyError "key")).
Proof.
  induction ds as [| d ds IH]; intros c1 c2; cbn [is_log_a_resolve_as_loop existsb].
  - split; [by rewrite !orb_false_r | discriminate].
  - cond_loop IH.
Qed.

Lemma is_log_a_reopen_loop_spec ds :
  ∀ c1 c2,
    (keyed ds = true →
     is_log_a_reopen_loop ds c1 c2
     = Ok ((c1 || existsb (λ d, bool_decide (d !! "key" = Some "resolution")) ds)
           && (c2 || existsb (sets "status" "REOPENED") ds)))
    ∧ (keyed ds = false → is_log_a_reopen_loop ds c1 c2 = Raise (KeyError "key")).
Proof.
  induction ds as [| d ds IH]; intros c1 c2; cbn [is_log_a_reopen_loop existsb].
  - split; [by rewrite !orb_false_r | discriminate].
  - cond_loop IH.
Qed.

Lemma is_log_a_reviewed_loop_spec ds :
  ∀ c1 c2,
    (keyed ds = true →
     is_log_a_reviewed_loop ds c1 c2
     = Ok ((c1 || existsb (sets "resolution" "FIXED") ds)
           && (c2 || existsb (sets "status" "REVIEWED") ds)))
    ∧ (keyed ds = false → is_log_a_reviewed_loop ds c1 c2 = Raise (KeyError "key")).
Proof.
  induction ds as [| d ds IH]; intros c1 c2; cbn [is_log_a_reviewed_loop existsb].
  - split; [by rewrite !orb_false_r | discriminate].
  - cond_loop IH.
Qed.

(** X25: the predicates on a record of the changelog read every diff
    and do not depend on the order of the diffs. They raise KeyError
    'key' exactly when some diff has no key; a diff without newValue or
    oldValue never makes them raise. Otherwise they answer whether some
    diff meets the first condition and some diff, the same or another,
    meets the second: a resolution set to FIXED from the given value and
    a status moved from RESOLVED to CLOSED for
    [is_log_a_closed_resolved_as]; a resolution set to the given reason
    and a status set to RESOLVED for [is_log_a_resolve_as]; any
    resolution diff and a status set to REOPENED for [is_log_a_reopen];
    a resolution set to FIXED and a status set to REVIEWED for
    [is_log_a_reviewed]. *)
Theorem is_log_predicates (log : raw_log) :
  (keyed (diffs log) = false →
     (∀ v, is_log_a_closed_resolved_as log v = Raise (KeyError "key"))
     ∧ (∀ v, is_log_a_resolve_as log v = Raise (KeyError "key"))
     ∧ is_log_a_reopen log = Raise (KeyError "key")
     ∧ is_log_a_reviewed log = Raise (KeyError "key"))
  ∧ (keyed (diffs log) = true →
     (∀ v, is_log_a_closed_resolved_as log v
           = Ok (existsb (moves "resolution" v "FIXED") (diffs log)
                 && existsb (moves "status" "RESOLVED" "CLOSED") (diffs log)))
     ∧ (∀ v, is_log_a_resolve_as log v
             = Ok (existsb (sets "resolution" v) (diffs log)
                   && existsb (sets "status" "RESOLVED") (diffs log)))
     ∧ is_log_a_reopen log
       = Ok (existsb (λ d, bool_decide (d !! "key" = Some "resolution")) (diffs log)
             && existsb (sets "status" "REOPENED") (diffs log))
     ∧ is_log_a_reviewed log
       = Ok (existsb (sets "resolution" "FIXED") (diffs log)
             && existsb (sets "status" "REVIEWED") (diffs log))).
Proof.
  unfold is_log_a_closed_resolved_as, is_log_a_resolve_as, is_log_a_reopen,
    is_log_a_reviewed.
  split; intros Hk.
  - split; [| split; [| split]].
    + intros v. by apply is_log_a_closed_resolved_as_loop_spec.
    + intros v. by apply is_log_a_resolve_as_loop_spec.
    + by apply is_log_a_reopen_loop_spec.
    + by apply is_log_a_reviewed_loop_spec.
  - split; [| split; [| split]].
    + intros v. by rewrite (proj1 (is_log_a_closed_resolved_as_loop_spec v _ _ _) Hk).
    + intros v. by rewrite (proj1 (is_log_a_resolve_as_loop_spec v _ _ _) Hk).
    + by rewrite (proj1 (is_log_a_reopen_loop_spec _ _ _) Hk).
    + by rewrite (proj1 (is_log_a_reviewed_loop_spec _ _ _) Hk).
Qed.

Lemma is_log_predicates_witness :
  is_log_a_closed_fp log_closed_fp = Ok true
  ∧ is_log_a_closed_wf log_closed_fp = Ok false
  ∧ is_log_a_reopen log_unkeyed = Raise (KeyError "key").
Proof.
  destruct (is_log_predicates log_closed_fp) as [_ Hkeyed].
  destruct (Hkeyed eq_refl) as (Hclosed & _).
  destruct (is_log_predicates log_unkeyed) as [Hunkeyed _].
  destruct (Hunkeyed eq_refl) as (_ & _ & Hreopen & _).
  unfold is_log_a_closed_fp, is_log_a_closed_wf.
  split; [by rewrite Hclosed |]. split; [by rewrite Hclosed | exact Hreopen].
Defined.

(** ** Comparison of two dictionaries on a list of keys *)

(** X26: [identical_attributes] compares two dictionaries on the keys
    of a list. It answers the same, error included, when the two
    dictionaries are exchanged; it answers True exactly when every key
    of the list is in the first dictionary and has the same value in the
    second; and when it raises, it is a KeyError for a key of the list
    that one of the two dictionaries lacks. *)
Theorem identical_attributes_compares (o1 o2 : gmap string string) (key_list : list string) :
  identical_attributes o1 o2 key_list = identical_attributes o2 o1 key_list
  ∧ (identical_attributes o1 o2 key_list = Ok true
     ↔ ∀ k, k ∈ key_list → is_Some (o1 !! k) ∧ o1 !! k = o2 !! k)
  ∧ (∀ e, identical_attributes o1 o2 key_list = Raise e →
       ∃ k, e = KeyError k ∧ k ∈ key_list ∧ (o1 !! k = None ∨ o2 !! k = None)).
Proof.
  induction key_list as [| key rest (IHsym & IHtrue & IHraise)];
    cbn [identical_attributes].
  - split; [done |]. split; [| discriminate].
    split; [intros _ k Hk; by apply elem_of_nil in Hk | done].
  - unfold dict_get.
    destruct (o1 !! key) as [a |] eqn:H1, (o2 !! key) as [b |] eqn:H2;
      cbn [mbind outcome_bind].
    + rewrite (String.eqb_sym b a).
      destruct (String.eqb_spec a b) as [-> | Hne]; cbn [negb].
      * split; [exact IHsym |]. split.
        -- rewrite IHtrue. split.
           ++ intros Hrest k [-> | Hk]%elem_of_cons; [| by apply Hrest].
              rewrite H1, H2. eauto.
           ++ intros Hall k Hk. apply Hall. by right.
        -- intros e He. destruct (IHraise e He) as (k & -> & Hk & Hmiss).
           exists k. split; [done |]. split; [by right | done].
      * split; [done |]. split; [| discriminate].
        split; [discriminate |]. intros Hall.
        destruct (Hall key ltac:(by left)) as [_ Heq]. congruence.
    + split; [done |]. split.
      * split; [discriminate |]. intros Hall.
        destruct (Hall key ltac:(by left)) as [_ Heq]. congruence.
      * intros e [= <-]. exists key. split; [done |]. split; [by left | by right].
    + split; [done |]. split.
      * split; [discriminate |]. intros Hall.
        destruct (Hall key ltac:(by left)) as [[? ?] _]. congruence.
      * intros e [= <-]. exists key. split; [done |]. split; [by left | by left].
    + split; [done |]. split.
      * split; [discriminate |]. intros Hall.
        destruct (Hall key ltac:(by left)) as [[? ?] _]. congruence.
      * intros e [= <-]. exists key. split; [done |]. split; [by left | by left].
Qed.

Lemma identical_attributes_compares_witness :
  identical_attributes diff_assign_john diff_assign_key ["key"] = Ok true
  ∧ identical_attributes diff_assign_john diff_unassign_john ["key"; "newValue"]
    = identical_attributes diff_unassign_john diff_assign_john ["key"; "newValue"].
Proof.
  destruct (identical_attributes_compares diff_assign_john diff_assign_key ["key"])
    as (_ & Htrue & _).
  destruct (identical_attributes_compares diff_assign_john diff_unassign_john
              ["key"; "newValue"]) as (Hsym & _).
  split; [| exact Hsym].
  apply Htrue. intros k ->%list_elem_of_singleton. split; [by eexists | reflexivity].
Defined.

(** ** Comments indexed by date *)

Lemma sort_comments_snoc comments c :
  sort_comments (comments ++ [c]) = <[createdAt c := ("comment", c)]> (sort_comments comments).
Proof. unfold sort_comments. by rewrite foldl_app. Qed.

Lemma sort_comments_dom comments :
  dom (sort_comments comments) = list_to_set (createdAt <$> comments).
Proof.
  induction comments as [| c comments IH] using rev_ind; [set_solver |].
  rewrite sort_comments_snoc, dom_insert_L, IH, fmap_app, list_to_set_app_L.
  cbn. set_solver.
Qed.

(** X27: [sort_comments] and [IssueComments.sort] do not sort, they
    index the comments by creation date, and both build the same
    dictionary. For each date it holds the last comment created at that
    date, so it never has more entries than [IssueComments.size] counts
    comments, and it has fewer as soon as two comments carry the same
    createdAt. *)
Theorem sort_comments_last_wins (comments : list raw_comment) :
  IssueComments_sort comments = sort_comments comments
  ∧ (∀ d, sort_comments comments !! d
          = (λ c, ("comment", c)) <$> last (filter (λ c, createdAt c = d) comments))
  ∧ (size (sort_comments comments) ≤ IssueComments_size comments)%nat
  ∧ (¬ NoDup (createdAt <$> comments) →
     (size (sort_comments comments) < IssueComments_size comments)%nat).
Proof.
  split; [reflexivity |]. split; [| split].
  - intros d. induction comments as [| c comments IH] using rev_ind; [done |].
    rewrite sort_comments_snoc, filter_app.
    destruct (decide (createdAt c = d)) as [Hd | Hd].
    + rewrite Hd, lookup_insert_eq.
      rewrite (filter_cons_True _ c []), filter_nil by done. by rewrite last_snoc.
    + rewrite lookup_insert_ne by done.
      rewrite (filter_cons_False _ c []), filter_nil by done. by rewrite app_nil_r.
  - unfold IssueComments_size. rewrite <- size_dom, sort_comments_dom.
    etrans; [apply size_list_to_set_le |]. by rewrite length_fmap.
  - intros Hdup. unfold IssueComments_size. rewrite <- size_dom, sort_comments_dom.
    eapply Nat.lt_le_trans; [by apply size_list_to_set_lt |]. by rewrite length_fmap.
Qed.

Lemma sort_comments_last_wins_witness :
  let comments := [RawComment "2020-02-01T09:00:00+0000" "first";
                   RawComment "2020-02-02T09:00:00+0000" "other";
                   RawComment "2020-02-01T09:00:00+0000" "second"] in
  sort_comments comments !! "2020-02-01T09:00:00+0000"
  = Some ("comment", RawComment "2020-02-01T09:00:00+0000" "second")
  ∧ (size (sort_comments comments) < 3)%nat.
Proof.
  intros comments.
  destruct (sort_comments_last_wins comments) as (_ & Hlast & _ & Hfewer).
  split; [by rewrite Hlast |].
  apply Hfewer. intros Hnd. apply NoDup_cons_1_1 in Hnd. apply Hnd. set_solver.
Defined.
